(** * mania-svg: layout resolution, bar lines and note geometry

    A shallow embedding of [src/index.ts], in the revision whose resolver has
    the three strip modes ['num'], ['time'] and ['ratio'], the axis column
    and the [layout.targetSize] fit, with the properties of
    - the time-window and strip resolver [resolveOptions]: window
      resolution, the three strip modes, the fit to a target size, the
      context invariant, re-resolution of a resolved window;
    - the bar-line generator [generateBarLinePositions];
    - the note emitter [createNote] and the part of [render] built from it.

    Numbers.  A JavaScript [number] is modelled by [num]: an exact rational
    or one of the three special values [Infinity], [-Infinity], [NaN].
    Arithmetic on finite values is exact (no rounding); division by zero,
    arithmetic on infinities and comparisons with [NaN] follow IEEE 754 as
    JavaScript does.  Zero carries no sign: a zero divisor is taken as [+0].
    Values the caller supplies (beatmap and options) are finite, so they are
    rationals [Q]; everything the code computes is a [num].

    Errors.  A [throw] ends the computation with [Throw e], one constructor
    of [error] per throwing site.

    Loops.  The ratio search is bounded by its own condition and defined by
    well-founded recursion on the iterations left.  The bar-line loop may
    run forever (a bar duration that is not positive), so it takes fuel and
    returns [None] when the fuel runs out; termination is proved where the
    statements need it.

    Pluggable parts.  The colour selector is a function held in the options;
    the [createElement] builders are fixed to their defaults. *)

From Stdlib Require Import QArith Qround ZArith List Bool String Lia Lqa.
From Stdlib Require Import Sorted Permutation.
From Equations Require Import Equations.
Import ListNotations.

Local Open Scope Q_scope.

(* ------------------------------------------------------------------------- *)
(** ** JavaScript numbers *)

Module JS.

Inductive num : Type :=
| Fin (q : Q)
| PInf
| NInf
| NaN.

(** Sign of a value as a [comparison] with zero ([Eq] for zero). *)
Definition sgn (x : num) : comparison :=
  match x with
  | Fin q => q ?= 0
  | PInf => Gt
  | NInf => Lt
  | NaN => Eq
  end.

Definition sgn_mul (a b : comparison) : comparison :=
  match a, b with
  | Eq, _ | _, Eq => Eq
  | Gt, Gt | Lt, Lt => Gt
  | _, _ => Lt
  end.

(** The infinite (or undefined) value of a given sign:
    [x/0] and [Infinity * x] are [inf_of (sign)], [NaN] for sign zero. *)
Definition inf_of (c : comparison) : num :=
  match c with
  | Gt => PInf
  | Lt => NInf
  | Eq => NaN
  end.

Definition neg (x : num) : num :=
  match x with
  | Fin q => Fin (- q)
  | PInf => NInf
  | NInf => PInf
  | NaN => NaN
  end.

Definition add (x y : num) : num :=
  match x, y with
  | NaN, _ | _, NaN => NaN
  | Fin a, Fin b => Fin (a + b)
  | PInf, NInf | NInf, PInf => NaN
  | PInf, _ | _, PInf => PInf
  | NInf, _ | _, NInf => NInf
  end.

Definition sub (x y : num) : num := add x (neg y).

Definition mul (x y : num) : num :=
  match x, y with
  | NaN, _ | _, NaN => NaN
  | Fin a, Fin b => Fin (a * b)
  | _, _ => inf_of (sgn_mul (sgn x) (sgn y))
  end.

Definition div (x y : num) : num :=
  match x, y with
  | NaN, _ | _, NaN => NaN
  | Fin a, Fin b => if Qeq_bool b 0 then inf_of (a ?= 0) else Fin (a / b)
  | Fin _, _ => Fin 0
  | _, Fin b => match b ?= 0 with Lt => neg x | _ => x end
  | _, _ => NaN
  end.

(** Ordering: [None] when either side is [NaN] (every comparison is then
    false). *)
Definition cmp (x y : num) : option comparison :=
  match x, y with
  | NaN, _ | _, NaN => None
  | Fin a, Fin b => Some (a ?= b)
  | PInf, PInf | NInf, NInf => Some Eq
  | NInf, _ | _, PInf => Some Lt
  | PInf, _ | _, NInf => Some Gt
  end.

Definition lt (x y : num) : bool :=
  match cmp x y with Some Lt => true | _ => false end.
Definition le (x y : num) : bool :=
  match cmp x y with Some Lt | Some Eq => true | _ => false end.
Definition gt (x y : num) : bool :=
  match cmp x y with Some Gt => true | _ => false end.
Definition ge (x y : num) : bool :=
  match cmp x y with Some Gt | Some Eq => true | _ => false end.

(** [Math.max], [Math.min] (two arguments; more arguments fold to the left)
    and [Math.ceil]. *)
Definition max (x y : num) : num :=
  match cmp x y with
  | None => NaN
  | Some Lt => y
  | Some _ => x
  end.

Definition min (x y : num) : num :=
  match cmp x y with
  | None => NaN
  | Some Gt => y
  | Some _ => x
  end.

Definition ceil (x : num) : num :=
  match x with
  | Fin q => Fin (inject_Z (Qceiling q))
  | _ => x
  end.

(** Truthiness of a number in a condition: [0] and [NaN] are falsy. *)
Definition truthy (x : num) : bool :=
  match x with
  | Fin q => negb (Qeq_bool q 0)
  | NaN => false
  | _ => true
  end.

(** Equality of values (rationals up to [==]). *)
Definition eqv (x y : num) : Prop :=
  match x, y with
  | Fin a, Fin b => a == b
  | PInf, PInf | NInf, NInf | NaN, NaN => True
  | _, _ => False
  end.

(** A finite, strictly positive value. *)
Definition fin_pos (x : num) : Prop := exists q, x = Fin q /\ 0 < q.

End JS.

Import JS.

Declare Scope num_scope.
Delimit Scope num_scope with num.
Bind Scope num_scope with num.
Infix "+" := add : num_scope.
Infix "-" := sub : num_scope.
Infix "*" := mul : num_scope.
Infix "/" := div : num_scope.
Infix "<?" := lt (at level 70) : num_scope.
Infix "<=?" := le (at level 70) : num_scope.
Infix ">?" := gt (at level 70) : num_scope.
Infix ">=?" := ge (at level 70) : num_scope.
Infix "=n=" := eqv (at level 70).
Coercion Fin : Q >-> num.

(* ------------------------------------------------------------------------- *)
(** ** Data model *)

Record Note : Type := mkNote {
  column : Z;            (* column index, 0-based *)
  start : Q;             (* start time, ms *)
  end_ : option Q        (* end time, ms; absent for a tap *)
}.

Record TimingPoint : Type := mkTimingPoint {
  time : Q;
  bpm : Q;
  meter : Q
}.

Record Beatmap : Type := mkBeatmap {
  keys : Z;
  notes : list Note;
  timingPoints : list TimingPoint
}.

(** Thrown values.  [TypeError_undefined] is the run-time [TypeError] raised
    by reading [.time] of [timingPoints[0]] when the list is empty; the
    others are the [throw new Error(...)] sites, one constructor per site. *)
Inductive error : Type :=
| TypeError_undefined
| Error_stripNumMissing       (* Strip num must be specified ... *)
| Error_stripNumInvalid       (* Invalid strip.num: must be in (0, 50] *)
| Error_stripTimeMissing      (* Strip time must be specified ... *)
| Error_stripTimeInvalid      (* Invalid strip.time: must be a positive number *)
| Error_stripNumZero          (* Computed strip number is zero; ... *)
| Error_stripRatioMissing     (* Strip ratio must be specified ... *)
| Error_stripRatioInvalid     (* Invalid strip.ratio: must be a positive number *)
| Error_stripRatioTooLarge    (* strip.ratio is too large; maximum allowed is 20 *)
| Error_unsupportedStripMode (mode : string)
| Error_targetSize            (* layout.targetSize dimensions must be within [32, 20000] *)
| Error_unsupportedKeys (k : Z)
| Error_invalidColumn (c k : Z).

Inductive result (A : Type) : Type :=
| Ok (a : A)
| Throw (e : error).
Arguments Ok {A} a.
Arguments Throw {A} e.

Definition bind {A B : Type} (c : result A) (k : A -> result B) : result B :=
  match c with
  | Ok a => k a
  | Throw e => Throw e
  end.

Notation "x <- c ;; k" := (bind c (fun x => k))
  (at level 61, c at next level, right associativity).
Notation "' p <- c ;; k" := (bind c (fun p => k))
  (at level 61, p pattern, c at next level, right associativity).

(** [l[i]] for a JavaScript array: [undefined] outside the array. *)
Definition index {A : Type} (l : list A) (i : Z) : option A :=
  if (i <? 0)%Z then None else nth_error l (Z.to_nat i).

(* ------------------------------------------------------------------------- *)
(** ** Colour policy *)

Definition presetColorSchemes : list string :=
  ["#FFFFFF"; "#5EAEFF"; "#FFEC5E"; "#FF3F00"]%string.

Definition presetKeyLayouts : list (Z * list Z) :=
  [ (1, [0]);
    (2, [0; 0]);
    (3, [0; 1; 0]);
    (4, [0; 1; 1; 0]);
    (5, [0; 1; 2; 1; 0]);
    (6, [0; 1; 0; 0; 1; 0]);
    (7, [0; 1; 0; 2; 0; 1; 0]);
    (8, [0; 1; 0; 2; 2; 0; 1; 0]);
    (9, [3; 0; 1; 0; 2; 0; 1; 0; 3]);
    (10, [3; 0; 1; 0; 2; 2; 0; 1; 0; 3]);
    (12, [3; 1; 0; 1; 0; 2; 2; 0; 1; 0; 1; 3]);
    (14, [3; 0; 1; 0; 1; 0; 2; 2; 0; 1; 0; 1; 0; 3]);
    (16, [3; 1; 0; 1; 0; 1; 0; 2; 2; 0; 1; 0; 1; 0; 1; 3]);
    (18, [3; 0; 1; 0; 1; 0; 1; 0; 2; 2; 0; 1; 0; 1; 0; 1; 0; 3]) ]%Z.

(** [layouts[keys]] on the layout table (an object keyed by key count). *)
Fixpoint lookup (layouts : list (Z * list Z)) (k : Z) : option (list Z) :=
  match layouts with
  | [] => None
  | (k', layout) :: rest => if (k' =? k)%Z then Some layout else lookup rest k
  end.

(** The selector's result is [colors[colorKey]], which is [undefined] ([None])
    when the palette is shorter than the role index. *)
Definition createNoteColorSelector (colors : list string)
    (layouts : list (Z * list Z)) (keys : Z) (object : Note)
    : result (option string) :=
  match lookup layouts keys with
  | None => Throw (Error_unsupportedKeys keys)
  | Some layout =>
      match index layout (column object) with
      | None => Throw (Error_invalidColumn (column object) keys)
      | Some colorKey => Ok (index colors colorKey)
      end
  end.

(* ------------------------------------------------------------------------- *)
(** ** Options *)

Inductive AutoOr : Type := Auto | Explicit (v : Q).
Inductive Direction : Type := Up | Down.
Inductive StripMode : Type :=
| ModeNum
| ModeTime
| ModeRatio
| ModeOther (s : string).   (* any other string, rejected by the resolver *)

Record BackgroundOptions : Type := {
  bg_enabled : bool;
  bg_color : string
}.

Record NoteOptions : Type := {
  note_width : Q;
  note_height : Q;
  note_rx : Q;
  note_bodyWidth : Q;
  note_bodyColor : option string;
  note_colorSelector : Z -> Note -> result (option string)
}.

Record TimeOptions : Type := {
  time_start : AutoOr;
  time_end : AutoOr;
  time_scale : Q;
  time_direction : Direction
}.

Record BarlineOptions : Type := {
  barline_strokeWidth : Q;
  barline_color : string
}.

Record AxisStyle : Type := {
  style_color : string;
  style_strokeWidth : Q;
  style_fontSize : Q
}.

Record AxisOptions : Type := {
  axis_width : Q;
  axis_minute : AxisStyle;
  axis_second : AxisStyle
}.

Record StripOptions : Type := {
  strip_mode : StripMode;
  strip_num : option Q;
  strip_time : option Q;
  strip_ratio : option Q
}.

Record LayoutOptions : Type := {
  layout_margin : Q * Q;
  layout_finalScale : Q;
  layout_targetSize : option (Q * Q)
}.

Record Options : Type := {
  background : BackgroundOptions;
  note : NoteOptions;
  time_ : TimeOptions;
  barline : BarlineOptions;
  axis : AxisOptions;
  strip : StripOptions;
  layout : LayoutOptions
}.

Definition defaultOptions : Options := {|
  background := {| bg_enabled := true; bg_color := "#000000" |};
  note := {| note_width := 20; note_height := 6; note_rx := 2;
             note_bodyWidth := 10; note_bodyColor := Some "#CCCCCC"%string;
             note_colorSelector :=
               createNoteColorSelector presetColorSchemes presetKeyLayouts |};
  time_ := {| time_start := Auto; time_end := Auto; time_scale := 1 # 10;
              time_direction := Up |};
  barline := {| barline_strokeWidth := 1; barline_color := "#85F000" |};
  axis := {| axis_width := 30;
             axis_minute := {| style_color := "#FF3F00"; style_strokeWidth := 2;
                               style_fontSize := 18 |};
             axis_second := {| style_color := "#FFFFFF"; style_strokeWidth := 1;
                               style_fontSize := 18 |} |};
  strip := {| strip_mode := ModeNum; strip_num := Some 8;
              strip_time := Some 30000; strip_ratio := Some (3 # 2) |};
  layout := {| layout_margin := (10, 10); layout_finalScale := 1;
               layout_targetSize := None |}
|}.

(* ------------------------------------------------------------------------- *)
(** ** Time-window and strip resolver *)

Local Open Scope num_scope.

Definition MAX_STRIP_NUM : Z := 50.
Definition MIN_TARGET_DIM : Q := 32.
Definition MAX_TARGET_DIM : Q := 20000.
Definition MAX_RATIO : Q := 20.

(** The six values [computeLayout] returns. *)
Record Layout : Type := mkLayout {
  stripWidth : num;
  stripHeight : num;
  contentWidth : num;
  contentHeight : num;
  totalWidth : num;
  totalHeight : num
}.

(** The resolved context: the beatmap and the options it was built from,
    with the [time] and [strip] groups replaced by their resolved values. *)
Record Context : Type := mkContext {
  ctx_beatmap : Beatmap;
  ctx_options : Options;
  ctx_start : num;           (* time.start *)
  ctx_end : num;             (* time.end *)
  ctx_stripNum : num;        (* strip.num *)
  ctx_stripWidth : num;      (* strip.width *)
  ctx_stripHeight : num;     (* strip.height *)
  ctx_margin : num * num;
  ctx_totalWidth : num;
  ctx_totalHeight : num;
  ctx_finalScale : num
}.

(** [note.end ?? note.start] *)
Definition noteEnd (n : Note) : Q :=
  match end_ n with
  | Some e => e
  | None => start n
  end.

(** [let start = ...]: with ['auto'] the first timing point is read, and
    reading [.time] of [undefined] throws. *)
Definition resolveStart (beatmap : Beatmap) (options : Options) : result num :=
  match time_start (time_ options) with
  | Auto =>
      match timingPoints beatmap with
      | [] => Throw TypeError_undefined
      | tp :: _ => Ok (max (Fin 0) (Fin (time tp)))
      end
  | Explicit s => Ok (Fin s)
  end.

(** [let end = ...] before the padding is added. *)
Definition baseEnd (beatmap : Beatmap) (options : Options) (start : num) : num :=
  match time_end (time_ options) with
  | Auto =>
      fold_left (fun mx n => max mx (Fin (noteEnd n))) (notes beatmap) start
  | Explicit e => Fin e
  end.

(** [note.height / time.scale], the term of [end += ...]. *)
Definition padding (options : Options) : num :=
  Fin (note_height (note options)) / Fin (time_scale (time_ options)).

Definition resolveEnd (beatmap : Beatmap) (options : Options) (start : num) : num :=
  baseEnd beatmap options start + padding options.

Definition computeLayout (beatmap : Beatmap) (options : Options)
    (start end_ : num) (stripNum : num) : Layout :=
  let stripWidth :=
    Fin (inject_Z (keys beatmap)) * Fin (note_width (note options))
    + Fin (axis_width (axis options)) in
  let stripHeight :=
    (end_ - start) * Fin (time_scale (time_ options)) / stripNum in
  let contentWidth := stripNum * stripWidth in
  let contentHeight := stripHeight in
  let totalWidth := Fin (fst (layout_margin (layout options))) * Fin 2 + contentWidth in
  let totalHeight := Fin (snd (layout_margin (layout options))) * Fin 2 + contentHeight in
  mkLayout stripWidth stripHeight contentWidth contentHeight totalWidth totalHeight.

(** Iterations the [while (stripNum <= MAX_STRIP_NUM)] loop has left. *)
Definition remaining (stripNum : Z) : nat :=
  Z.to_nat (MAX_STRIP_NUM + 1 - stripNum).
Arguments remaining : simpl never.

(** The [while (stripNum <= MAX_STRIP_NUM)] search of the ['ratio'] mode;
    [layoutOf] is [computeLayout] at the resolved window.  The value is
    [stripNum] when the loop is left, by [break] or by its condition. *)
Equations? ratioLoop (layoutOf : num -> Layout) (ratio : Q)
    (stripNum : Z) (lastRatio : num) : Z
    by wf (remaining stripNum) Nat.lt :=
ratioLoop layoutOf ratio stripNum lastRatio
    with Z_le_gt_dec stripNum MAX_STRIP_NUM := {
  | right _ => stripNum
  | left _ =>
      let currentRatio :=
        totalWidth (layoutOf (Fin (inject_Z stripNum)))
        / totalHeight (layoutOf (Fin (inject_Z stripNum))) in
      if currentRatio >=? Fin ratio then
        if Fin ratio - lastRatio <? currentRatio - Fin ratio
        then (stripNum - 1)%Z
        else stripNum
      else ratioLoop layoutOf ratio (stripNum + 1)%Z currentRatio }.
Proof.
  unfold remaining, MAX_STRIP_NUM in *. lia.
Qed.

(** The strip-mode branch: the strip count and the (possibly re-assigned)
    window end. *)
Definition resolveStrip (beatmap : Beatmap) (options : Options)
    (start end_ : num) : result (num * num) :=
  match strip_mode (strip options) with
  | ModeNum =>
      match strip_num (strip options) with
      | None => Throw Error_stripNumMissing
      | Some n =>
          if (Fin n <=? Fin 0) || (Fin n >? Fin (inject_Z MAX_STRIP_NUM))
          then Throw Error_stripNumInvalid
          else Ok (Fin n, end_)
      end
  | ModeTime =>
      match strip_time (strip options) with
      | None => Throw Error_stripTimeMissing
      | Some d =>
          if Fin d <=? Fin 0 then Throw Error_stripTimeInvalid
          else
            let stripNum := ceil ((end_ - start) / Fin d) in
            let stripNum := min stripNum (Fin (inject_Z MAX_STRIP_NUM)) in
            if stripNum <=? Fin 0 then Throw Error_stripNumZero
            else Ok (stripNum, start + stripNum * Fin d)
      end
  | ModeRatio =>
      match strip_ratio (strip options) with
      | None => Throw Error_stripRatioMissing
      | Some r =>
          if Fin r <=? Fin 0 then Throw Error_stripRatioInvalid
          else if Fin r >? Fin MAX_RATIO then Throw Error_stripRatioTooLarge
          else
            Ok (Fin (inject_Z
                  (ratioLoop (computeLayout beatmap options start end_) r 1 (Fin 0))),
                end_)
      end
  | ModeOther s => Throw (Error_unsupportedStripMode s)
  end.

(** The [if (options.layout.targetSize)] block: final scale, margins and
    total size, from the layout at the chosen strip count. *)
Definition fitTarget (options : Options) (L : Layout)
    : result (num * (num * num) * num * num) :=
  let finalScale := Fin (layout_finalScale (layout options)) in
  let margin := (Fin (fst (layout_margin (layout options))),
                 Fin (snd (layout_margin (layout options)))) in
  match layout_targetSize (layout options) with
  | None => Ok (finalScale, margin, totalWidth L, totalHeight L)
  | Some (targetWidth, targetHeight) =>
      if (Fin targetWidth <? Fin MIN_TARGET_DIM)
         || (Fin targetWidth >? Fin MAX_TARGET_DIM)
         || (Fin targetHeight <? Fin MIN_TARGET_DIM)
         || (Fin targetHeight >? Fin MAX_TARGET_DIM)
      then Throw Error_targetSize
      else
        let scaleX := Fin targetWidth / totalWidth L in
        let scaleY := Fin targetHeight / totalHeight L in
        let finalScale := min (min finalScale scaleX) scaleY in
        let margin0 :=
          max (fst margin) ((Fin targetWidth / finalScale - contentWidth L) / Fin 2) in
        let margin1 :=
          max (snd margin) ((Fin targetHeight / finalScale - contentHeight L) / Fin 2) in
        Ok (finalScale, (margin0, margin1),
            margin0 * Fin 2 + contentWidth L,
            margin1 * Fin 2 + contentHeight L)
  end.

Definition resolveOptions (beatmap : Beatmap) (options : Options) : result Context :=
  start <- resolveStart beatmap options ;;
  let end_ := resolveEnd beatmap options start in
  ' (stripNum, end_) <- resolveStrip beatmap options start end_ ;;
  let L := computeLayout beatmap options start end_ stripNum in
  ' (finalScale, margin, totalWidth, totalHeight) <- fitTarget options L ;;
  Ok {| ctx_beatmap := beatmap;
        ctx_options := options;
        ctx_start := start;
        ctx_end := end_;
        ctx_stripNum := stripNum;
        ctx_stripWidth := stripWidth L;
        ctx_stripHeight := stripHeight L;
        ctx_margin := margin;
        ctx_totalWidth := totalWidth;
        ctx_totalHeight := totalHeight;
        ctx_finalScale := finalScale |}.

(* ------------------------------------------------------------------------- *)
(** ** Bar-line generator *)

(** [[...timingPoints].sort((a, b) => a.time - b.time)]: a stable sort on
    [time]; a point is inserted before the first point that is not earlier. *)
Fixpoint insertByTime (tp : TimingPoint) (l : list TimingPoint) : list TimingPoint :=
  match l with
  | [] => [tp]
  | x :: rest =>
      if Fin (time tp) <=? Fin (time x) then tp :: x :: rest
      else x :: insertByTime tp rest
  end.

Fixpoint sortByTime (l : list TimingPoint) : list TimingPoint :=
  match l with
  | [] => []
  | tp :: rest => insertByTime tp (sortByTime rest)
  end.

(** The inner [for (currentTime = tp.time; currentTime < nextTime &&
    currentTime <= end; currentTime += barDuration)] loop; the values it
    pushes, in order.  [None] when [fuel] iterations do not finish it. *)
Fixpoint barLoop (fuel : nat) (currentTime nextTime end_ start barDuration : num)
    : option (list num) :=
  match fuel with
  | O => None
  | S fuel' =>
      if (currentTime <? nextTime) && (currentTime <=? end_) then
        match barLoop fuel' (currentTime + barDuration) nextTime end_ start barDuration with
        | None => None
        | Some rest =>
            Some (if currentTime >=? start then currentTime :: rest else rest)
        end
      else Some []
  end.

(** The outer loop over the sorted points: point [i] runs up to the time of
    point [i + 1], the last one up to [end]. *)
Fixpoint barSegments (fuel : nat) (sorted : list TimingPoint) (start end_ : num)
    : option (list num) :=
  match sorted with
  | [] => Some []
  | tp :: rest =>
      let nextTime :=
        match rest with
        | next :: _ => Fin (time next)
        | [] => end_
        end in
      let beatDuration := Fin 60000 / Fin (bpm tp) in
      let barDuration := beatDuration * Fin (meter tp) in
      match barLoop fuel (Fin (time tp)) nextTime end_ start barDuration with
      | None => None
      | Some here =>
          match barSegments fuel rest start end_ with
          | None => None
          | Some later => Some (here ++ later)
          end
      end
  end.

Definition generateBarLinePositions (fuel : nat) (timingPoints : list TimingPoint)
    (start end_ : num) : option (list num) :=
  barSegments fuel (sortByTime timingPoints) start end_.

(* ------------------------------------------------------------------------- *)
(** ** Element emitters *)

(** The emitted markup, as elements with their attributes. *)
Inductive Shape : Type :=
| Rect (x y width height : num) (rx : option num) (fill : option string)
| Line (x1 y1 x2 y2 : num) (stroke : string) (strokeWidth : num).

(** The note's cap and, for a hold, its body.  The test [if (note.end)] is
    a truthiness test: it fails for a tap (no [end]) and for [end = 0]. *)
Definition createNote (ctx : Context) (n : Note) : result (list Shape) :=
  let o := note (ctx_options ctx) in
  let scale := Fin (time_scale (time_ (ctx_options ctx))) in
  let x := Fin (inject_Z (column n)) * Fin (note_width o) in
  let y := (Fin (start n) - ctx_start ctx) * scale in
  let noteY := y - Fin (note_height o) / Fin 2 in
  let width := Fin (note_width o) in
  color <- note_colorSelector o (keys (ctx_beatmap ctx)) n ;;
  let shapes :=
    [Rect x noteY width (Fin (note_height o)) (Some (Fin (note_rx o))) color] in
  match end_ n with
  | None => Ok shapes
  | Some e =>
      if truthy (Fin e) then
        let lnX := x + (width - Fin (note_bodyWidth o)) / Fin 2 in
        let lnY := y + Fin (note_height o) / Fin 2 in
        let lnWidth := Fin (note_bodyWidth o) in
        let lnHeight := (Fin e - Fin (start n)) * scale - Fin (note_height o) in
        let lnColor :=
          match note_bodyColor o with
          | Some c => Some c
          | None => color
          end in
        if lnHeight >? Fin 0
        then Ok (shapes ++ [Rect lnX lnY lnWidth lnHeight None lnColor])
        else Ok shapes
      else Ok shapes
  end.

Definition createBarLine (ctx : Context) (t : num) : list Shape :=
  let o := ctx_options ctx in
  let y := (t - ctx_start ctx) * Fin (time_scale (time_ o)) in
  let width := Fin (inject_Z (keys (ctx_beatmap ctx))) * Fin (note_width (note o)) in
  [Line (Fin 0) y width y (barline_color (barline o))
        (Fin (barline_strokeWidth (barline o)))].

(** [beatmap.notes.flatMap(note => createNote(ctx, note))]: the first throw
    ends the traversal. *)
Fixpoint flatMapNotes (ctx : Context) (l : list Note) : result (list Shape) :=
  match l with
  | [] => Ok []
  | n :: rest =>
      shapes <- createNote ctx n ;;
      more <- flatMapNotes ctx rest ;;
      Ok (shapes ++ more)
  end.

(** The part of the document [render] builds from the context, the notes
    and the bar lines: the canvas size and the two element groups.  (The
    axis labels, clip paths, strip instances and background are built after
    these and are not modelled.)  [options] are the merged options;
    [None] when a bar-line loop does not finish within [fuel]. *)
Record Document : Type := mkDocument {
  doc_width : num;
  doc_height : num;
  doc_notes : list Shape;
  doc_barLines : list Shape
}.

Definition render (fuel : nat) (beatmap : Beatmap) (options : Options)
    : option (result Document) :=
  match resolveOptions beatmap options with
  | Throw e => Some (Throw e)
  | Ok ctx =>
      match flatMapNotes ctx (notes beatmap) with
      | Throw e => Some (Throw e)
      | Ok noteShapes =>
          match generateBarLinePositions fuel (timingPoints beatmap)
                  (ctx_start ctx) (ctx_end ctx) with
          | None => None
          | Some times =>
              Some (Ok {| doc_width := ctx_totalWidth ctx * ctx_finalScale ctx;
                          doc_height := ctx_totalHeight ctx * ctx_finalScale ctx;
                          doc_notes := noteShapes;
                          doc_barLines := flat_map (createBarLine ctx) times |})
          end
      end
  end.

(* ------------------------------------------------------------------------- *)
(** ** Notions used in the statements *)

(** Canvas aspect ratio [totalWidth / totalHeight] at strip count [k], as the
    ratio search computes it from a layout function. *)
Definition ratioAt (layoutOf : num -> Layout) (k : Z) : num :=
  totalWidth (layoutOf (Fin (inject_Z k))) / totalHeight (layoutOf (Fin (inject_Z k))).

Definition canvasRatio (beatmap : Beatmap) (options : Options)
    (start end_ : num) (k : Z) : num :=
  ratioAt (computeLayout beatmap options start end_) k.

(** [layout.targetSize] is absent or within the accepted range. *)
Definition targetSizeValid (options : Options) : Prop :=
  match layout_targetSize (layout options) with
  | None => True
  | Some (w, h) =>
      (MIN_TARGET_DIM <= w <= MAX_TARGET_DIM)%Q
      /\ (MIN_TARGET_DIM <= h <= MAX_TARGET_DIM)%Q
  end.

(** Timing points with a positive tempo and a meter of at least one. *)
Definition validTimingPoint (tp : TimingPoint) : Prop :=
  (0 < bpm tp)%Q /\ (1 <= meter tp)%Q.

Definition timeLe (a b : TimingPoint) : Prop := (time a <= time b)%Q.

(** The residual body height [(end - start) * time.scale - note.height] of a
    hold. *)
Definition bodyHeight (options : Options) (n : Note) : num :=
  (Fin (noteEnd n) - Fin (start n)) * Fin (time_scale (time_ options))
  - Fin (note_height (note options)).

(** The Layout Context invariant of the data model: [end > start], a strip
    count within 1..50, finite and positive strip and canvas sizes. *)
Definition context_invariant (ctx : Context) : Prop :=
  (ctx_start ctx <? ctx_end ctx) = true
  /\ (Fin 1 <=? ctx_stripNum ctx) = true
  /\ (ctx_stripNum ctx <=? Fin (inject_Z MAX_STRIP_NUM)) = true
  /\ fin_pos (ctx_stripWidth ctx)
  /\ fin_pos (ctx_stripHeight ctx)
  /\ fin_pos (ctx_totalWidth ctx)
  /\ fin_pos (ctx_totalHeight ctx).

(** Option values under which the sizes make sense: positive strip width,
    note height, time scale; non-negative margins; non-zero final scale; an
    explicit end not before the resolved start; a whole [strip.num]. *)
Record saneOptions (beatmap : Beatmap) (options : Options) : Prop := {
  sane_width :
    (0 < inject_Z (keys beatmap) * note_width (note options)
         + axis_width (axis options))%Q;
  sane_height : (0 < note_height (note options))%Q;
  sane_scale : (0 < time_scale (time_ options))%Q;
  sane_margin0 : (0 <= fst (layout_margin (layout options)))%Q;
  sane_margin1 : (0 <= snd (layout_margin (layout options)))%Q;
  sane_finalScale : ~ (layout_finalScale (layout options) == 0)%Q;
  sane_window :
    forall s e, resolveStart beatmap options = Ok (Fin s) ->
                time_end (time_ options) = Explicit e -> (s <= e)%Q;
  sane_num :
    forall n, strip_num (strip options) = Some n ->
              exists z : Z, (n == inject_Z z)%Q
}.

(** Overrides of one option group, as an override object merged onto the
    options does. *)
Definition withTime (o : Options) (t : TimeOptions) : Options :=
  {| background := background o; note := note o; time_ := t;
     barline := barline o; axis := axis o; strip := strip o;
     layout := layout o |}.

Definition withStrip (o : Options) (s : StripOptions) : Options :=
  {| background := background o; note := note o; time_ := time_ o;
     barline := barline o; axis := axis o; strip := s;
     layout := layout o |}.

Definition withLayout (o : Options) (l : LayoutOptions) : Options :=
  {| background := background o; note := note o; time_ := time_ o;
     barline := barline o; axis := axis o; strip := strip o;
     layout := l |}.

(** The options of a second resolver call that passes a resolved window and
    strip count back explicitly: [time.start], [time.end] numeric, strip
    mode ['num']; every other option as before. *)
Definition reresolve (o : Options) (s e n : Q) : Options :=
  withStrip
    (withTime o
       {| time_start := Explicit s; time_end := Explicit e;
          time_scale := time_scale (time_ o);
          time_direction := time_direction (time_ o) |})
    {| strip_mode := ModeNum; strip_num := Some n;
       strip_time := strip_time (strip o);
       strip_ratio := strip_ratio (strip o) |}.

(* ------------------------------------------------------------------------- *)
(** ** Statements of the specification that the code does not satisfy

    Each is stated here in the specification's words, for one beatmap and
    option set, and refuted below at a sample input. *)

(** The tie-break of the ['ratio'] mode as the component design words it:
    when the count [n] found by the search and the previous count are
    equally far from the target, the smaller count is taken. *)
Definition ratio_tie_prefers_smaller (beatmap : Beatmap) (options : Options) : Prop :=
  forall (ctx : Context) (r : Q) (n : Z) (p c : Q),
    resolveOptions beatmap options = Ok ctx ->
    strip_mode (strip options) = ModeRatio ->
    strip_ratio (strip options) = Some r ->
    (2 <= n <= MAX_STRIP_NUM)%Z ->
    (forall k, (1 <= k < n)%Z ->
       (canvasRatio beatmap options (ctx_start ctx) (ctx_end ctx) k >=? Fin r) = false) ->
    canvasRatio beatmap options (ctx_start ctx) (ctx_end ctx) (n - 1) =n= Fin p ->
    canvasRatio beatmap options (ctx_start ctx) (ctx_end ctx) n =n= Fin c ->
    (r <= c)%Q ->
    (r - p == c - r)%Q ->
    ctx_stripNum ctx =n= Fin (inject_Z (n - 1)).

(** Every normal return satisfies the context invariant. *)
Definition resolver_keeps_invariant (beatmap : Beatmap) (options : Options) : Prop :=
  forall ctx : Context,
    resolveOptions beatmap options = Ok ctx -> context_invariant ctx.

(** The target-size fit, on the resolver's result for a target size
    [W x H] and non-negative configured margins. *)
Definition target_fit_holds (beatmap : Beatmap) (options : Options) : Prop :=
  forall (ctx : Context) (W H : Q),
    resolveOptions beatmap options = Ok ctx ->
    layout_targetSize (layout options) = Some (W, H) ->
    (0 <= fst (layout_margin (layout options)))%Q ->
    (0 <= snd (layout_margin (layout options)))%Q ->
    let L := computeLayout beatmap options (ctx_start ctx) (ctx_end ctx)
               (ctx_stripNum ctx) in
    ctx_finalScale ctx
    = min (min (Fin (layout_finalScale (layout options))) (Fin W / totalWidth L))
          (Fin H / totalHeight L)
    /\ (ctx_finalScale ctx <=? Fin (layout_finalScale (layout options))) = true
    /\ (Fin (fst (layout_margin (layout options))) <=? fst (ctx_margin ctx)) = true
    /\ (Fin (snd (layout_margin (layout options))) <=? snd (ctx_margin ctx)) = true
    /\ (ctx_totalWidth ctx * ctx_finalScale ctx <=? Fin W) = true
    /\ (ctx_totalHeight ctx * ctx_finalScale ctx <=? Fin H) = true.

(** Idempotence: a second call on the resolved window and strip count
    reproduces the window and the geometry of the first. *)
Definition resolve_idempotent (beatmap : Beatmap) (options : Options) : Prop :=
  forall (ctx ctx' : Context) (s e n : Q),
    resolveOptions beatmap options = Ok ctx ->
    ctx_start ctx = Fin s -> ctx_end ctx = Fin e -> ctx_stripNum ctx = Fin n ->
    resolveOptions beatmap (reresolve options s e n) = Ok ctx' ->
    ctx_start ctx' =n= ctx_start ctx
    /\ ctx_end ctx' =n= ctx_end ctx
    /\ ctx_stripWidth ctx' =n= ctx_stripWidth ctx
    /\ ctx_stripHeight ctx' =n= ctx_stripHeight ctx
    /\ ctx_totalWidth ctx' =n= ctx_totalWidth ctx
    /\ ctx_totalHeight ctx' =n= ctx_totalHeight ctx.

(** The base end as the specification words it: the explicit end, else the
    maximum over the notes of [end ?? start], the start standing in only
    when there are no notes. *)
Definition statedBaseEnd (beatmap : Beatmap) (options : Options) (start : num) : num :=
  match time_end (time_ options) with
  | Explicit e => Fin e
  | Auto =>
      match notes beatmap with
      | [] => start
      | n :: rest =>
          fold_left (fun mx n' => max mx (Fin (noteEnd n'))) rest (Fin (noteEnd n))
      end
  end.

(** Whatever the input, the resolved end is the stated base end plus the
    padding. *)
Definition end_is_padded_base (beatmap : Beatmap) (options : Options) : Prop :=
  forall ctx : Context,
    resolveOptions beatmap options = Ok ctx ->
    ctx_end ctx =n= statedBaseEnd beatmap options (ctx_start ctx) + padding options.

(* ------------------------------------------------------------------------- *)
(** ** Sample inputs *)

(** One column, no notes, no timing points. *)
Definition emptyBeatmap : Beatmap := mkBeatmap 1 [] [].

(** The scenario of the specification's round trip: four columns, a tap and
    a hold, one timing point at 60 bpm. *)
Definition sampleBeatmap : Beatmap :=
  mkBeatmap 4
    [mkNote 1 1000 None; mkNote 2 2000 (Some 3000)]
    [mkTimingPoint 0 60 4].

(** A ten-minute chart: four columns, one tap at 600 s. *)
Definition longBeatmap : Beatmap :=
  mkBeatmap 4 [mkNote 0 600000 None] [mkTimingPoint 0 120 4].

(** A hold released at time 0 that starts one second earlier, in a
    four-column chart. *)
Definition earlyHold : Note := mkNote 0 (-1000) (Some 0).

Definition earlyBeatmap : Beatmap :=
  mkBeatmap 4 [earlyHold] [mkTimingPoint 0 120 4].

(** A 50 x 50 px chart on [emptyBeatmap] (window 0..44 ms plus 6 ms padding
    at 1 px/ms, one column of 20 px plus the 30 px axis, no margin): the
    canvas ratio is 1 with one strip and 4 with two. *)
Definition squareOptions (mode : StripMode) (r : Q) : Options :=
  withLayout
    (withStrip
       (withTime defaultOptions
          {| time_start := Explicit 0; time_end := Explicit 44;
             time_scale := 1; time_direction := Up |})
       {| strip_mode := mode; strip_num := Some 8; strip_time := Some 30000;
          strip_ratio := Some r |})
    {| layout_margin := (0, 0); layout_finalScale := 1;
       layout_targetSize := None |}.

(** The 50 x 50 chart in one strip, to be fitted into 100 x 100 at a
    configured final scale. *)
Definition fitOptions (finalScale : Q) : Options :=
  withLayout
    (withStrip (squareOptions ModeNum 1)
       {| strip_mode := ModeNum; strip_num := Some 1; strip_time := Some 30000;
          strip_ratio := Some 1 |})
    {| layout_margin := (0, 0); layout_finalScale := finalScale;
       layout_targetSize := Some (100, 100) |}.

(** The default options in ['time'] mode with strips of one second. *)
Definition secondStrips : Options :=
  withStrip defaultOptions
    {| strip_mode := ModeTime; strip_num := Some 8; strip_time := Some 1000;
       strip_ratio := Some (3 # 2) |}.

(** The default options in ['ratio'] mode with a target ratio. *)
Definition ratioOptions (r : Q) : Options :=
  withStrip defaultOptions
    {| strip_mode := ModeRatio; strip_num := Some 8; strip_time := Some 30000;
       strip_ratio := Some r |}.

(** An explicit window given backwards: start 1000, end 0. *)
Definition backwardsWindow : Options :=
  withTime defaultOptions
    {| time_start := Explicit 1000; time_end := Explicit 0;
       time_scale := 1 # 10; time_direction := Up |}.

(** The default options with an explicit start after every note. *)
Definition lateStart : Options :=
  withTime defaultOptions
    {| time_start := Explicit 5000; time_end := Auto;
       time_scale := 1 # 10; time_direction := Up |}.

(* ------------------------------------------------------------------------- *)
(** ** Further sample inputs *)

(** The 50 x 50 chart with a target size whose width, 31, is below the
    accepted range. *)
Definition narrowTarget : Options :=
  withLayout (fitOptions 1)
    {| layout_margin := (0, 0); layout_finalScale := 1;
       layout_targetSize := Some (31, 100) |}.

(* ------------------------------------------------------------------------- *)
(** ** Further notions used in the statements *)

(** The chart's pixel height [(end - start) * time.scale] and strip width
    [keys * note.width + axis.width] as rationals. *)
Definition windowHeight (options : Options) (s e : Q) : Q :=
  ((e - s) * time_scale (time_ options))%Q.

Definition stripWidthQ (beatmap : Beatmap) (options : Options) : Q :=
  (inject_Z (keys beatmap) * note_width (note options)
   + axis_width (axis options))%Q.

(** The canvas aspect ratio at [k] strips, as a rational. *)
Definition canvasRatioQ (beatmap : Beatmap) (options : Options) (s e : Q) (k : Z) : Q :=
  ((fst (layout_margin (layout options)) * 2
    + inject_Z k * stripWidthQ beatmap options)
   / (snd (layout_margin (layout options)) * 2
      + windowHeight options s e / inject_Z k))%Q.

(** The upper edge [y + height] of a rectangle (the later edge in time). *)
Definition shapeTop (sh : Shape) : num :=
  match sh with
  | Rect _ y _ height _ _ => y + height
  | Line _ y1 _ _ _ _ => y1
  end.

(** A note whose end, when present, is not before its start. *)
Definition noteForward (n : Note) : Prop := (start n <= noteEnd n)%Q.

(** Timing points that are pairwise different and have pairwise different
    times. *)
Definition distinctTimes (l : list TimingPoint) : Prop :=
  NoDup l
  /\ forall a b, In a l -> In b l -> (time a == time b)%Q -> a = b.

Definition timeLt (a b : TimingPoint) : Prop := (time a < time b)%Q.

(** The timing points at a given time, in list order. *)
Definition atTime (t : Q) (l : list TimingPoint) : list TimingPoint :=
  filter (fun tp => Qeq_bool (time tp) t) l.


(** The default colour selector, [createNoteColorSelector()], and the key
    counts its layout table has an entry for. *)
Definition defaultColorSelector : Z -> Note -> result (option string) :=
  createNoteColorSelector presetColorSchemes presetKeyLayouts.

Definition supportedKeys : list Z := map fst presetKeyLayouts.

(* ------------------------------------------------------------------------- *)
(** ** Option merging: [deepMerge]

    [deepMerge] works on any object, so it is modelled on untyped values.
    An object is the list of its own enumerable properties (string key and
    value), in property order; reading a key that is absent gives
    [undefined].  Prototype properties and accessor keys such as
    [__proto__] are not modelled. *)

#[warnings="-register-all"] Inductive value : Type :=
| VUndefined
| VNull
| VBool (b : bool)
| VNum (x : num)
| VStr (s : string)
| VFun (name : string)                  (* a function, [typeof] is 'function' *)
| VArr (items : list value)
| VObj (fields : list (string * value)).

(** [o[key]] *)
Fixpoint getProp (o : list (string * value)) (key : string) : value :=
  match o with
  | [] => VUndefined
  | (k, v) :: rest => if String.eqb k key then v else getProp rest key
  end.

(** [o[key] = v]: an existing property keeps its place, a new one is added
    at the end. *)
Fixpoint setProp (o : list (string * value)) (key : string) (v : value)
    : list (string * value) :=
  match o with
  | [] => [(key, v)]
  | (k, x) :: rest =>
      if String.eqb k key then (k, v) :: rest else (k, x) :: setProp rest key v
  end.

(** [deepMerge(target, source)], by recursion on the source value.  The
    result starts as a copy of [target]; for every key of [source] whose
    value is not [undefined], the value replaces the target's, except that
    two plain objects (not [null], not arrays) are merged recursively. *)
Fixpoint deepMergeInto (target : list (string * value)) (source : value)
    {struct source} : list (string * value) :=
  match source with
  | VObj fields =>
      (fix loop (fields result : list (string * value)) {struct fields}
         : list (string * value) :=
         match fields with
         | [] => result
         | (key, sourceValue) :: rest =>
             loop rest
               match sourceValue with
               | VUndefined => result
               | VObj _ =>
                   match getProp target key with
                   | VObj targetFields =>
                       setProp result key
                         (VObj (deepMergeInto targetFields sourceValue))
                   | _ => setProp result key sourceValue
                   end
               | _ => setProp result key sourceValue
               end
         end) fields target
  | _ => target
  end.

Definition deepMerge (target source : list (string * value))
    : list (string * value) :=
  deepMergeInto target (VObj source).

(** The value one key gets: what [result[key] = ...] assigns for a source
    value that is not [undefined]. *)
Definition mergedValue (targetValue sourceValue : value) : value :=
  match sourceValue, targetValue with
  | VObj sourceFields, VObj targetFields =>
      VObj (deepMerge targetFields sourceFields)
  | _, _ => sourceValue
  end.

(** One turn of the loop over the source's properties. *)
Definition mergeStep (target result : list (string * value))
    (property : string * value) : list (string * value) :=
  match snd property with
  | VUndefined => result
  | sourceValue =>
      setProp result (fst property)
        (mergedValue (getProp target (fst property)) sourceValue)
  end.

(** Is the key an own property? *)
Definition hasProp (o : list (string * value)) (key : string) : bool :=
  existsb (fun kv => String.eqb (fst kv) key) o.

(** The value at a path of keys, [undefined] where the path leaves the
    objects. *)
Fixpoint getPath (v : value) (path : list string) : value :=
  match path with
  | [] => v
  | key :: rest =>
      match v with
      | VObj fields => getPath (getProp fields key) rest
      | _ => VUndefined
      end
  end.

(** Objects whose keys are pairwise different, at every depth below object
    properties. *)
Fixpoint uniqueKeys (v : value) : Prop :=
  match v with
  | VObj fields =>
      NoDup (map fst fields)
      /\ (fix all (l : list (string * value)) : Prop :=
            match l with
            | [] => True
            | (_, x) :: rest => uniqueKeys x /\ all rest
            end) fields
  | _ => True
  end.

(** A value that is neither [undefined] nor a plain object. *)
Definition isLeaf (v : value) : Prop :=
  match v with
  | VUndefined | VObj _ => False
  | _ => True
  end.

(** The source says nothing at this path: following the path through the
    source's objects ends on a key that is absent or [undefined]. *)
Fixpoint untouched (source : value) (path : list string) : Prop :=
  match path with
  | [] => False
  | key :: rest =>
      match source with
      | VObj fields =>
          match getProp fields key with
          | VUndefined => True
          | VObj _ as inner => untouched inner rest
          | _ => False
          end
      | _ => False
      end
  end.

(** Sample option objects. *)
Definition sampleDefaults : list (string * value) :=
  [("scale"%string, VNum (Fin 1));
   ("margin"%string, VArr [VNum (Fin 10)]);
   ("note"%string,
    VObj [("width"%string, VNum (Fin 20)); ("height"%string, VNum (Fin 5))])].

Definition sampleOverrides : list (string * value) :=
  [("start"%string, VUndefined);
   ("margin"%string, VArr [VNum (Fin 0); VNum (Fin 0)]);
   ("note"%string, VObj [("width"%string, VNum (Fin 30))])].

(* ------------------------------------------------------------------------- *)
(** ** Axis labels, clip paths and strip instances *)

Local Open Scope num_scope.

(** [Math.floor], the remainder [%] (its sign is the dividend's) and
    [===] on numbers. *)
Definition floor (x : num) : num :=
  match x with
  | Fin q => Fin (inject_Z (Qfloor q))
  | _ => x
  end.

Definition truncate (q : Q) : Z :=
  if Qle_bool 0 q then Qfloor q else Qceiling q.

Definition rem (x y : num) : num :=
  match x, y with
  | Fin a, Fin b =>
      if Qeq_bool b 0 then NaN else Fin (a - b * inject_Z (truncate (a / b)))
  | Fin a, (PInf | NInf) => Fin a
  | _, _ => NaN
  end.

Definition strictEq (x y : num) : bool :=
  match cmp x y with Some Eq => true | _ => false end.

(** The length [Array.from] reads off [{ length: n }]: [n] truncated to an
    integer, 0 for [NaN] and below 0, at most 2^53 - 1. *)
Definition toLength (n : num) : Z :=
  match n with
  | Fin q => Z.min (Z.max (truncate q) 0) (2 ^ 53 - 1)
  | PInf => 2 ^ 53 - 1
  | NInf | NaN => 0
  end.

Definition MAX_ARRAY_LENGTH : Z := 2 ^ 32 - 1.

(** [times(n)]: the indices [0 .. length - 1]; [None] is the [RangeError]
    of an array longer than 2^32 - 1. *)
Definition times (n : num) : option (list Z) :=
  let len := toLength n in
  if (len >? MAX_ARRAY_LENGTH)%Z then None
  else Some (map Z.of_nat (seq 0 (Z.to_nat len))).

(** The markup of the axis, the clip paths and the strip instances: a line
    or rectangle, a text with its label (the number interpolated into it),
    a clip path around one rectangle, and a [use] of the chart. *)
Inductive Element : Type :=
| Drawn (shape : Shape)
| Text (x y : num) (fill : string) (fontSize : num) (transform : string)
       (label : num)
| ClipPath (stripIndex : Z) (window : Shape)
| Use (offsetX offsetY : num) (clipIndex : Z).

Definition createAxisLabel (ctx : Context) (t : num) : list Element :=
  let o := ctx_options ctx in
  let x := Fin (inject_Z (keys (ctx_beatmap ctx))) * Fin (note_width (note o)) in
  let y := (t - ctx_start ctx) * Fin (time_scale (time_ o)) in
  let minutes := floor (t / Fin 60000) in
  let seconds := floor (rem t (Fin 60000) / Fin 1000) in
  let style :=
    if strictEq seconds (Fin 0) then axis_minute (axis o) else axis_second (axis o) in
  let label := if strictEq seconds (Fin 0) then minutes else seconds in
  let textY :=
    match time_direction (time_ o) with Up => neg y | Down => y end in
  let textTransform :=
    match time_direction (time_ o) with
    | Up => "scale(1, -1)"%string
    | Down => EmptyString
    end in
  [Drawn (Line x y (x + Fin (axis_width (axis o)) / Fin 5) y
               (style_color style) (Fin (style_strokeWidth style)));
   Text (x + Fin (axis_width (axis o)) / Fin 2) textY (style_color style)
        (Fin (style_fontSize style)) textTransform label].

(** The three strings of [createClipPath] (opening tag, rectangle, closing
    tag) are one [ClipPath] element. *)
Definition createClipPath (ctx : Context) (stripIndex : Z) : list Element :=
  let y := Fin (inject_Z stripIndex) * ctx_stripHeight ctx in
  [ClipPath stripIndex
     (Rect (Fin 0) y (ctx_stripWidth ctx) (ctx_stripHeight ctx) None None)].

Definition createStrip (ctx : Context) (i : Z) : list Element :=
  let offsetX := Fin (inject_Z i) * ctx_stripWidth ctx in
  let offsetY := neg (Fin (inject_Z i)) * ctx_stripHeight ctx in
  [Use offsetX offsetY i].

(** The three index traversals of [render]: the whole seconds that get an
    axis label, their labels, the clip paths and the strip instances. *)
Definition axisSeconds (ctx : Context) : option (list Z) :=
  option_map
    (filter (fun i => Fin (inject_Z i) * Fin 1000 >=? ctx_start ctx))
    (times (floor (ctx_end ctx / Fin 1000))).

Definition axisLabels (ctx : Context) : option (list Element) :=
  option_map
    (flat_map (fun i => createAxisLabel ctx (Fin (inject_Z i) * Fin 1000)))
    (axisSeconds ctx).

Definition clipPaths (ctx : Context) : option (list Element) :=
  option_map (flat_map (createClipPath ctx)) (times (ctx_stripNum ctx)).

Definition strips (ctx : Context) : option (list Element) :=
  option_map (flat_map (createStrip ctx)) (times (ctx_stripNum ctx)).

(** The chart's pixel height [(end - start) * time.scale] of a context. *)
Definition chartHeight (ctx : Context) : num :=
  (ctx_end ctx - ctx_start ctx) * Fin (time_scale (time_ (ctx_options ctx))).

(** The options with a [strip.num] count in the ['num'] mode. *)
Definition numStrips (n : Q) : Options :=
  withStrip defaultOptions
    {| strip_mode := ModeNum; strip_num := Some n;
       strip_time := None; strip_ratio := None |}.

(* ------------------------------------------------------------------------- *)
(** ** Facts about numbers *)

Section NumFacts.

Implicit Types a b : Q.

Lemma lt_fin a b : (Fin a <? Fin b) = true <-> (a < b)%Q.
Proof.
  unfold lt, cmp. rewrite Qlt_alt.
  destruct (a ?= b); split; intro H; try reflexivity; discriminate.
Qed.

Lemma le_fin a b : (Fin a <=? Fin b) = true <-> (a <= b)%Q.
Proof.
  unfold le, cmp. rewrite Qle_alt.
  destruct (a ?= b); split; intro H; try reflexivity; try discriminate.
  now elim H.
Qed.

Lemma gt_fin a b : (Fin a >? Fin b) = true <-> (b < a)%Q.
Proof.
  unfold gt, cmp. rewrite Qgt_alt.
  destruct (a ?= b); split; intro H; try reflexivity; discriminate.
Qed.

Lemma ge_fin a b : (Fin a >=? Fin b) = true <-> (b <= a)%Q.
Proof.
  unfold ge, cmp. rewrite Qge_alt.
  destruct (a ?= b); split; intro H; try reflexivity; try discriminate.
  now elim H.
Qed.

Lemma lt_fin_false a b : (Fin a <? Fin b) = false <-> (b <= a)%Q.
Proof.
  rewrite <- not_true_iff_false, lt_fin. split; intro H.
  - now apply Qnot_lt_le.
  - now apply Qle_not_lt.
Qed.

Lemma le_fin_false a b : (Fin a <=? Fin b) = false <-> (b < a)%Q.
Proof.
  rewrite <- not_true_iff_false, le_fin. split; intro H.
  - now apply Qnot_le_lt.
  - now apply Qlt_not_le.
Qed.

Lemma gt_fin_false a b : (Fin a >? Fin b) = false <-> (a <= b)%Q.
Proof.
  rewrite <- not_true_iff_false, gt_fin. split; intro H.
  - now apply Qnot_lt_le.
  - now apply Qle_not_lt.
Qed.

Lemma ge_fin_false a b : (Fin a >=? Fin b) = false <-> (a < b)%Q.
Proof.
  rewrite <- not_true_iff_false, ge_fin. split; intro H.
  - now apply Qnot_le_lt.
  - now apply Qlt_not_le.
Qed.

Lemma div_fin a b : ~ (b == 0)%Q -> Fin a / Fin b = Fin (a / b)%Q.
Proof.
  intro Hb. unfold div.
  destruct (Qeq_bool b 0) eqn:E; [| reflexivity].
  apply Qeq_bool_iff in E. contradiction.
Qed.

(** [Math.max] and [Math.min] of finite values are one of the arguments. *)
Lemma max_fin a b :
  exists q, max (Fin a) (Fin b) = Fin q
            /\ (a <= q)%Q /\ (b <= q)%Q /\ (q == a \/ q == b)%Q.
Proof.
  unfold max, cmp. destruct (a ?= b) eqn:E.
  - apply Qeq_alt in E. exists a. repeat split; lra.
  - apply Qlt_alt in E. exists b. repeat split; lra.
  - apply Qgt_alt in E. exists a. repeat split; lra.
Qed.

Lemma min_fin a b :
  exists q, min (Fin a) (Fin b) = Fin q
            /\ (q <= a)%Q /\ (q <= b)%Q /\ (q == a \/ q == b)%Q.
Proof.
  unfold min, cmp. destruct (a ?= b) eqn:E.
  - apply Qeq_alt in E. exists a. repeat split; lra.
  - apply Qlt_alt in E. exists a. repeat split; lra.
  - apply Qgt_alt in E. exists b. repeat split; lra.
Qed.

End NumFacts.

(* ------------------------------------------------------------------------- *)
(** ** The ratio search *)

Section RatioSearch.

Variable layoutOf : num -> Layout.
Variable r : Q.

Local Abbreviation ratioAt := (ratioAt layoutOf).

Lemma ratioLoop_exit (s : Z) (last : num) :
  (MAX_STRIP_NUM < s)%Z -> ratioLoop layoutOf r s last = s.
Proof.
  intro H. rewrite ratioLoop_equation_1.
  destruct (Z_le_gt_dec s MAX_STRIP_NUM) as [Hle | Hgt]; [lia |].
  now rewrite ratioLoop_clause_1_equation_2.
Qed.

Lemma ratioLoop_break (s : Z) (last : num) :
  (s <= MAX_STRIP_NUM)%Z -> (ratioAt s >=? Fin r) = true ->
  ratioLoop layoutOf r s last =
  if Fin r - last <? ratioAt s - Fin r then (s - 1)%Z else s.
Proof.
  intros H Hge. rewrite ratioLoop_equation_1.
  destruct (Z_le_gt_dec s MAX_STRIP_NUM) as [Hle | Hgt]; [| lia].
  rewrite ratioLoop_clause_1_equation_1. cbv zeta.
  fold (ratioAt s). now rewrite Hge.
Qed.

Lemma ratioLoop_continue (s : Z) (last : num) :
  (s <= MAX_STRIP_NUM)%Z -> (ratioAt s >=? Fin r) = false ->
  ratioLoop layoutOf r s last = ratioLoop layoutOf r (s + 1) (ratioAt s).
Proof.
  intros H Hge. rewrite ratioLoop_equation_1.
  destruct (Z_le_gt_dec s MAX_STRIP_NUM) as [Hle | Hgt]; [| lia].
  rewrite ratioLoop_clause_1_equation_1. cbv zeta.
  fold (ratioAt s). now rewrite Hge.
Qed.

(** Started below the first count [n] that reaches [r], the loop runs up to
    [n] and compares [n] with the ratio of [n - 1]. *)
Lemma ratioLoop_found (d : nat) :
  forall (s n : Z) (last : num),
    (n - s = Z.of_nat d)%Z -> (n <= MAX_STRIP_NUM)%Z ->
    (forall k, (s <= k < n)%Z -> (ratioAt k >=? Fin r) = false) ->
    (ratioAt n >=? Fin r) = true ->
    ratioLoop layoutOf r s last =
    if Fin r - (if (s =? n)%Z then last else ratioAt (n - 1)) <? ratioAt n - Fin r
    then (n - 1)%Z else n.
Proof.
  induction d as [| d IH]; intros s n last Hd Hmax Hlow Hn.
  - assert (s = n) by lia. subst s. rewrite Z.eqb_refl.
    now apply ratioLoop_break.
  - assert (Hsn : (s < n)%Z) by lia.
    rewrite ratioLoop_continue by (try apply Hlow; lia).
    rewrite (IH (s + 1)%Z n) by (try lia; try assumption; intros; apply Hlow; lia).
    replace (s =? n)%Z with false by (symmetry; apply Z.eqb_neq; lia).
    destruct (s + 1 =? n)%Z eqn:E; [| reflexivity].
    apply Z.eqb_eq in E. replace (n - 1)%Z with s by lia. reflexivity.
Qed.

(** When no count up to the cap reaches [r], the loop leaves by its
    condition with the counter one past the cap. *)
Lemma ratioLoop_exhausted (d : nat) :
  forall (s : Z) (last : num),
    (MAX_STRIP_NUM + 1 - s = Z.of_nat d)%Z ->
    (forall k, (s <= k <= MAX_STRIP_NUM)%Z -> (ratioAt k >=? Fin r) = false) ->
    ratioLoop layoutOf r s last = (MAX_STRIP_NUM + 1)%Z.
Proof.
  induction d as [| d IH]; intros s last Hd Hlow.
  - rewrite ratioLoop_exit by lia. lia.
  - rewrite ratioLoop_continue by (try apply Hlow; lia).
    apply IH; [lia |]. intros; apply Hlow; lia.
Qed.

(** The counter the loop is left with always lies in [s - 1 .. 51]. *)
Lemma ratioLoop_range (d : nat) :
  forall (s : Z) (last : num),
    (MAX_STRIP_NUM + 1 - s = Z.of_nat d)%Z ->
    (s - 1 <= ratioLoop layoutOf r s last <= MAX_STRIP_NUM + 1)%Z.
Proof.
  induction d as [| d IH]; intros s last Hd.
  - rewrite ratioLoop_exit by lia. lia.
  - destruct (ratioAt s >=? Fin r) eqn:E.
    + rewrite ratioLoop_break by (try assumption; lia).
      destruct (_ <? _); lia.
    + rewrite ratioLoop_continue by (try assumption; lia).
      specialize (IH (s + 1)%Z (ratioAt s)). lia.
Qed.

End RatioSearch.

(* ------------------------------------------------------------------------- *)
(** ** Structure of [resolveOptions] *)

Lemma target_guard_false (w h : Q) :
  (MIN_TARGET_DIM <= w <= MAX_TARGET_DIM)%Q ->
  (MIN_TARGET_DIM <= h <= MAX_TARGET_DIM)%Q ->
  (Fin w <? Fin MIN_TARGET_DIM) || (Fin w >? Fin MAX_TARGET_DIM)
  || (Fin h <? Fin MIN_TARGET_DIM) || (Fin h >? Fin MAX_TARGET_DIM) = false.
Proof.
  intros [Hw1 Hw2] [Hh1 Hh2].
  apply lt_fin_false in Hw1, Hh1. apply gt_fin_false in Hw2, Hh2.
  now rewrite Hw1, Hw2, Hh1, Hh2.
Qed.

Lemma target_guard_true (w h : Q) :
  (Fin w <? Fin MIN_TARGET_DIM) || (Fin w >? Fin MAX_TARGET_DIM)
  || (Fin h <? Fin MIN_TARGET_DIM) || (Fin h >? Fin MAX_TARGET_DIM) = false ->
  (MIN_TARGET_DIM <= w <= MAX_TARGET_DIM)%Q
  /\ (MIN_TARGET_DIM <= h <= MAX_TARGET_DIM)%Q.
Proof.
  intro H. repeat (apply orb_false_iff in H; destruct H as [H ?]).
  repeat split;
    first [ now apply lt_fin_false | now apply gt_fin_false ].
Qed.

Lemma fitTarget_total (options : Options) (L : Layout) :
  targetSizeValid options -> exists res, fitTarget options L = Ok res.
Proof.
  unfold targetSizeValid, fitTarget.
  destruct (layout_targetSize (layout options)) as [[w h] |]; intro H.
  - destruct H as [Hw Hh]. rewrite (target_guard_false w h Hw Hh). eauto.
  - eauto.
Qed.

Lemma fitTarget_valid (options : Options) (L : Layout) res :
  fitTarget options L = Ok res -> targetSizeValid options.
Proof.
  unfold targetSizeValid, fitTarget.
  destruct (layout_targetSize (layout options)) as [[w h] |]; intro H; [| exact I].
  destruct (_ || _) eqn:E; [discriminate |].
  now apply target_guard_true.
Qed.

(** What a normal return of the resolver says about its steps. *)
Lemma resolveOptions_inv (beatmap : Beatmap) (options : Options) (ctx : Context) :
  resolveOptions beatmap options = Ok ctx ->
  let L := computeLayout beatmap options (ctx_start ctx) (ctx_end ctx)
             (ctx_stripNum ctx) in
  resolveStart beatmap options = Ok (ctx_start ctx)
  /\ resolveStrip beatmap options (ctx_start ctx)
       (resolveEnd beatmap options (ctx_start ctx))
     = Ok (ctx_stripNum ctx, ctx_end ctx)
  /\ fitTarget options L
     = Ok (ctx_finalScale ctx, ctx_margin ctx, ctx_totalWidth ctx, ctx_totalHeight ctx)
  /\ ctx_stripWidth ctx = stripWidth L
  /\ ctx_stripHeight ctx = stripHeight L
  /\ ctx_beatmap ctx = beatmap
  /\ ctx_options ctx = options.
Proof.
  unfold resolveOptions.
  destruct (resolveStart beatmap options) as [s |] eqn:Es; [| discriminate].
  cbn [bind].
  destruct (resolveStrip beatmap options s (resolveEnd beatmap options s))
    as [[n e] |] eqn:En; [| discriminate].
  cbn [bind].
  destruct (fitTarget options (computeLayout beatmap options s e n))
    as [[[[fs m] tw] th] |] eqn:Ef; [| discriminate].
  cbn [bind]. intro H. injection H as <-. cbn.
  rewrite En, Ef. repeat split; reflexivity.
Qed.

(** Conversely the three steps determine the result. *)
Lemma resolveOptions_ok (beatmap : Beatmap) (options : Options)
    (s e n : num) res :
  resolveStart beatmap options = Ok s ->
  resolveStrip beatmap options s (resolveEnd beatmap options s) = Ok (n, e) ->
  fitTarget options (computeLayout beatmap options s e n) = Ok res ->
  exists ctx, resolveOptions beatmap options = Ok ctx
              /\ ctx_start ctx = s /\ ctx_end ctx = e /\ ctx_stripNum ctx = n.
Proof.
  intros Hs Hn Hf. unfold resolveOptions.
  rewrite Hs. cbn [bind]. rewrite Hn. cbn [bind]. rewrite Hf.
  destruct res as [[[fs m] tw] th]. cbn [bind].
  eexists. split; [reflexivity |]. cbn. auto.
Qed.

Lemma resolveStrip_ratio (beatmap : Beatmap) (options : Options)
    (s e : num) (r : Q) :
  strip_mode (strip options) = ModeRatio ->
  strip_ratio (strip options) = Some r ->
  (0 < r <= MAX_RATIO)%Q ->
  resolveStrip beatmap options s e
  = Ok (Fin (inject_Z (ratioLoop (computeLayout beatmap options s e) r 1 (Fin 0))), e).
Proof.
  intros Hm Hr [H0 H20]. unfold resolveStrip. rewrite Hm, Hr.
  apply le_fin_false in H0. apply gt_fin_false in H20.
  now rewrite H0, H20.
Qed.

(* ------------------------------------------------------------------------- *)
(** ** The ['ratio'] strip mode *)

Lemma eqv_fin_inv (x : num) (q : Q) :
  x =n= Fin q -> exists q', x = Fin q' /\ (q' == q)%Q.
Proof. destruct x; simpl; intro H; try contradiction. eauto. Qed.

(** C1 (amended).  In ['ratio'] mode with a valid ratio [0 < r <= 20], when
    the search stops at a count [n] of 2..50 (every smaller count has a
    canvas ratio below [r], count [n] has ratio [c >= r]), the resolver
    returns and its strip count is whichever of [n - 1] and [n] has the
    ratio closer to [r]; when the two distances are equal it is the found
    count [n], the larger one. *)
Theorem ratio_mode_picks_closer_count
    (beatmap : Beatmap) (options : Options) (s : num) (r : Q) (n : Z) (p c : Q) :
  strip_mode (strip options) = ModeRatio ->
  strip_ratio (strip options) = Some r ->
  (0 < r <= MAX_RATIO)%Q ->
  targetSizeValid options ->
  resolveStart beatmap options = Ok s ->
  (2 <= n <= MAX_STRIP_NUM)%Z ->
  (forall k, (1 <= k < n)%Z ->
     (canvasRatio beatmap options s (resolveEnd beatmap options s) k >=? Fin r) = false) ->
  canvasRatio beatmap options s (resolveEnd beatmap options s) (n - 1) =n= Fin p ->
  canvasRatio beatmap options s (resolveEnd beatmap options s) n =n= Fin c ->
  (r <= c)%Q ->
  exists ctx,
    resolveOptions beatmap options = Ok ctx
    /\ ctx_start ctx = s
    /\ ctx_end ctx = resolveEnd beatmap options s
    /\ (((r - p < c - r)%Q /\ ctx_stripNum ctx = Fin (inject_Z (n - 1)))
        \/ ((c - r <= r - p)%Q /\ ctx_stripNum ctx = Fin (inject_Z n))).
Proof.
  intros Hm Hr Hrange Hts Hs Hn Hlow Hp Hc Hrc.
  set (e := resolveEnd beatmap options s) in *.
  pose proof (resolveStrip_ratio beatmap options s e r Hm Hr Hrange) as Hstrip.
  destruct (eqv_fin_inv _ _ Hp) as [p' [Ep Hp']].
  destruct (eqv_fin_inv _ _ Hc) as [c' [Ec Hc']].
  unfold canvasRatio in *.
  assert (Hfound :
    ratioLoop (computeLayout beatmap options s e) r 1 (Fin 0)
    = if Fin (r - p')%Q <? Fin (c' - r)%Q then (n - 1)%Z else n).
  { rewrite (ratioLoop_found _ r (Z.to_nat (n - 1)) 1 n (Fin 0)).
    - replace (1 =? n)%Z with false by (symmetry; apply Z.eqb_neq; lia).
      rewrite Ep, Ec. reflexivity.
    - lia.
    - lia.
    - assumption.
    - rewrite Ec. apply ge_fin. lra. }
  rewrite Hfound in Hstrip.
  destruct (fitTarget_total options
              (computeLayout beatmap options s e
                 (Fin (inject_Z (if Fin (r - p')%Q <? Fin (c' - r)%Q then (n - 1)%Z else n))))
              Hts) as [res Hfit].
  destruct (resolveOptions_ok beatmap options s e _ res Hs Hstrip Hfit)
    as [ctx [Hctx [Hcs [Hce Hcn]]]].
  exists ctx. repeat split; try assumption.
  rewrite Hcn.
  destruct (Fin (r - p')%Q <? Fin (c' - r)%Q) eqn:E.
  - left. apply lt_fin in E. split; [lra | reflexivity].
  - right. apply lt_fin_false in E. split; [lra | reflexivity].
Qed.

(** Witness for C1: the 50 x 50 chart with target ratio 3; the search stops
    at two strips (ratio 4, distance 1), one strip has ratio 1 (distance 2). *)
Lemma ratio_mode_picks_closer_count_witness :
  exists ctx,
    resolveOptions emptyBeatmap (squareOptions ModeRatio 3) = Ok ctx
    /\ ctx_start ctx = Fin 0
    /\ ctx_end ctx = resolveEnd emptyBeatmap (squareOptions ModeRatio 3) (Fin 0)
    /\ (((3 - 1 < 4 - 3)%Q /\ ctx_stripNum ctx = Fin (inject_Z (2 - 1)))
        \/ ((4 - 3 <= 3 - 1)%Q /\ ctx_stripNum ctx = Fin (inject_Z 2))).
Proof.
  apply (ratio_mode_picks_closer_count
           emptyBeatmap (squareOptions ModeRatio 3) (Fin 0) 3 2 1 4).
  - reflexivity.
  - reflexivity.
  - unfold MAX_RATIO. lra.
  - exact I.
  - reflexivity.
  - unfold MAX_STRIP_NUM. lia.
  - intros k Hk. assert (k = 1%Z) by lia. subst k. vm_compute. reflexivity.
  - vm_compute. reflexivity.
  - vm_compute. reflexivity.
  - lra.
Defined.

(** Counterexample to C1 as stated: on the 50 x 50 chart with target ratio
    5/2 the ratios of one and two strips, 1 and 4, are equally far from the
    target, and the resolver returns two strips, not one. *)
Lemma ratio_tie_keeps_found_count :
  ~ ratio_tie_prefers_smaller emptyBeatmap (squareOptions ModeRatio (5 # 2)).
Proof.
  intro H.
  destruct (resolveOptions emptyBeatmap (squareOptions ModeRatio (5 # 2)))
    as [ctx |] eqn:E; [| discriminate E].
  specialize (H ctx (5 # 2) 2%Z 1 4 E eq_refl eq_refl).
  vm_compute in E. injection E as <-.
  assert (Hn : Fin 2 =n= Fin (inject_Z (2 - 1))).
  { apply H.
    - unfold MAX_STRIP_NUM. lia.
    - intros k Hk. assert (k = 1%Z) by lia. subst k. vm_compute. reflexivity.
    - vm_compute. reflexivity.
    - vm_compute. reflexivity.
    - lra.
    - lra. }
  vm_compute in Hn. discriminate Hn.
Qed.

(* ------------------------------------------------------------------------- *)
(** ** Bar-line generator *)

Section BarLines.

Lemma StronglySorted_append {A : Type} (R : A -> A -> Prop) (l1 l2 : list A) :
  StronglySorted R l1 -> StronglySorted R l2 ->
  (forall x y, In x l1 -> In y l2 -> R x y) ->
  StronglySorted R (l1 ++ l2).
Proof.
  induction l1 as [| a l1 IH]; intros H1 H2 Hcross; [exact H2 |].
  apply StronglySorted_inv in H1. destruct H1 as [H1 Ha].
  simpl. constructor.
  - apply IH; auto. intros x y Hx Hy. apply Hcross; simpl; auto.
  - apply Forall_app. split; [exact Ha |].
    apply Forall_forall. intros y Hy. apply Hcross; simpl; auto.
Qed.

(** *** The stable sort *)

Lemma insertByTime_Forall (P : TimingPoint -> Prop) tp l :
  P tp -> Forall P l -> Forall P (insertByTime tp l).
Proof.
  intros Htp. induction l as [| x rest IH]; intro Hl; simpl.
  - auto.
  - apply Forall_inv in Hl as Hx. apply Forall_inv_tail in Hl.
    destruct (Fin (time tp) <=? Fin (time x)); auto.
Qed.

Lemma sortByTime_Forall (P : TimingPoint -> Prop) l :
  Forall P l -> Forall P (sortByTime l).
Proof.
  induction 1 as [| tp rest Htp _ IH]; simpl; [constructor |].
  now apply insertByTime_Forall.
Qed.

Lemma insertByTime_sorted tp l :
  StronglySorted timeLe l -> StronglySorted timeLe (insertByTime tp l).
Proof.
  induction l as [| x rest IH]; intro Hl; simpl.
  - repeat constructor.
  - apply StronglySorted_inv in Hl as [Hrest Hx].
    destruct (Fin (time tp) <=? Fin (time x)) eqn:E.
    + apply le_fin in E. constructor.
      * now constructor.
      * constructor; [exact E |].
        eapply Forall_impl; [| exact Hx].
        unfold timeLe in *. intros y Hy. lra.
    + apply le_fin_false in E. constructor.
      * now apply IH.
      * apply insertByTime_Forall; [| exact Hx]. unfold timeLe. lra.
Qed.

Lemma sortByTime_sorted l : StronglySorted timeLe (sortByTime l).
Proof.
  induction l as [| tp rest IH]; simpl; [constructor |].
  now apply insertByTime_sorted.
Qed.

(** *** Fuel *)

Lemma barLoop_mono (fuel : nat) :
  forall (fuel' : nat) (cur next e s d : num) (l : list num),
    (fuel <= fuel')%nat ->
    barLoop fuel cur next e s d = Some l ->
    barLoop fuel' cur next e s d = Some l.
Proof.
  induction fuel as [| fuel IH]; intros fuel' cur next e s d l Hle H.
  - discriminate.
  - destruct fuel' as [| fuel']; [lia |].
    cbn [barLoop] in *.
    destruct ((cur <? next) && (cur <=? e)); [| exact H].
    destruct (barLoop fuel (cur + d) next e s d) as [rest |] eqn:E; [| discriminate].
    rewrite (IH fuel' _ _ _ _ _ rest) by (try lia; assumption).
    exact H.
Qed.

Lemma barSegments_mono (sorted : list TimingPoint) :
  forall (fuel fuel' : nat) (s e : num) (l : list num),
    (fuel <= fuel')%nat ->
    barSegments fuel sorted s e = Some l ->
    barSegments fuel' sorted s e = Some l.
Proof.
  induction sorted as [| tp rest IH]; intros fuel fuel' s e l Hle H.
  - exact H.
  - cbn [barSegments] in *.
    destruct (barLoop fuel _ _ _ _ _) as [here |] eqn:E1; [| discriminate].
    destruct (barSegments fuel rest s e) as [later |] eqn:E2; [| discriminate].
    rewrite (barLoop_mono fuel fuel' _ _ _ _ _ here Hle E1).
    rewrite (IH fuel fuel' s e later Hle E2).
    exact H.
Qed.

(** *** One regime *)

Variables next e s d : Q.
Hypothesis d_pos : (0 < d)%Q.

Lemma barLoop_terminates (k : nat) :
  forall cur : Q,
    (e - cur < inject_Z (Z.of_nat k) * d)%Q ->
    exists l, barLoop (S k) (Fin cur) (Fin next) (Fin e) (Fin s) (Fin d) = Some l.
Proof.
  induction k as [| k IH]; intros cur Hk.
  - cbn [barLoop].
    assert (E : (Fin cur <=? Fin e) = false) by (apply le_fin_false; change (inject_Z (Z.of_nat 0)) with 0%Q in Hk; lra).
    rewrite E, andb_false_r. eauto.
  - change (barLoop (S (S k)) (Fin cur) (Fin next) (Fin e) (Fin s) (Fin d))
      with (if (Fin cur <? Fin next) && (Fin cur <=? Fin e)
            then match barLoop (S k) (Fin (cur + d)) (Fin next) (Fin e) (Fin s) (Fin d) with
                 | None => None
                 | Some rest =>
                     Some (if Fin cur >=? Fin s then Fin cur :: rest else rest)
                 end
            else Some []).
    destruct ((Fin cur <? Fin next) && (Fin cur <=? Fin e)); [| eauto].
    destruct (IH (cur + d)%Q) as [rest Hrest].
    + rewrite Nat2Z.inj_succ, <- Z.add_1_r, inject_Z_plus in Hk.
      change (inject_Z 1) with 1%Q in Hk. lra.
    + rewrite Hrest. eauto.
Qed.

Lemma barLoop_fuel_exists (cur : Q) :
  exists fuel l, barLoop fuel (Fin cur) (Fin next) (Fin e) (Fin s) (Fin d) = Some l.
Proof.
  set (k := Z.to_nat (Qceiling ((e - cur) / d) + 1)).
  exists (S k). apply barLoop_terminates.
  assert (Hc : ((e - cur) / d <= inject_Z (Qceiling ((e - cur) / d)))%Q)
    by apply Qle_ceiling.
  assert (Hk : (inject_Z (Qceiling ((e - cur) / d) + 1) <= inject_Z (Z.of_nat k))%Q).
  { rewrite <- Zle_Qle. unfold k. lia. }
  rewrite inject_Z_plus in Hk. change (inject_Z 1) with 1%Q in Hk.
  assert (Hlt : ((e - cur) / d < inject_Z (Z.of_nat k))%Q) by lra.
  apply (Qmult_lt_r _ _ d d_pos) in Hlt.
  assert (Hd : ((e - cur) / d * d == e - cur)%Q) by (field; lra).
  rewrite Hd in Hlt. exact Hlt.
Qed.

(** What one regime pushes: rationals from [cur] on, below [next], inside
    the window, in increasing order. *)
Lemma barLoop_spec (fuel : nat) :
  forall (cur : Q) (l : list num),
    barLoop fuel (Fin cur) (Fin next) (Fin e) (Fin s) (Fin d) = Some l ->
    exists qs,
      l = map Fin qs
      /\ StronglySorted Qlt qs
      /\ Forall (fun q => cur <= q /\ q < next /\ s <= q <= e)%Q qs.
Proof.
  induction fuel as [| fuel IH]; intros cur l H; [discriminate |].
  change (barLoop (S fuel) (Fin cur) (Fin next) (Fin e) (Fin s) (Fin d))
    with (if (Fin cur <? Fin next) && (Fin cur <=? Fin e)
          then match barLoop fuel (Fin (cur + d)) (Fin next) (Fin e) (Fin s) (Fin d) with
               | None => None
               | Some rest =>
                   Some (if Fin cur >=? Fin s then Fin cur :: rest else rest)
               end
          else Some []) in H.
  destruct ((Fin cur <? Fin next) && (Fin cur <=? Fin e)) eqn:Ec.
  - apply andb_true_iff in Ec as [Hnext He].
    apply lt_fin in Hnext. apply le_fin in He.
    destruct (barLoop fuel (Fin (cur + d)) _ _ _ _) as [rest |] eqn:Er; [| discriminate].
    destruct (IH _ _ Er) as [qs [-> [Hsorted Hall]]].
    assert (Hall' : Forall (fun q => cur <= q /\ q < next /\ s <= q <= e)%Q qs).
    { eapply Forall_impl; [| exact Hall]. cbv beta. intros q Hq. lra. }
    destruct (Fin cur >=? Fin s) eqn:Es; injection H as <-.
    + apply ge_fin in Es. exists (cur :: qs). repeat split.
      * constructor; [exact Hsorted |].
        eapply Forall_impl; [| exact Hall]. cbv beta. intros q Hq. lra.
      * constructor; [lra | exact Hall'].
    + exists qs. auto.
  - injection H as <-. exists []. repeat constructor.
Qed.

End BarLines.

(** *** All regimes *)

Lemma barDuration_fin (tp : TimingPoint) :
  validTimingPoint tp ->
  exists d, Fin 60000 / Fin (bpm tp) * Fin (meter tp) = Fin d /\ (0 < d)%Q.
Proof.
  intros [Hb Hm].
  rewrite div_fin by lra. cbn [mul].
  eexists. split; [reflexivity |].
  assert (H : (0 < / bpm tp)%Q) by now apply Qinv_lt_0_compat.
  unfold Qdiv. nra.
Qed.

Lemma barSegments_spec (sorted : list TimingPoint) :
  forall (fuel : nat) (s e : Q) (l : list num),
    StronglySorted timeLe sorted ->
    Forall validTimingPoint sorted ->
    barSegments fuel sorted (Fin s) (Fin e) = Some l ->
    exists qs,
      l = map Fin qs
      /\ StronglySorted Qlt qs
      /\ Forall (fun q => (s <= q <= e)%Q
                          /\ match sorted with
                             | tp :: _ => (time tp <= q)%Q
                             | [] => True
                             end) qs.
Proof.
  induction sorted as [| tp rest IH]; intros fuel s e l Hsorted Hvalid H.
  - injection H as <-. exists []. repeat constructor.
  - cbn [barSegments] in H.
    apply StronglySorted_inv in Hsorted as [Hsrest Htp].
    apply Forall_inv in Hvalid as Hv. apply Forall_inv_tail in Hvalid.
    destruct (barDuration_fin tp Hv) as [d [Ed Hd]]. rewrite Ed in H.
    set (next := match rest with nxt :: _ => time nxt | [] => e end).
    assert (En : match rest with nxt :: _ => Fin (time nxt) | [] => Fin e end = Fin next)
      by (unfold next; now destruct rest).
    rewrite En in H.
    destruct (barLoop fuel _ _ _ _ _) as [here |] eqn:E1; [| discriminate].
    destruct (barSegments fuel rest (Fin s) (Fin e)) as [later |] eqn:E2; [| discriminate].
    injection H as <-.
    destruct (barLoop_spec next e s d Hd fuel _ _ E1) as [q1 [-> [Hs1 Ha1]]].
    destruct (IH fuel s e later Hsrest Hvalid E2) as [q2 [-> [Hs2 Ha2]]].
    exists (q1 ++ q2). rewrite map_app. repeat split.
    + apply StronglySorted_append; auto.
      intros x y Hx Hy.
      rewrite Forall_forall in Ha1, Ha2.
      specialize (Ha1 x Hx). specialize (Ha2 y Hy).
      destruct rest as [| nxt rest'].
      * cbn in E2. injection E2 as E2. destruct q2; [contradiction | discriminate].
      * unfold next in Ha1. destruct Ha2 as [_ Ha2]. lra.
    + apply Forall_app. split.
      * eapply Forall_impl; [| exact Ha1]. cbv beta. intros q Hq. lra.
      * rewrite Forall_forall in Ha2 |- *. intros q Hq.
        specialize (Ha2 q Hq). destruct Ha2 as [Hw Hh]. split; [exact Hw |].
        destruct rest as [| nxt rest']; [destruct q2; [contradiction | ] |].
        -- cbn in E2. discriminate.
        -- apply Forall_inv in Htp. unfold timeLe in Htp. lra.
Qed.

Lemma barSegments_fuel_exists (sorted : list TimingPoint) (s e : Q) :
  Forall validTimingPoint sorted ->
  exists fuel l, barSegments fuel sorted (Fin s) (Fin e) = Some l.
Proof.
  induction 1 as [| tp rest Hv _ IH].
  - exists 0%nat, []. reflexivity.
  - destruct IH as [f2 [later H2]].
    destruct (barDuration_fin tp Hv) as [d [Ed Hd]].
    set (next := match rest with nxt :: _ => time nxt | [] => e end).
    destruct (barLoop_fuel_exists next e s d Hd (time tp)) as [f1 [here H1]].
    exists (f1 + f2)%nat, (here ++ later).
    cbn [barSegments]. rewrite Ed.
    replace (match rest with nxt :: _ => Fin (time nxt) | [] => Fin e end)
      with (Fin next) by (unfold next; now destruct rest).
    rewrite (barLoop_mono f1 (f1 + f2) _ _ _ _ _ here) by (try lia; assumption).
    rewrite (barSegments_mono rest f2 (f1 + f2) _ _ later) by (try lia; assumption).
    reflexivity.
Qed.

(** C7.  For timing points with positive bpm and meter at least 1 the
    generator returns (with enough fuel, and then whatever the fuel) a list
    of rationals that is strictly increasing, hence free of duplicates, and
    lies in the window [start..end]. *)
Theorem bar_lines_increasing_within_window
    (timingPoints : list TimingPoint) (s e : Q) :
  Forall validTimingPoint timingPoints ->
  (s <= e)%Q ->
  exists fuel qs,
    (forall fuel', (fuel <= fuel')%nat ->
       generateBarLinePositions fuel' timingPoints (Fin s) (Fin e) = Some (map Fin qs))
    /\ StronglySorted Qlt qs
    /\ Forall (fun q => s <= q <= e)%Q qs.
Proof.
  intros Hvalid _. unfold generateBarLinePositions.
  pose proof (sortByTime_Forall _ _ Hvalid) as Hv.
  pose proof (sortByTime_sorted timingPoints) as Hs.
  destruct (barSegments_fuel_exists _ s e Hv) as [fuel [l Hl]].
  destruct (barSegments_spec _ fuel s e l Hs Hv Hl) as [qs [-> [Hsorted Hall]]].
  exists fuel, qs. repeat split.
  - intros fuel' Hle. now apply (barSegments_mono _ fuel fuel').
  - exact Hsorted.
  - eapply Forall_impl; [| exact Hall]. cbv beta. intros q Hq. tauto.
Qed.

(** Witness for C7: two regimes, the second starting off the first one's
    bar grid, over the window 500..9000. *)
Lemma bar_lines_increasing_within_window_witness :
  exists fuel qs,
    (forall fuel', (fuel <= fuel')%nat ->
       generateBarLinePositions fuel'
         [mkTimingPoint 3000 100 3; mkTimingPoint 0 120 4] (Fin 500) (Fin 9000)
       = Some (map Fin qs))
    /\ StronglySorted Qlt qs
    /\ Forall (fun q => 500 <= q <= 9000)%Q qs.
Proof.
  apply (bar_lines_increasing_within_window
           [mkTimingPoint 3000 100 3; mkTimingPoint 0 120 4] 500 9000).
  - repeat constructor; simpl; lra.
  - lra.
Defined.

(** C6.  One timing point [{time: 0, bpm: 120, meter: 4}] over the window
    0..4000 gives the two bar lines 0 and 2000; 4000 is not produced.  Three
    iterations of the loop are needed, and any larger fuel gives the same. *)
Theorem bar_lines_constant_tempo (k : nat) :
  exists l,
    generateBarLinePositions (3 + k) [mkTimingPoint 0 120 4] (Fin 0) (Fin 4000) = Some l
    /\ Forall2 eqv l [Fin 0; Fin 2000].
Proof.
  assert (H : generateBarLinePositions 3 [mkTimingPoint 0 120 4] (Fin 0) (Fin 4000)
              = Some [Fin 0; Fin (0 + 60000 / 120 * 4)%Q]) by (vm_compute; reflexivity).
  eexists. split.
  - unfold generateBarLinePositions in *.
    apply (barSegments_mono _ 3 (3 + k)); [lia | exact H].
  - repeat constructor; simpl; reflexivity.
Qed.

(* ------------------------------------------------------------------------- *)
(** ** Window resolution *)

Lemma resolveStrip_throws (beatmap : Beatmap) (options : Options)
    (s e : num) (err : error) :
  resolveStrip beatmap options s e = Throw err -> err <> TypeError_undefined.
Proof.
  unfold resolveStrip.
  destruct (strip_mode (strip options)).
  - destruct (strip_num (strip options)); [destruct (_ || _) |];
      intro H; try discriminate; injection H as <-; discriminate.
  - destruct (strip_time (strip options)); [destruct (_ <=? _) |];
      try (cbv zeta; destruct (_ <=? _));
      intro H; try discriminate; injection H as <-; discriminate.
  - destruct (strip_ratio (strip options));
      [destruct (_ <=? _); [| destruct (_ >? _)] |];
      intro H; try discriminate; injection H as <-; discriminate.
  - intro H; injection H as <-; discriminate.
Qed.

Lemma fitTarget_throws (options : Options) (L : Layout) (err : error) :
  fitTarget options L = Throw err -> err = Error_targetSize.
Proof.
  unfold fitTarget.
  destruct (layout_targetSize (layout options)) as [[w h] |]; [| discriminate].
  destruct (_ || _); [| discriminate].
  intro H; injection H as <-; reflexivity.
Qed.

Lemma resolveStart_explicit (beatmap : Beatmap) (options : Options) (s : Q) :
  time_start (time_ options) = Explicit s ->
  resolveStart beatmap options = Ok (Fin s).
Proof. unfold resolveStart. now intros ->. Qed.

(** C8.  With no timing points and ['auto'] start (and end) the resolver
    throws, at the read of the first timing point, and so does [render],
    which returns no document; with an explicit numeric start the resolver
    never throws that error, whatever the timing points. *)
Theorem empty_timing_points_error
    (beatmap : Beatmap) (auto explicit : Options) (s : Q) :
  timingPoints beatmap = [] ->
  time_start (time_ auto) = Auto ->
  time_end (time_ auto) = Auto ->
  time_start (time_ explicit) = Explicit s ->
  (resolveOptions beatmap auto = Throw TypeError_undefined
   /\ forall fuel, render fuel beatmap auto = Some (Throw TypeError_undefined))
  /\ resolveStart beatmap explicit = Ok (Fin s)
  /\ resolveOptions beatmap explicit <> Throw TypeError_undefined.
Proof.
  intros Htp Hstart _ Hexp.
  assert (Hres : resolveOptions beatmap auto = Throw TypeError_undefined).
  { unfold resolveOptions, resolveStart. now rewrite Hstart, Htp. }
  repeat split.
  - exact Hres.
  - intro fuel. unfold render. now rewrite Hres.
  - now apply resolveStart_explicit.
  - unfold resolveOptions.
    rewrite (resolveStart_explicit beatmap explicit s Hexp). cbn [bind].
    destruct (resolveStrip _ _ _ _) as [[n e'] |] eqn:En; cbn [bind].
    + destruct (fitTarget _ _) as [[[[fs m] tw] th] |] eqn:Ef; cbn [bind].
      * discriminate.
      * apply fitTarget_throws in Ef. subst. discriminate.
    + apply resolveStrip_throws in En. congruence.
Qed.

(** Witness for C8: the beatmap without timing points, under the default
    options (both ends ['auto']) and under an explicit window. *)
Lemma empty_timing_points_error_witness :
  (resolveOptions emptyBeatmap defaultOptions = Throw TypeError_undefined
   /\ forall fuel, render fuel emptyBeatmap defaultOptions
                   = Some (Throw TypeError_undefined))
  /\ resolveStart emptyBeatmap (squareOptions ModeNum 1) = Ok (Fin 0)
  /\ resolveOptions emptyBeatmap (squareOptions ModeNum 1) <> Throw TypeError_undefined.
Proof.
  apply (empty_timing_points_error
           emptyBeatmap defaultOptions (squareOptions ModeNum 1) 0);
    reflexivity.
Defined.

Lemma resolveStart_finite (beatmap : Beatmap) (options : Options) (s : num) :
  resolveStart beatmap options = Ok s -> exists q, s = Fin q.
Proof.
  unfold resolveStart.
  destruct (time_start (time_ options)) as [| v].
  - destruct (timingPoints beatmap) as [| tp rest]; [discriminate |].
    intro H; injection H as <-.
    destruct (max_fin 0 (time tp)) as [q [Hq _]]. eauto.
  - intro H; injection H as <-. eauto.
Qed.

(** The [reduce] over the notes, started from a finite value, is the
    largest of that value and the notes' ends. *)
Lemma fold_max_notes (l : list Note) :
  forall s : Q,
    exists m,
      fold_left (fun mx n => max mx (Fin (noteEnd n))) l (Fin s) = Fin m
      /\ (s <= m)%Q
      /\ Forall (fun n => noteEnd n <= m)%Q l
      /\ ((m == s)%Q \/ Exists (fun n => m == noteEnd n)%Q l).
Proof.
  induction l as [| n rest IH]; intro s.
  - exists s. split; [reflexivity |]. split; [lra |].
    split; [constructor | left; reflexivity].
  - cbn [fold_left].
    destruct (max_fin s (noteEnd n)) as [q [-> [Hs [Hn Hq]]]].
    destruct (IH q) as [m [-> [Hqm [Hall Hex]]]].
    exists m. repeat split.
    + lra.
    + constructor; [lra | exact Hall].
    + destruct Hex as [Hex | Hex].
      * destruct Hq as [Hq | Hq]; [left; lra | right; constructor; lra].
      * right. now constructor 2.
Qed.

Lemma resolveStrip_keeps_end (beatmap : Beatmap) (options : Options)
    (s e n e' : num) :
  strip_mode (strip options) <> ModeTime ->
  resolveStrip beatmap options s e = Ok (n, e') -> e' = e.
Proof.
  unfold resolveStrip. intro Hm.
  destruct (strip_mode (strip options)); try contradiction.
  - destruct (strip_num (strip options)); [destruct (_ || _) |];
      intro H; try discriminate; now injection H.
  - destruct (strip_ratio (strip options));
      [destruct (_ <=? _); [| destruct (_ >? _)] |];
      intro H; try discriminate; now injection H.
  - discriminate.
Qed.

(** C9 (amended).  Outside the ['time'] mode the resolved end is the base
    end plus the padding [note.height / time.scale], added whether the end
    is explicit or not; the base end is the explicit end, or else the
    largest of the resolved start and every note's [end ?? start] (the start
    bounds it from below also when there are notes). *)
Theorem resolved_end_is_padded_base
    (beatmap : Beatmap) (options : Options) (ctx : Context) :
  resolveOptions beatmap options = Ok ctx ->
  strip_mode (strip options) <> ModeTime ->
  exists s m,
    ctx_start ctx = Fin s
    /\ baseEnd beatmap options (ctx_start ctx) = Fin m
    /\ ctx_end ctx = Fin m + padding options
    /\ (forall e, time_end (time_ options) = Explicit e -> m = e)
    /\ (time_end (time_ options) = Auto ->
        (s <= m)%Q
        /\ Forall (fun n => noteEnd n <= m)%Q (notes beatmap)
        /\ ((m == s)%Q \/ Exists (fun n => m == noteEnd n)%Q (notes beatmap))).
Proof.
  intros H Hm.
  destruct (resolveOptions_inv _ _ _ H) as [Hs [Hn _]].
  destruct (resolveStart_finite _ _ _ Hs) as [s Es].
  apply resolveStrip_keeps_end in Hn; [| exact Hm].
  unfold resolveEnd in Hn. rewrite Es in *.
  unfold baseEnd in *.
  destruct (time_end (time_ options)) as [| e] eqn:Ee.
  - destruct (fold_max_notes (notes beatmap) s) as [m [Em [H1 [H2 H3]]]].
    rewrite Em in Hn. exists s, m.
    split; [reflexivity |]. split; [exact Em |]. split; [exact Hn |].
    split; [discriminate | auto].
  - exists s, e.
    split; [reflexivity |]. split; [reflexivity |]. split; [exact Hn |].
    split; [| discriminate].
    intros e0 He0. now injection He0.
Qed.

(** Witness for C9: the sample chart under the default options. *)
Lemma resolved_end_is_padded_base_witness :
  exists ctx,
    resolveOptions sampleBeatmap defaultOptions = Ok ctx
    /\ exists s m,
         ctx_start ctx = Fin s
         /\ baseEnd sampleBeatmap defaultOptions (ctx_start ctx) = Fin m
         /\ ctx_end ctx = Fin m + padding defaultOptions
         /\ (forall e, time_end (time_ defaultOptions) = Explicit e -> m = e)
         /\ (time_end (time_ defaultOptions) = Auto ->
             (s <= m)%Q
             /\ Forall (fun n => noteEnd n <= m)%Q (notes sampleBeatmap)
             /\ ((m == s)%Q
                 \/ Exists (fun n => m == noteEnd n)%Q (notes sampleBeatmap))).
Proof.
  eexists. split; [reflexivity |].
  apply (resolved_end_is_padded_base sampleBeatmap defaultOptions).
  - reflexivity.
  - discriminate.
Defined.

(** Counterexample to C9 as stated: in ['time'] mode with strips of 30 s the
    window 0..44 (padded to 50) is resolved to the end 30000, not 50. *)
Lemma time_mode_end_is_not_padded_base :
  ~ end_is_padded_base emptyBeatmap (squareOptions ModeTime 1).
Proof.
  intro H.
  destruct (resolveOptions emptyBeatmap (squareOptions ModeTime 1))
    as [ctx |] eqn:E; [| discriminate E].
  specialize (H ctx E).
  vm_compute in E. injection E as <-.
  vm_compute in H. discriminate H.
Qed.

(** The start bounds the base end also when there are notes: with a start
    of 5000 after both notes of the sample chart (ends 1000 and 3000) the
    base end is 5000, and the resolved end 5060. *)
Example start_bounds_base_end :
  exists ctx,
    resolveOptions sampleBeatmap lateStart = Ok ctx
    /\ baseEnd sampleBeatmap lateStart (ctx_start ctx) =n= Fin 5000
    /\ statedBaseEnd sampleBeatmap lateStart (ctx_start ctx) =n= Fin 3000
    /\ ctx_end ctx =n= Fin 5060.
Proof.
  eexists. split; [reflexivity |]. repeat split; vm_compute; reflexivity.
Qed.

(* ------------------------------------------------------------------------- *)
(** ** The ['time'] strip mode *)

Lemma cmp_inject_Z (a b : Z) : (inject_Z a ?= inject_Z b)%Q = (a ?= b)%Z.
Proof. unfold Qcompare. simpl. now rewrite !Z.mul_1_r. Qed.

Lemma min_inject_Z (a b : Z) :
  min (Fin (inject_Z a)) (Fin (inject_Z b)) = Fin (inject_Z (Z.min a b)).
Proof.
  unfold min, cmp. rewrite cmp_inject_Z. unfold Z.min.
  now destruct (a ?= b)%Z.
Qed.

Lemma le_inject_Z_0 (n : Z) :
  (Fin (inject_Z n) <=? Fin 0) = (n <=? 0)%Z.
Proof.
  unfold le, cmp. change 0%Q with (inject_Z 0). rewrite cmp_inject_Z.
  unfold Z.leb. now destruct (n ?= 0)%Z.
Qed.

(** The [time] branch on a finite window. *)
Lemma resolveStrip_time (beatmap : Beatmap) (options : Options) (s e d : Q) :
  strip_mode (strip options) = ModeTime ->
  strip_time (strip options) = Some d ->
  (0 < d)%Q ->
  resolveStrip beatmap options (Fin s) (Fin e)
  = let n := Z.min (Qceiling ((e - s) / d)) MAX_STRIP_NUM in
    if (n <=? 0)%Z then Throw Error_stripNumZero
    else Ok (Fin (inject_Z n), Fin (s + inject_Z n * d)%Q).
Proof.
  intros Hm Ht Hd. unfold resolveStrip. rewrite Hm, Ht.
  assert (E : (Fin d <=? Fin 0) = false) by now apply le_fin_false.
  rewrite E. cbv zeta.
  change (Fin e - Fin s) with (Fin (e - s)%Q).
  rewrite div_fin by lra. cbn [ceil].
  rewrite min_inject_Z, le_inject_Z_0.
  destruct (_ <=? 0)%Z; reflexivity.
Qed.

Lemma resolveOptions_strip_throws (beatmap : Beatmap) (options : Options)
    (s : num) (err : error) :
  resolveStart beatmap options = Ok s ->
  resolveStrip beatmap options s (resolveEnd beatmap options s) = Throw err ->
  resolveOptions beatmap options = Throw err.
Proof.
  intros Hs Hn. unfold resolveOptions. rewrite Hs. cbn [bind]. now rewrite Hn.
Qed.

(** C4.  In ['time'] mode, on a resolved window [s .. e0] (the padded end),
    a missing or non-positive [strip.time] is an error; for a positive
    duration [d] the strip count is [ceil((e0 - s) / d)] capped at 50, the
    end is re-assigned to [s + count * d], and each strip then spans exactly
    [d].  (A count that is not positive, from an empty window, is rejected
    by the branch's guard.) *)
Theorem time_mode_strip_count
    (beatmap : Beatmap) (options : Options) (s e0 : Q) :
  strip_mode (strip options) = ModeTime ->
  resolveStart beatmap options = Ok (Fin s) ->
  resolveEnd beatmap options (Fin s) =n= Fin e0 ->
  targetSizeValid options ->
  (strip_time (strip options) = None ->
   resolveOptions beatmap options = Throw Error_stripTimeMissing)
  /\ (forall d, strip_time (strip options) = Some d -> (d <= 0)%Q ->
      resolveOptions beatmap options = Throw Error_stripTimeInvalid)
  /\ (forall d, strip_time (strip options) = Some d -> (0 < d)%Q ->
      let n := Z.min (Qceiling ((e0 - s) / d)) MAX_STRIP_NUM in
      ((n <= 0)%Z -> resolveOptions beatmap options = Throw Error_stripNumZero)
      /\ ((0 < n)%Z ->
          exists ctx,
            resolveOptions beatmap options = Ok ctx
            /\ ctx_start ctx = Fin s
            /\ ctx_stripNum ctx = Fin (inject_Z n)
            /\ ctx_end ctx = Fin (s + inject_Z n * d)%Q
            /\ (ctx_end ctx - ctx_start ctx) / ctx_stripNum ctx =n= Fin d)).
Proof.
  intros Hm Hs He Hts.
  destruct (eqv_fin_inv _ _ He) as [e [Ee Hee]].
  split; [| split].
  - intro Ht. apply (resolveOptions_strip_throws _ _ (Fin s)); [exact Hs |].
    unfold resolveStrip. now rewrite Hm, Ht.
  - intros d Ht Hd. apply (resolveOptions_strip_throws _ _ (Fin s)); [exact Hs |].
    unfold resolveStrip. rewrite Hm, Ht.
    apply le_fin in Hd. now rewrite Hd.
  - intros d Ht Hd n.
    assert (Hn : n = Z.min (Qceiling ((e - s) / d)) MAX_STRIP_NUM).
    { unfold n. now rewrite Hee. }
    pose proof (resolveStrip_time beatmap options s e d Hm Ht Hd) as Hstrip.
    cbv zeta in Hstrip. rewrite <- Hn, <- Ee in Hstrip.
    split; intro Hsign.
    + apply (resolveOptions_strip_throws _ _ (Fin s)); [exact Hs |].
      rewrite Hstrip.
      replace (n <=? 0)%Z with true by (symmetry; apply Z.leb_le; lia).
      reflexivity.
    + replace (n <=? 0)%Z with false in Hstrip by (symmetry; apply Z.leb_gt; lia).
      destruct (fitTarget_total options
                  (computeLayout beatmap options (Fin s)
                     (Fin (s + inject_Z n * d)%Q) (Fin (inject_Z n))) Hts)
        as [res Hfit].
      destruct (resolveOptions_ok _ _ _ _ _ res Hs Hstrip Hfit)
        as [ctx [Hctx [Hcs [Hce Hcn]]]].
      exists ctx. repeat split; try assumption.
      rewrite Hce, Hcs, Hcn.
      change (Fin (s + inject_Z n * d)%Q - Fin s)
        with (Fin (s + inject_Z n * d - s)%Q).
      assert (Hq : (0 < inject_Z n)%Q).
      { change 0%Q with (inject_Z 0). rewrite <- Zlt_Qlt. exact Hsign. }
      rewrite div_fin by lra.
      simpl. field. lra.
Qed.

(** Witness for C4: the sample chart with strips of one second; its padded
    window 0..3060 takes four strips and the end becomes 4000. *)
Lemma time_mode_strip_count_witness :
  (strip_time (strip secondStrips) = None ->
   resolveOptions sampleBeatmap secondStrips = Throw Error_stripTimeMissing)
  /\ (forall d, strip_time (strip secondStrips) = Some d -> (d <= 0)%Q ->
      resolveOptions sampleBeatmap secondStrips = Throw Error_stripTimeInvalid)
  /\ (forall d, strip_time (strip secondStrips) = Some d -> (0 < d)%Q ->
      let n := Z.min (Qceiling ((3060 - 0) / d)) MAX_STRIP_NUM in
      ((n <= 0)%Z -> resolveOptions sampleBeatmap secondStrips = Throw Error_stripNumZero)
      /\ ((0 < n)%Z ->
          exists ctx,
            resolveOptions sampleBeatmap secondStrips = Ok ctx
            /\ ctx_start ctx = Fin 0
            /\ ctx_stripNum ctx = Fin (inject_Z n)
            /\ ctx_end ctx = Fin (0 + inject_Z n * d)%Q
            /\ (ctx_end ctx - ctx_start ctx) / ctx_stripNum ctx =n= Fin d)).
Proof.
  apply (time_mode_strip_count sampleBeatmap secondStrips 0 3060).
  - reflexivity.
  - reflexivity.
  - vm_compute. reflexivity.
  - exact I.
Defined.

(** The counts of the witness, evaluated. *)
Example time_mode_sample :
  exists ctx,
    resolveOptions sampleBeatmap secondStrips = Ok ctx
    /\ ctx_stripNum ctx =n= Fin 4 /\ ctx_end ctx =n= Fin 4000.
Proof.
  eexists. split; [reflexivity |]. split; vm_compute; reflexivity.
Qed.

(* ------------------------------------------------------------------------- *)
(** ** Note emitter *)

(** The default selector succeeds on every column of a known key count. *)
Lemma colorSelector_valid_column (colors : list string)
    (layouts : list (Z * list Z)) (k : Z) (n : Note) (layout : list Z) :
  lookup layouts k = Some layout ->
  (0 <= column n < Z.of_nat (List.length layout))%Z ->
  exists color, createNoteColorSelector colors layouts k n = Ok color.
Proof.
  intros Hl Hc. unfold createNoteColorSelector, index. rewrite Hl.
  replace (column n <? 0)%Z with false by (symmetry; apply Z.ltb_ge; lia).
  destruct (nth_error layout (Z.to_nat (column n))) as [key |] eqn:E.
  - eauto.
  - apply nth_error_None in E. lia.
Qed.

(** No culling: whenever the colour selector accepts the note, the emitter
    returns its cap, whatever the window; a body follows exactly when the
    end is present and truthy and the residual height is positive. *)
Lemma createNote_emits (ctx : Context) (n : Note) (color : option string) :
  note_colorSelector (note (ctx_options ctx)) (keys (ctx_beatmap ctx)) n = Ok color ->
  exists cap rest,
    createNote ctx n = Ok (cap :: rest)
    /\ (List.length rest <= 1)%nat
    /\ (rest <> [] <->
        exists e, end_ n = Some e /\ truthy (Fin e) = true
                  /\ (bodyHeight (ctx_options ctx) n >? Fin 0) = true).
Proof.
  intro Hc. unfold createNote. rewrite Hc. cbn [bind]. cbv zeta.
  unfold bodyHeight, noteEnd.
  destruct (end_ n) as [e |].
  - destruct (truthy (Fin e)) eqn:Et.
    + destruct (_ >? Fin 0) eqn:Eh.
      * eexists _, [_]. split; [reflexivity |]. split; [simpl; lia |].
        split; [intros _; exists e; auto | discriminate].
      * eexists _, []. split; [reflexivity |]. split; [simpl; lia |].
        split; [congruence |].
        intros [e' [He' [_ Hh]]]. injection He' as <-. congruence.
    + eexists _, []. split; [reflexivity |]. split; [simpl; lia |].
      split; [congruence |].
      intros [e' [He' [Ht _]]]. injection He' as <-. congruence.
  - eexists _, []. split; [reflexivity |]. split; [simpl; lia |].
    split; [congruence |]. intros [e' [He' _]]. discriminate.
Qed.

(** C10 (defect).  The hold [{column: 0, start: -1000, end: 0}] has residual
    body height 1000 * 0.1 - 6 = 94 > 0, yet the emitter returns only its
    cap, and so does [render]: the end 0 fails the test [if (note.end)]. *)
Theorem hold_ending_at_zero_has_no_body :
  exists ctx cap doc,
    resolveOptions earlyBeatmap defaultOptions = Ok ctx
    /\ end_ earlyHold = Some 0%Q
    /\ bodyHeight (ctx_options ctx) earlyHold =n= Fin 94
    /\ createNote ctx earlyHold = Ok [cap]
    /\ render 2 earlyBeatmap defaultOptions = Some (Ok doc)
    /\ doc_notes doc = [cap].
Proof.
  eexists. eexists. eexists. split; [reflexivity |].
  split; [reflexivity |]. split; [vm_compute; reflexivity |].
  split; [vm_compute; reflexivity |].
  split; vm_compute; reflexivity.
Qed.

(* ------------------------------------------------------------------------- *)
(** ** Re-resolving a resolved window *)

Lemma resolveStrip_num (beatmap : Beatmap) (options : Options)
    (s e : num) (n : Q) :
  strip_mode (strip options) = ModeNum ->
  strip_num (strip options) = Some n ->
  (0 < n <= inject_Z MAX_STRIP_NUM)%Q ->
  resolveStrip beatmap options s e = Ok (Fin n, e).
Proof.
  intros Hm Hn [H0 H50]. unfold resolveStrip. rewrite Hm, Hn.
  apply le_fin_false in H0. apply gt_fin_false in H50.
  now rewrite H0, H50.
Qed.

(** C5 (amended).  Passing a resolved window [s .. e] and strip count [n]
    (0 < n <= 50) back as explicit options returns a context with the same
    start, strip count and strip width, but the padding is added to the
    explicit end again: the new end is [e + note.height / time.scale], and
    (for a non-zero time scale) each strip is taller by [note.height / n],
    so the strip height is reproduced exactly when [note.height] is 0. *)
Theorem reresolve_adds_padding_again
    (beatmap : Beatmap) (options : Options) (ctx : Context) (s e n : Q) :
  resolveOptions beatmap options = Ok ctx ->
  ctx_start ctx = Fin s -> ctx_end ctx = Fin e -> ctx_stripNum ctx = Fin n ->
  (0 < n <= inject_Z MAX_STRIP_NUM)%Q ->
  exists ctx',
    resolveOptions beatmap (reresolve options s e n) = Ok ctx'
    /\ ctx_start ctx' = ctx_start ctx
    /\ ctx_stripNum ctx' = ctx_stripNum ctx
    /\ ctx_stripWidth ctx' = ctx_stripWidth ctx
    /\ ctx_end ctx' = ctx_end ctx + padding options
    /\ (~ (time_scale (time_ options) == 0)%Q ->
        ctx_stripHeight ctx'
        =n= ctx_stripHeight ctx + Fin (note_height (note options)) / Fin n
        /\ (ctx_stripHeight ctx' =n= ctx_stripHeight ctx
            <-> (note_height (note options) == 0)%Q)).
Proof.
  intros H Hs He Hn Hrange.
  destruct (resolveOptions_inv _ _ _ H) as [_ [_ [Hfit [Hw [Hh _]]]]].
  apply fitTarget_valid in Hfit.
  set (o' := reresolve options s e n).
  assert (Hs' : resolveStart beatmap o' = Ok (Fin s)) by reflexivity.
  assert (Hn' : resolveStrip beatmap o' (Fin s) (resolveEnd beatmap o' (Fin s))
                = Ok (Fin n, Fin e + padding options)).
  { now rewrite (resolveStrip_num beatmap o' _ _ n eq_refl eq_refl Hrange). }
  destruct (fitTarget_total o'
              (computeLayout beatmap o' (Fin s) (Fin e + padding options) (Fin n)) Hfit)
    as [res Hfit'].
  destruct (resolveOptions_ok _ _ _ _ _ res Hs' Hn' Hfit')
    as [ctx' [Hctx' [Hcs [Hce Hcn]]]].
  destruct (resolveOptions_inv _ _ _ Hctx') as [_ [_ [_ [Hw' [Hh' _]]]]].
  exists ctx'. rewrite Hs, He, Hn in *. rewrite Hcs, Hce, Hcn in *.
  repeat (split; [first [assumption | reflexivity] |]).
  split; [rewrite Hw, Hw'; reflexivity |].
  split; [reflexivity |].
  intro Hsc. rewrite Hh, Hh'.
  unfold computeLayout, padding, stripHeight.
  change (time_scale (time_ o')) with (time_scale (time_ options)).
  set (sc := time_scale (time_ options)) in *.
  set (h := note_height (note options)).
  assert (Hn0 : ~ (n == 0)%Q) by lra.
  rewrite (div_fin h sc) by exact Hsc.
  cbn [add sub neg mul].
  rewrite !div_fin by exact Hn0.
  cbn [add eqv].
  assert (Heq : ((e + h / sc + - s) * sc / n == (e + - s) * sc / n + h / n)%Q)
    by (field; split; assumption).
  split; [exact Heq |].
  rewrite Heq. split; intro Hz.
  - assert (Hd : (h / n == 0)%Q) by lra.
    assert (Hm : (h / n * n == h)%Q) by (field; exact Hn0).
    rewrite Hd in Hm. lra.
  - rewrite Hz. field. exact Hn0.
Qed.

(** Witness for C5: the sample chart under the default options resolves to
    the window 0..3060 with 8 strips. *)
Lemma reresolve_adds_padding_again_witness :
  exists ctx,
    resolveOptions sampleBeatmap defaultOptions = Ok ctx
    /\ exists ctx',
         resolveOptions sampleBeatmap
           (reresolve defaultOptions 0 (3000 + 6 / (1 # 10)) 8) = Ok ctx'
         /\ ctx_start ctx' = ctx_start ctx
         /\ ctx_stripNum ctx' = ctx_stripNum ctx
         /\ ctx_stripWidth ctx' = ctx_stripWidth ctx
         /\ ctx_end ctx' = ctx_end ctx + padding defaultOptions
         /\ (~ (time_scale (time_ defaultOptions) == 0)%Q ->
             ctx_stripHeight ctx'
             =n= ctx_stripHeight ctx + Fin (note_height (note defaultOptions)) / Fin 8
             /\ (ctx_stripHeight ctx' =n= ctx_stripHeight ctx
                 <-> (note_height (note defaultOptions) == 0)%Q)).
Proof.
  eexists. split; [reflexivity |].
  apply (reresolve_adds_padding_again sampleBeatmap defaultOptions _
           0 (3000 + 6 / (1 # 10)) 8).
  - reflexivity.
  - reflexivity.
  - reflexivity.
  - reflexivity.
  - change (inject_Z MAX_STRIP_NUM) with 50%Q. lra.
Defined.

(** Counterexample to C5 as stated: re-resolving the sample chart's window
    0..3060 with 8 strips gives the end 3120 and taller strips. *)
Lemma reresolve_is_not_idempotent :
  ~ resolve_idempotent sampleBeatmap defaultOptions.
Proof.
  intro H.
  destruct (resolveOptions sampleBeatmap defaultOptions) as [ctx |] eqn:E;
    [| discriminate E].
  destruct (resolveOptions sampleBeatmap
              (reresolve defaultOptions 0 (3000 + 6 / (1 # 10)) 8))
    as [ctx' |] eqn:E'; [| discriminate E'].
  specialize (H ctx ctx' 0 (3000 + 6 / (1 # 10))%Q 8 E).
  vm_compute in E. injection E as <-.
  specialize (H eq_refl eq_refl eq_refl E').
  vm_compute in E'. injection E' as <-.
  destruct H as [_ [H _]]. vm_compute in H. discriminate H.
Qed.

(* ------------------------------------------------------------------------- *)
(** ** Fit to a target size *)

Lemma add_fin_inv (a : Q) (x : num) (b : Q) :
  Fin a + x = Fin b -> exists c, x = Fin c /\ b = (a + c)%Q.
Proof.
  destruct x as [c | | |]; cbn [add]; intro H; try discriminate.
  injection H as <-. eauto.
Qed.

(** One axis of the fit: with a finite pre-fit total [t = 2 m + c > 0], a
    target [T > 0] and a final scale [f <> 0] with [f <= T / t], the grown
    margin [m'] is at least [m] and the refitted total, scaled, is within
    the target. *)
Lemma fit_axis (m c t T f : Q) :
  (t == m * 2 + c)%Q -> (0 < t)%Q -> (0 < T)%Q -> ~ (f == 0)%Q -> (f <= T / t)%Q ->
  exists m',
    max (Fin m) ((Fin T / Fin f - Fin c) / Fin 2) = Fin m'
    /\ (m <= m')%Q
    /\ ((m' * 2 + c) * f <= T)%Q.
Proof.
  intros Ht Htpos HT Hf Hle.
  rewrite div_fin by exact Hf.
  change (Fin (T / f) - Fin c) with (Fin (T / f - c)%Q).
  rewrite div_fin by lra.
  destruct (max_fin m ((T / f - c) / 2)) as [m' [-> [H1 [H2 H3]]]].
  exists m'. split; [reflexivity |]. split; [exact H1 |].
  assert (Hx : (T / t * t == T)%Q) by (field; lra).
  assert (Hy : (T / f * f == T)%Q) by (field; exact Hf).
  assert (Hz : ((T / f - c) / 2 * 2 == T / f - c)%Q) by (field; exact Hf).
  destruct H3 as [H3 | H3].
  - rewrite H3, <- Ht.
    destruct (Qlt_le_dec 0 f) as [Hpos | Hneg]; nra.
  - rewrite H3, Hz. lra.
Qed.

(** The fit on a layout with finite, positive totals and a non-zero
    configured final scale. *)
Lemma fitTarget_fit (options : Options) (L : Layout)
    (W H tw th cw ch : Q) res :
  layout_targetSize (layout options) = Some (W, H) ->
  ~ (layout_finalScale (layout options) == 0)%Q ->
  totalWidth L = Fin tw -> contentWidth L = Fin cw ->
  totalHeight L = Fin th -> contentHeight L = Fin ch ->
  (tw == fst (layout_margin (layout options)) * 2 + cw)%Q ->
  (th == snd (layout_margin (layout options)) * 2 + ch)%Q ->
  (0 < tw)%Q -> (0 < th)%Q ->
  fitTarget options L = Ok res ->
  ((MIN_TARGET_DIM <= W <= MAX_TARGET_DIM)%Q
   /\ (MIN_TARGET_DIM <= H <= MAX_TARGET_DIM)%Q)
  /\ exists f m0 m1,
       res = (Fin f, (Fin m0, Fin m1), Fin (m0 * 2 + cw)%Q, Fin (m1 * 2 + ch)%Q)
       /\ Fin f = min (min (Fin (layout_finalScale (layout options))) (Fin W / Fin tw))
                      (Fin H / Fin th)
       /\ (f <= layout_finalScale (layout options))%Q
       /\ (fst (layout_margin (layout options)) <= m0)%Q
       /\ (snd (layout_margin (layout options)) <= m1)%Q
       /\ ((m0 * 2 + cw) * f <= W)%Q
       /\ ((m1 * 2 + ch) * f <= H)%Q.
Proof.
  intros Hts Hfs Htw Ecw Hth Ech Etw Eth Htwpos Hthpos Hfit.
  pose proof (fitTarget_valid _ _ _ Hfit) as Hvalid.
  unfold targetSizeValid in Hvalid. rewrite Hts in Hvalid.
  destruct Hvalid as [HW HH].
  split; [now split |].
  unfold fitTarget in Hfit. rewrite Hts in Hfit.
  rewrite (target_guard_false W H HW HH) in Hfit.
  cbv zeta in Hfit. rewrite Htw, Hth, Ecw, Ech in Hfit. cbn [fst snd] in Hfit.
  unfold MIN_TARGET_DIM, MAX_TARGET_DIM in *.
  rewrite (div_fin W tw) in Hfit |- * by lra.
  rewrite (div_fin H th) in Hfit |- * by lra.
  set (fs := layout_finalScale (layout options)) in *.
  destruct (min_fin fs (W / tw)) as [f1 [E1 [H1a [H1b H1c]]]].
  rewrite E1 in Hfit |- *.
  destruct (min_fin f1 (H / th)) as [f [E2 [H2a [H2b H2c]]]].
  rewrite E2 in Hfit |- *.
  assert (HWt : (0 < W / tw)%Q) by (apply Qlt_shift_div_l; lra).
  assert (HHt : (0 < H / th)%Q) by (apply Qlt_shift_div_l; lra).
  assert (Hf : ~ (f == 0)%Q).
  { destruct H2c as [-> | ->]; [destruct H1c as [-> | ->] |]; lra. }
  destruct (fit_axis (fst (layout_margin (layout options))) cw tw W f)
    as [m0 [Em0 [Hm0 Hb0]]]; try lra.
  destruct (fit_axis (snd (layout_margin (layout options))) ch th H f)
    as [m1 [Em1 [Hm1 Hb1]]]; try lra.
  rewrite Em0, Em1 in Hfit. cbn [mul add] in Hfit.
  injection Hfit as <-.
  exists f, m0, m1. repeat split; try assumption; try reflexivity. lra.
Qed.

(** C3 (amended).  With [layout.targetSize = [W, H]] accepted by the
    resolver (each in [32, 20000]), a non-zero configured [finalScale] and
    finite, positive pre-fit totals, the result's final scale is
    [min(finalScale, W / totalWidth, H / totalHeight)] on the pre-fit
    totals and does not exceed the configured one, each margin is at least
    the configured margin, and the refitted totals times the final scale
    are within [W] and [H]. *)
Theorem target_fit_bounds
    (beatmap : Beatmap) (options : Options) (ctx : Context) (W H tw th : Q) :
  resolveOptions beatmap options = Ok ctx ->
  layout_targetSize (layout options) = Some (W, H) ->
  ~ (layout_finalScale (layout options) == 0)%Q ->
  totalWidth (computeLayout beatmap options (ctx_start ctx) (ctx_end ctx)
                (ctx_stripNum ctx)) = Fin tw ->
  totalHeight (computeLayout beatmap options (ctx_start ctx) (ctx_end ctx)
                 (ctx_stripNum ctx)) = Fin th ->
  (0 < tw)%Q -> (0 < th)%Q ->
  ((MIN_TARGET_DIM <= W <= MAX_TARGET_DIM)%Q
   /\ (MIN_TARGET_DIM <= H <= MAX_TARGET_DIM)%Q)
  /\ ctx_finalScale ctx
     = min (min (Fin (layout_finalScale (layout options))) (Fin W / Fin tw))
           (Fin H / Fin th)
  /\ exists f m0 m1 tw' th',
       ctx_finalScale ctx = Fin f
       /\ (f <= layout_finalScale (layout options))%Q
       /\ ctx_margin ctx = (Fin m0, Fin m1)
       /\ (fst (layout_margin (layout options)) <= m0)%Q
       /\ (snd (layout_margin (layout options)) <= m1)%Q
       /\ ctx_totalWidth ctx = Fin tw'
       /\ ctx_totalHeight ctx = Fin th'
       /\ (tw' * f <= W)%Q
       /\ (th' * f <= H)%Q.
Proof.
  intros Hres Hts Hfs Htw Hth Htwpos Hthpos.
  destruct (resolveOptions_inv _ _ _ Hres) as [_ [_ [Hfit _]]].
  set (L := computeLayout beatmap options (ctx_start ctx) (ctx_end ctx)
              (ctx_stripNum ctx)) in *.
  destruct (add_fin_inv _ _ _ Htw) as [cw [Ecw Etw]].
  destruct (add_fin_inv _ _ _ Hth) as [ch [Ech Eth]].
  assert (Etw' : (tw == fst (layout_margin (layout options)) * 2 + cw)%Q)
    by (rewrite Etw; reflexivity).
  assert (Eth' : (th == snd (layout_margin (layout options)) * 2 + ch)%Q)
    by (rewrite Eth; reflexivity).
  destruct (fitTarget_fit options L W H tw th cw ch _ Hts Hfs Htw Ecw Hth Ech
              Etw' Eth' Htwpos Hthpos Hfit)
    as [Hrange [f [m0 [m1 [Eres [Emin [Hle [Hm0 [Hm1 [Hb0 Hb1]]]]]]]]]].
  injection Eres as Ef Em Etot Etoh.
  split; [exact Hrange |]. split; [rewrite Ef; exact Emin |].
  exists f, m0, m1, (m0 * 2 + cw)%Q, (m1 * 2 + ch)%Q.
  rewrite Ef, Etot, Etoh.
  repeat split; assumption.
Qed.

(** Witness for C3: the 50 x 50 chart fitted into 100 x 100 at a configured
    scale of 1; the scale stays 1 and both margins grow to 25. *)
Lemma target_fit_bounds_witness :
  exists ctx,
    resolveOptions emptyBeatmap (fitOptions 1) = Ok ctx
    /\ ((MIN_TARGET_DIM <= 100 <= MAX_TARGET_DIM)%Q
        /\ (MIN_TARGET_DIM <= 100 <= MAX_TARGET_DIM)%Q)
    /\ ctx_finalScale ctx
       = min (min (Fin (layout_finalScale (layout (fitOptions 1)))) (Fin 100 / Fin 50))
             (Fin 100 / Fin 50)
    /\ exists f m0 m1 tw' th',
         ctx_finalScale ctx = Fin f
         /\ (f <= layout_finalScale (layout (fitOptions 1)))%Q
         /\ ctx_margin ctx = (Fin m0, Fin m1)
         /\ (fst (layout_margin (layout (fitOptions 1))) <= m0)%Q
         /\ (snd (layout_margin (layout (fitOptions 1))) <= m1)%Q
         /\ ctx_totalWidth ctx = Fin tw'
         /\ ctx_totalHeight ctx = Fin th'
         /\ (tw' * f <= 100)%Q
         /\ (th' * f <= 100)%Q.
Proof.
  eexists. split; [reflexivity |].
  apply (target_fit_bounds emptyBeatmap (fitOptions 1) _ 100 100 50 50).
  - reflexivity.
  - reflexivity.
  - simpl. lra.
  - reflexivity.
  - reflexivity.
  - lra.
  - lra.
Defined.

(** Counterexample to C3 as stated: with a configured final scale of 0 the
    fit divides by it; margins and totals become infinite and the scaled
    total is [NaN], which is not within the target. *)
Lemma zero_scale_breaks_target_fit :
  ~ target_fit_holds emptyBeatmap (fitOptions 0).
Proof.
  intro H.
  destruct (resolveOptions emptyBeatmap (fitOptions 0)) as [ctx |] eqn:E;
    [| discriminate E].
  specialize (H ctx 100 100 E eq_refl).
  vm_compute in E. injection E as <-.
  destruct H as [_ [_ [_ [_ [H _]]]]].
  - simpl. lra.
  - simpl. lra.
  - vm_compute in H. discriminate H.
Qed.

(* ------------------------------------------------------------------------- *)
(** ** The context invariant *)

Section Invariant.

Variable beatmap : Beatmap.
Variable options : Options.
Hypothesis sane : saneOptions beatmap options.

(** The padded end lies after the start. *)
Lemma resolveEnd_after_start (s : Q) :
  resolveStart beatmap options = Ok (Fin s) ->
  exists e0, resolveEnd beatmap options (Fin s) = Fin e0 /\ (s < e0)%Q.
Proof.
  intro Hs. destruct sane.
  unfold resolveEnd, padding.
  rewrite div_fin by lra.
  assert (Hp : (0 < note_height (note options) / time_scale (time_ options))%Q)
    by (apply Qlt_shift_div_l; lra).
  unfold baseEnd.
  destruct (time_end (time_ options)) as [| e] eqn:Ee.
  - destruct (fold_max_notes (notes beatmap) s) as [m [-> [Hm _]]].
    eexists. split; [reflexivity |]. lra.
  - specialize (sane_window0 s e Hs eq_refl).
    eexists. split; [reflexivity |]. lra.
Qed.

(** The strip count and end of the three modes; the ['ratio'] search is
    taken with a result within the range the other two modes enforce. *)
Lemma resolveStrip_sane (s e0 : Q) (n e : num) :
  (s < e0)%Q ->
  resolveStrip beatmap options (Fin s) (Fin e0) = Ok (n, e) ->
  (strip_mode (strip options) = ModeRatio ->
   (Fin 1 <=? n) = true /\ (n <=? Fin (inject_Z MAX_STRIP_NUM)) = true) ->
  exists nq eq,
    n = Fin nq /\ e = Fin eq
    /\ (1 <= nq <= inject_Z MAX_STRIP_NUM)%Q /\ (s < eq)%Q.
Proof.
  intros Hse. destruct sane.
  destruct (strip_mode (strip options)) eqn:Em.
  - unfold resolveStrip. rewrite Em.
    destruct (strip_num (strip options)) as [k |] eqn:Ek; [| discriminate].
    destruct (_ || _) eqn:Eg; [discriminate |].
    intros H _; injection H as <- <-.
    apply orb_false_iff in Eg as [H0 H50].
    apply le_fin_false in H0. apply gt_fin_false in H50.
    destruct (sane_num0 k eq_refl) as [z Hz].
    exists k, e0. repeat split; try assumption.
    rewrite Hz in H0 |- *. change 0%Q with (inject_Z 0) in H0.
    change 1%Q with (inject_Z 1).
    rewrite <- Zlt_Qlt in H0. rewrite <- Zle_Qle. lia.
  - destruct (strip_time (strip options)) as [d |] eqn:Ed.
    + destruct (Qlt_le_dec 0 d) as [Hd | Hd].
      * rewrite (resolveStrip_time beatmap options s e0 d Em Ed Hd). cbv zeta.
        set (z := Z.min (Qceiling ((e0 - s) / d)) MAX_STRIP_NUM).
        destruct (z <=? 0)%Z eqn:Ez; [discriminate |].
        intros H _; injection H as <- <-.
        apply Z.leb_gt in Ez.
        assert (Hz1 : (1 <= inject_Z z)%Q)
          by (change 1%Q with (inject_Z 1); rewrite <- Zle_Qle; lia).
        assert (Hz50 : (inject_Z z <= inject_Z MAX_STRIP_NUM)%Q)
          by (rewrite <- Zle_Qle; unfold z; lia).
        eexists _, _. repeat split; try assumption. nra.
      * unfold resolveStrip. rewrite Em, Ed.
        apply le_fin in Hd. rewrite Hd. discriminate.
    + unfold resolveStrip. rewrite Em, Ed. discriminate.
  - unfold resolveStrip. rewrite Em.
    destruct (strip_ratio (strip options)) as [r |]; [| discriminate].
    destruct (_ <=? _); [discriminate |].
    destruct (_ >? _); [discriminate |].
    intros H Hrange; injection H as <- <-.
    destruct (Hrange eq_refl) as [H1 H50].
    apply le_fin in H1, H50.
    eexists _, _. repeat split; try reflexivity; assumption.
  - unfold resolveStrip. rewrite Em. discriminate.
Qed.

(** The layout of a forward window at a positive count. *)
Lemma computeLayout_positive (s e n : Q) :
  (s < e)%Q -> (0 < n)%Q ->
  exists sw sh cw tw th,
    computeLayout beatmap options (Fin s) (Fin e) (Fin n)
    = mkLayout (Fin sw) (Fin sh) (Fin cw) (Fin sh) (Fin tw) (Fin th)
    /\ (0 < sw)%Q /\ (0 < sh)%Q /\ (0 < cw)%Q
    /\ (tw == fst (layout_margin (layout options)) * 2 + cw)%Q
    /\ (th == snd (layout_margin (layout options)) * 2 + sh)%Q.
Proof.
  intros Hse Hn. destruct sane.
  unfold computeLayout. cbv zeta.
  change (Fin e - Fin s) with (Fin (e - s)%Q). cbn [mul add].
  rewrite div_fin by lra. cbn [mul add].
  eexists _, _, _, _, _. split; [reflexivity |].
  repeat split; try reflexivity.
  - exact sane_width0.
  - apply Qlt_shift_div_l; [exact Hn | nra].
  - nra.
Qed.

End Invariant.

(** C2 (amended).  For sane option values, every normal return of the
    resolver, with ['auto'] or explicit window ends and with or without a
    target size, in the ['num'] and ['time'] modes, and in the ['ratio'] mode
    when the search ends on a count within 1..50, satisfies the context
    invariant: [end > start], a strip count within 1..50, and finite,
    positive strip width, strip height, total width and total height. *)
Theorem sane_context_invariant
    (beatmap : Beatmap) (options : Options) (ctx : Context) :
  resolveOptions beatmap options = Ok ctx ->
  saneOptions beatmap options ->
  (strip_mode (strip options) = ModeRatio ->
   (Fin 1 <=? ctx_stripNum ctx) = true
   /\ (ctx_stripNum ctx <=? Fin (inject_Z MAX_STRIP_NUM)) = true) ->
  context_invariant ctx.
Proof.
  intros Hres Hsane Hmode.
  destruct (resolveOptions_inv _ _ _ Hres) as [Hs [Hn [Hfit [Hw [Hh _]]]]].
  destruct (resolveStart_finite _ _ _ Hs) as [s Es]. rewrite Es in *.
  destruct (resolveEnd_after_start beatmap options Hsane s Hs) as [e0 [Ee0 Hse0]].
  rewrite Ee0 in Hn.
  destruct (resolveStrip_sane beatmap options Hsane s e0 _ _ Hse0 Hn Hmode)
    as [nq [eq [En [Ee [[Hn1 Hn50] Hse]]]]].
  rewrite En, Ee in *.
  destruct (computeLayout_positive beatmap options Hsane s eq nq Hse)
    as [sw [sh [cw [tw [th [EL [Hsw [Hsh [Hcw [Etw Eth]]]]]]]]]]; [lra |].
  rewrite EL in *. cbn [stripWidth stripHeight] in Hw, Hh.
  destruct Hsane.
  assert (Htot : fin_pos (ctx_totalWidth ctx) /\ fin_pos (ctx_totalHeight ctx)).
  { destruct (layout_targetSize (layout options)) as [[W H] |] eqn:Ets.
    - assert (Htwpos : (0 < tw)%Q) by lra.
      assert (Hthpos : (0 < th)%Q) by lra.
      destruct (fitTarget_fit options
                  (mkLayout (Fin sw) (Fin sh) (Fin cw) (Fin sh) (Fin tw) (Fin th))
                  W H tw th cw sh _ Ets sane_finalScale0
                  eq_refl eq_refl eq_refl eq_refl Etw Eth Htwpos Hthpos Hfit)
        as [_ [f [m0 [m1 [Eres [_ [_ [Hm0 [Hm1 _]]]]]]]]].
      injection Eres as _ _ -> ->.
      split; eexists; (split; [reflexivity | lra]).
    - unfold fitTarget in Hfit. rewrite Ets in Hfit.
      cbn [totalWidth totalHeight] in Hfit. injection Hfit as _ _ <- <-.
      split; eexists; (split; [reflexivity | lra]). }
  destruct Htot as [Htw Hth].
  unfold context_invariant. rewrite Es, Ee, En, Hw, Hh.
  repeat split; try assumption.
  - now apply lt_fin.
  - now apply le_fin.
  - now apply le_fin.
  - eexists; split; [reflexivity | exact Hsw].
  - eexists; split; [reflexivity | exact Hsh].
Qed.

Lemma ratioOptions_sane (beatmap : Beatmap) (r : Q) :
  (0 <= keys beatmap)%Z -> saneOptions beatmap (ratioOptions r).
Proof.
  intro Hk.
  assert (Hq : (0 <= inject_Z (keys beatmap))%Q)
    by (change 0%Q with (inject_Z 0); now rewrite <- Zle_Qle).
  constructor; cbn; try lra.
  - discriminate.
  - intros n H. injection H as <-. now exists 8%Z.
Qed.

(** Witness for C2: the sample chart in ['ratio'] mode with the default
    target 3/2, which resolves to two strips. *)
Lemma sane_context_invariant_witness :
  exists ctx,
    resolveOptions sampleBeatmap (ratioOptions (3 # 2)) = Ok ctx
    /\ context_invariant ctx.
Proof.
  eexists. split; [reflexivity |].
  apply (sane_context_invariant sampleBeatmap (ratioOptions (3 # 2))).
  - reflexivity.
  - apply ratioOptions_sane. simpl. lia.
  - intros _. split; vm_compute; reflexivity.
Defined.

(** Counterexample to C2 as stated: an explicit window given backwards
    (start 1000, end 0) is resolved without complaint, to the window
    1000..60 and strips of negative height. *)
Lemma backwards_window_breaks_invariant :
  ~ resolver_keeps_invariant sampleBeatmap backwardsWindow.
Proof.
  intro H.
  destruct (resolveOptions sampleBeatmap backwardsWindow) as [ctx |] eqn:E;
    [| discriminate E].
  specialize (H ctx E).
  vm_compute in E. injection E as <-.
  destruct H as [H _]. vm_compute in H. discriminate H.
Qed.

(** The ['ratio'] search can leave the range 1..50.  On the 50 x 50 chart a
    target of 2/5 is met by one strip (ratio 1) but is closer to the initial
    [lastRatio = 0], so the count is decremented to 0 and the strip height
    is infinite. *)
Example ratio_search_returns_zero :
  exists ctx,
    resolveOptions emptyBeatmap (squareOptions ModeRatio (2 # 5)) = Ok ctx
    /\ ctx_stripNum ctx =n= Fin 0
    /\ ctx_stripHeight ctx = PInf.
Proof.
  eexists. split; [reflexivity |]. split; vm_compute; reflexivity.
Qed.

(** On the ten-minute chart under the default sizes no count up to 50
    reaches the target ratio 5, and the loop is left with the count 51. *)
Example ratio_search_passes_cap :
  exists ctx,
    resolveOptions longBeatmap (ratioOptions 5) = Ok ctx
    /\ ctx_stripNum ctx =n= Fin 51.
Proof.
  eexists. split; [reflexivity |]. vm_compute. reflexivity.
Qed.

(* ------------------------------------------------------------------------- *)
(** ** More on the resolver: the ['num'] mode and the target-size guard *)

(** X1.  In ['num'] mode (after the start is resolved and with an acceptable
    target size) the resolver accepts exactly the counts in (0, 50]: a
    missing [strip.num] and a count outside that range throw, and a count
    inside it is returned unchanged, with the padded end as the window end. *)
Theorem num_mode_strip_count
    (beatmap : Beatmap) (options : Options) (s : num) :
  strip_mode (strip options) = ModeNum ->
  resolveStart beatmap options = Ok s ->
  targetSizeValid options ->
  (strip_num (strip options) = None ->
   resolveOptions beatmap options = Throw Error_stripNumMissing)
  /\ (forall n, strip_num (strip options) = Some n ->
      (n <= 0 \/ inject_Z MAX_STRIP_NUM < n)%Q ->
      resolveOptions beatmap options = Throw Error_stripNumInvalid)
  /\ (forall n, strip_num (strip options) = Some n ->
      (0 < n <= inject_Z MAX_STRIP_NUM)%Q ->
      exists ctx,
        resolveOptions beatmap options = Ok ctx
        /\ ctx_start ctx = s
        /\ ctx_stripNum ctx = Fin n
        /\ ctx_end ctx = resolveEnd beatmap options s).
Proof.
  intros Hm Hs Hts. split; [| split].
  - intro Hn. apply (resolveOptions_strip_throws _ _ s); [exact Hs |].
    unfold resolveStrip. now rewrite Hm, Hn.
  - intros n Hn Hout. apply (resolveOptions_strip_throws _ _ s); [exact Hs |].
    unfold resolveStrip. rewrite Hm, Hn.
    destruct Hout as [H0 | H50].
    + apply le_fin in H0. now rewrite H0.
    + apply gt_fin in H50. rewrite H50. now rewrite orb_true_r.
  - intros n Hn Hin.
    pose proof (resolveStrip_num beatmap options s (resolveEnd beatmap options s)
                  n Hm Hn Hin) as Hstrip.
    destruct (fitTarget_total options
                (computeLayout beatmap options s (resolveEnd beatmap options s) (Fin n))
                Hts) as [res Hfit].
    destruct (resolveOptions_ok _ _ _ _ _ res Hs Hstrip Hfit)
      as [ctx [Hctx [Hcs [Hce Hcn]]]].
    exists ctx. auto.
Qed.

Lemma num_mode_strip_count_witness :
  (strip_num (strip defaultOptions) = None ->
   resolveOptions sampleBeatmap defaultOptions = Throw Error_stripNumMissing)
  /\ (forall n, strip_num (strip defaultOptions) = Some n ->
      (n <= 0 \/ inject_Z MAX_STRIP_NUM < n)%Q ->
      resolveOptions sampleBeatmap defaultOptions = Throw Error_stripNumInvalid)
  /\ (forall n, strip_num (strip defaultOptions) = Some n ->
      (0 < n <= inject_Z MAX_STRIP_NUM)%Q ->
      exists ctx,
        resolveOptions sampleBeatmap defaultOptions = Ok ctx
        /\ ctx_start ctx = Fin 0
        /\ ctx_stripNum ctx = Fin n
        /\ ctx_end ctx = resolveEnd sampleBeatmap defaultOptions (Fin 0)).
Proof.
  apply (num_mode_strip_count sampleBeatmap defaultOptions (Fin 0)).
  - reflexivity.
  - reflexivity.
  - exact I.
Defined.

(** X2.  A target size with a dimension outside [32, 20000] never yields a
    context; once the start and the strip count are resolved, the error is
    the target-size error. *)
Theorem target_out_of_range_rejected
    (beatmap : Beatmap) (options : Options) (W H : Q) :
  layout_targetSize (layout options) = Some (W, H) ->
  (W < MIN_TARGET_DIM \/ MAX_TARGET_DIM < W
   \/ H < MIN_TARGET_DIM \/ MAX_TARGET_DIM < H)%Q ->
  (forall ctx, resolveOptions beatmap options <> Ok ctx)
  /\ (forall s n e,
        resolveStart beatmap options = Ok s ->
        resolveStrip beatmap options s (resolveEnd beatmap options s) = Ok (n, e) ->
        resolveOptions beatmap options = Throw Error_targetSize).
Proof.
  intros Hts Hout.
  assert (Hinvalid : ~ targetSizeValid options).
  { unfold targetSizeValid. rewrite Hts. intros [[H1 H2] [H3 H4]].
    destruct Hout as [Ho | [Ho | [Ho | Ho]]]; lra. }
  split.
  - intros ctx Hctx.
    destruct (resolveOptions_inv _ _ _ Hctx) as [_ [_ [Hfit _]]].
    apply fitTarget_valid in Hfit. contradiction.
  - intros s n e Hs Hn. unfold resolveOptions.
    rewrite Hs. cbn [bind]. rewrite Hn. cbn [bind].
    destruct (fitTarget options _) as [res |] eqn:Ef.
    + apply fitTarget_valid in Ef. contradiction.
    + apply fitTarget_throws in Ef. now subst.
Qed.

Lemma target_out_of_range_rejected_witness :
  (forall ctx, resolveOptions emptyBeatmap narrowTarget <> Ok ctx)
  /\ (forall s n e,
        resolveStart emptyBeatmap narrowTarget = Ok s ->
        resolveStrip emptyBeatmap narrowTarget s
          (resolveEnd emptyBeatmap narrowTarget s) = Ok (n, e) ->
        resolveOptions emptyBeatmap narrowTarget = Throw Error_targetSize).
Proof.
  apply (target_out_of_range_rejected emptyBeatmap narrowTarget 31 100).
  - reflexivity.
  - left. unfold MIN_TARGET_DIM. lra.
Defined.

(* ------------------------------------------------------------------------- *)
(** ** More on the fit: the target is met exactly *)

(** One axis with a positive final scale: the grown margin makes the
    refitted total, scaled, equal to the target. *)
Lemma fit_axis_exact (m c t T f : Q) :
  (t == m * 2 + c)%Q -> (0 < t)%Q -> (0 < T)%Q -> (0 < f)%Q -> (f <= T / t)%Q ->
  exists m',
    max (Fin m) ((Fin T / Fin f - Fin c) / Fin 2) = Fin m'
    /\ ((m' * 2 + c) * f == T)%Q.
Proof.
  intros Ht Htpos HT Hf Hle.
  rewrite div_fin by lra.
  change (Fin (T / f) - Fin c) with (Fin (T / f - c)%Q).
  rewrite div_fin by lra.
  destruct (max_fin m ((T / f - c) / 2)) as [m' [-> [H1 [H2 H3]]]].
  exists m'. split; [reflexivity |].
  assert (Hx : (T / t * t == T)%Q) by (field; lra).
  assert (Hy : (T / f * f == T)%Q) by (field; lra).
  assert (Hz : ((T / f - c) / 2 * 2 == T / f - c)%Q) by (field; lra).
  assert (Htf : (t * f <= T)%Q) by nra.
  assert (Hge : (m * 2 + c <= T / f)%Q).
  { rewrite <- Ht. apply Qle_shift_div_l; [exact Hf | exact Htf]. }
  assert (Hm' : (m' * 2 + c == T / f)%Q).
  { destruct H3 as [H3 | H3]; [| rewrite H3, Hz; ring].
    assert ((T / f - c) / 2 <= m)%Q by (rewrite <- H3; exact H2).
    lra. }
  rewrite Hm'. exact Hy.
Qed.

(** X3.  With a target size, a positive configured final scale and finite,
    positive pre-fit totals, the margins are grown so that the scaled canvas
    is exactly the target: [totalWidth * finalScale = W] and
    [totalHeight * finalScale = H], with a positive final scale. *)
Theorem target_fit_exact
    (beatmap : Beatmap) (options : Options) (ctx : Context) (W H tw th : Q) :
  resolveOptions beatmap options = Ok ctx ->
  layout_targetSize (layout options) = Some (W, H) ->
  (0 < layout_finalScale (layout options))%Q ->
  totalWidth (computeLayout beatmap options (ctx_start ctx) (ctx_end ctx)
                (ctx_stripNum ctx)) = Fin tw ->
  totalHeight (computeLayout beatmap options (ctx_start ctx) (ctx_end ctx)
                 (ctx_stripNum ctx)) = Fin th ->
  (0 < tw)%Q -> (0 < th)%Q ->
  exists f tw' th',
    ctx_finalScale ctx = Fin f /\ (0 < f)%Q
    /\ ctx_totalWidth ctx = Fin tw' /\ ctx_totalHeight ctx = Fin th'
    /\ (tw' * f == W)%Q /\ (th' * f == H)%Q.
Proof.
  intros Hres Hts Hfs Htw Hth Htwpos Hthpos.
  destruct (resolveOptions_inv _ _ _ Hres) as [_ [_ [Hfit _]]].
  set (L := computeLayout beatmap options (ctx_start ctx) (ctx_end ctx)
              (ctx_stripNum ctx)) in *.
  destruct (add_fin_inv _ _ _ Htw) as [cw [Ecw Etw]].
  destruct (add_fin_inv _ _ _ Hth) as [ch [Ech Eth]].
  change (contentWidth L = Fin cw) in Ecw.
  change (contentHeight L = Fin ch) in Ech.
  pose proof (fitTarget_valid _ _ _ Hfit) as Hvalid.
  unfold targetSizeValid in Hvalid. rewrite Hts in Hvalid.
  destruct Hvalid as [HW HH].
  unfold fitTarget in Hfit. rewrite Hts in Hfit.
  rewrite (target_guard_false W H HW HH) in Hfit.
  cbv zeta in Hfit. rewrite Htw, Hth, Ecw, Ech in Hfit. cbn [fst snd] in Hfit.
  unfold MIN_TARGET_DIM, MAX_TARGET_DIM in *.
  rewrite (div_fin W tw) in Hfit by lra.
  rewrite (div_fin H th) in Hfit by lra.
  set (fs := layout_finalScale (layout options)) in *.
  destruct (min_fin fs (W / tw)) as [f1 [E1 [H1a [H1b H1c]]]].
  rewrite E1 in Hfit.
  destruct (min_fin f1 (H / th)) as [f [E2 [H2a [H2b H2c]]]].
  rewrite E2 in Hfit.
  assert (HWt : (0 < W / tw)%Q) by (apply Qlt_shift_div_l; lra).
  assert (HHt : (0 < H / th)%Q) by (apply Qlt_shift_div_l; lra).
  assert (Hf : (0 < f)%Q).
  { destruct H2c as [-> | ->]; [destruct H1c as [-> | ->] |]; lra. }
  destruct (fit_axis_exact (fst (layout_margin (layout options))) cw tw W f)
    as [m0 [Em0 Hb0]]; try lra.
  { rewrite Etw. reflexivity. }
  destruct (fit_axis_exact (snd (layout_margin (layout options))) ch th H f)
    as [m1 [Em1 Hb1]]; try lra.
  { rewrite Eth. reflexivity. }
  rewrite Em0, Em1 in Hfit. cbn [mul add] in Hfit.
  injection Hfit as <- _ <- <-.
  exists f, (m0 * 2 + cw)%Q, (m1 * 2 + ch)%Q.
  repeat split; try assumption; reflexivity.
Qed.

Lemma target_fit_exact_witness :
  exists ctx,
    resolveOptions emptyBeatmap (fitOptions (1 # 2)) = Ok ctx
    /\ exists f tw' th',
         ctx_finalScale ctx = Fin f /\ (0 < f)%Q
         /\ ctx_totalWidth ctx = Fin tw' /\ ctx_totalHeight ctx = Fin th'
         /\ (tw' * f == 100)%Q /\ (th' * f == 100)%Q.
Proof.
  eexists. split; [reflexivity |].
  apply (target_fit_exact emptyBeatmap (fitOptions (1 # 2)) _ 100 100 50 50).
  - reflexivity.
  - reflexivity.
  - simpl. lra.
  - reflexivity.
  - reflexivity.
  - lra.
  - lra.
Defined.

(* ------------------------------------------------------------------------- *)
(** ** More on the ['ratio'] mode *)

Lemma computeLayout_fin (beatmap : Beatmap) (options : Options) (s e n : Q) :
  ~ (n == 0)%Q ->
  computeLayout beatmap options (Fin s) (Fin e) (Fin n)
  = mkLayout (Fin (stripWidthQ beatmap options))
             (Fin (windowHeight options s e / n)%Q)
             (Fin (n * stripWidthQ beatmap options)%Q)
             (Fin (windowHeight options s e / n)%Q)
             (Fin (fst (layout_margin (layout options)) * 2
                   + n * stripWidthQ beatmap options)%Q)
             (Fin (snd (layout_margin (layout options)) * 2
                   + windowHeight options s e / n)%Q).
Proof.
  intro Hn. unfold computeLayout. cbv zeta.
  change (Fin e - Fin s) with (Fin (e - s)%Q). cbn [mul add].
  rewrite div_fin by exact Hn. reflexivity.
Qed.

Section RatioMonotone.

Variable beatmap : Beatmap.
Variable options : Options.
Variables s e : Q.
Hypothesis width_pos : (0 < stripWidthQ beatmap options)%Q.
Hypothesis scale_pos : (0 < time_scale (time_ options))%Q.
Hypothesis margin0_nonneg : (0 <= fst (layout_margin (layout options)))%Q.
Hypothesis margin1_nonneg : (0 <= snd (layout_margin (layout options)))%Q.
Hypothesis window_forward : (s < e)%Q.

Lemma windowHeight_pos : (0 < windowHeight options s e)%Q.
Proof. unfold windowHeight. nra. Qed.

Lemma inject_Z_pos (k : Z) : (1 <= k)%Z -> (1 <= inject_Z k)%Q.
Proof. intro H. change 1%Q with (inject_Z 1). now rewrite <- Zle_Qle. Qed.

(** The ratio the search computes is the rational [canvasRatioQ], with a
    positive numerator and denominator. *)
Lemma canvasRatio_fin (k : Z) :
  (1 <= k)%Z ->
  canvasRatio beatmap options (Fin s) (Fin e) k
  = Fin (canvasRatioQ beatmap options s e k)
  /\ (0 < canvasRatioQ beatmap options s e k)%Q.
Proof.
  intro Hk. pose proof (inject_Z_pos k Hk) as Hq.
  pose proof windowHeight_pos as Hh.
  assert (Hd : (0 < windowHeight options s e / inject_Z k)%Q)
    by (apply Qlt_shift_div_l; lra).
  unfold canvasRatio, ratioAt.
  rewrite computeLayout_fin by lra. cbn [totalWidth totalHeight].
  rewrite div_fin by lra.
  split; [reflexivity |].
  unfold canvasRatioQ. apply Qlt_shift_div_l; nra.
Qed.

Lemma canvasRatioQ_increasing (j k : Z) :
  (1 <= j < k)%Z ->
  (canvasRatioQ beatmap options s e j < canvasRatioQ beatmap options s e k)%Q.
Proof.
  intros [Hj Hjk].
  pose proof (inject_Z_pos j Hj) as Hqj.
  assert (Hqk : (inject_Z j < inject_Z k)%Q) by now rewrite <- Zlt_Qlt.
  pose proof windowHeight_pos as Hh.
  set (h := windowHeight options s e) in *.
  set (w := stripWidthQ beatmap options) in *.
  set (qj := inject_Z j) in *. set (qk := inject_Z k) in *.
  assert (Hhj : (h / qj * qj == h)%Q) by (field; lra).
  assert (Hhk : (h / qk * qk == h)%Q) by (field; lra).
  assert (Hdk : (0 < h / qk)%Q) by (apply Qlt_shift_div_l; lra).
  assert (Hdj : (h / qk < h / qj)%Q).
  { apply Qlt_shift_div_l; [lra |].
    assert (Hx : (h / qk * qj < h / qk * qk)%Q) by nra. lra. }
  unfold canvasRatioQ. fold h w qj qk.
  set (m0 := fst (layout_margin (layout options))) in *.
  set (m1 := snd (layout_margin (layout options))) in *.
  set (dj := (h / qj)%Q) in *. set (dk := (h / qk)%Q) in *.
  apply Qlt_shift_div_l; [lra |].
  assert (Hy : ((m0 * 2 + qj * w) / (m1 * 2 + dj) * (m1 * 2 + dj)
                == m0 * 2 + qj * w)%Q) by (field; lra).
  assert (Hpos : (0 < (m0 * 2 + qj * w) / (m1 * 2 + dj))%Q)
    by (apply Qlt_shift_div_l; nra).
  set (a := ((m0 * 2 + qj * w) / (m1 * 2 + dj))%Q) in *.
  nra.
Qed.

End RatioMonotone.

(** When some count up to the cap reaches the target, the loop is left by
    [break], with a count of at most 50. *)
Lemma ratioLoop_le_cap (layoutOf : num -> Layout) (r : Q) (d : nat) :
  forall (s : Z) (last : num),
    (MAX_STRIP_NUM + 1 - s = Z.of_nat d)%Z ->
    (exists k, (s <= k <= MAX_STRIP_NUM)%Z /\ (ratioAt layoutOf k >=? Fin r) = true) ->
    (ratioLoop layoutOf r s last <= MAX_STRIP_NUM)%Z.
Proof.
  induction d as [| d IH]; intros s last Hd [k [Hk Hge]].
  - lia.
  - destruct (ratioAt layoutOf s >=? Fin r) eqn:E.
    + rewrite ratioLoop_break by (try assumption; lia).
      destruct (_ <? _); lia.
    + rewrite ratioLoop_continue by (try assumption; lia).
      apply IH; [lia |].
      exists k. split; [| exact Hge].
      assert (k <> s) by (intros ->; congruence). lia.
Qed.

(** X4.  In ['ratio'] mode (after the start is resolved and with an
    acceptable target size) a missing ratio, a ratio that is not positive
    and a ratio above 20 throw; every other ratio is accepted and the
    resolved strip count is a whole number between 0 and 51, both of which
    lie outside the range 1..50 the other modes keep. *)
Theorem ratio_mode_count_range
    (beatmap : Beatmap) (options : Options) (s : num) :
  strip_mode (strip options) = ModeRatio ->
  resolveStart beatmap options = Ok s ->
  targetSizeValid options ->
  (strip_ratio (strip options) = None ->
   resolveOptions beatmap options = Throw Error_stripRatioMissing)
  /\ (forall r, strip_ratio (strip options) = Some r -> (r <= 0)%Q ->
      resolveOptions beatmap options = Throw Error_stripRatioInvalid)
  /\ (forall r, strip_ratio (strip options) = Some r -> (MAX_RATIO < r)%Q ->
      resolveOptions beatmap options = Throw Error_stripRatioTooLarge)
  /\ (forall r, strip_ratio (strip options) = Some r -> (0 < r <= MAX_RATIO)%Q ->
      exists ctx k,
        resolveOptions beatmap options = Ok ctx
        /\ ctx_stripNum ctx = Fin (inject_Z k)
        /\ (0 <= k <= MAX_STRIP_NUM + 1)%Z
        /\ ctx_end ctx = resolveEnd beatmap options s).
Proof.
  intros Hm Hs Hts. repeat split.
  - intro Hr. apply (resolveOptions_strip_throws _ _ s); [exact Hs |].
    unfold resolveStrip. now rewrite Hm, Hr.
  - intros r Hr H0. apply (resolveOptions_strip_throws _ _ s); [exact Hs |].
    unfold resolveStrip. rewrite Hm, Hr.
    apply le_fin in H0. now rewrite H0.
  - intros r Hr H20. apply (resolveOptions_strip_throws _ _ s); [exact Hs |].
    unfold resolveStrip. rewrite Hm, Hr.
    assert (H0 : (Fin r <=? Fin 0) = false)
      by (apply le_fin_false; unfold MAX_RATIO in H20; lra).
    apply gt_fin in H20. now rewrite H0, H20.
  - intros r Hr Hrange.
    pose proof (resolveStrip_ratio beatmap options s (resolveEnd beatmap options s)
                  r Hm Hr Hrange) as Hstrip.
    set (k := ratioLoop (computeLayout beatmap options s (resolveEnd beatmap options s))
                r 1 (Fin 0)) in *.
    destruct (fitTarget_total options
                (computeLayout beatmap options s (resolveEnd beatmap options s)
                   (Fin (inject_Z k))) Hts) as [res Hfit].
    destruct (resolveOptions_ok _ _ _ _ _ res Hs Hstrip Hfit)
      as [ctx [Hctx [Hcs [Hce Hcn]]]].
    exists ctx, k. repeat split; try assumption.
    + pose proof (ratioLoop_range
                    (computeLayout beatmap options s (resolveEnd beatmap options s))
                    r 50 1 (Fin 0) eq_refl) as Hk.
      fold k in Hk. lia.
    + pose proof (ratioLoop_range
                    (computeLayout beatmap options s (resolveEnd beatmap options s))
                    r 50 1 (Fin 0) eq_refl) as Hk.
      fold k in Hk. lia.
Qed.

Lemma ratio_mode_count_range_witness :
  (strip_ratio (strip (ratioOptions 5)) = None ->
   resolveOptions longBeatmap (ratioOptions 5) = Throw Error_stripRatioMissing)
  /\ (forall r, strip_ratio (strip (ratioOptions 5)) = Some r -> (r <= 0)%Q ->
      resolveOptions longBeatmap (ratioOptions 5) = Throw Error_stripRatioInvalid)
  /\ (forall r, strip_ratio (strip (ratioOptions 5)) = Some r -> (MAX_RATIO < r)%Q ->
      resolveOptions longBeatmap (ratioOptions 5) = Throw Error_stripRatioTooLarge)
  /\ (forall r, strip_ratio (strip (ratioOptions 5)) = Some r ->
      (0 < r <= MAX_RATIO)%Q ->
      exists ctx k,
        resolveOptions longBeatmap (ratioOptions 5) = Ok ctx
        /\ ctx_stripNum ctx = Fin (inject_Z k)
        /\ (0 <= k <= MAX_STRIP_NUM + 1)%Z
        /\ ctx_end ctx = resolveEnd longBeatmap (ratioOptions 5) (Fin 0)).
Proof.
  apply (ratio_mode_count_range longBeatmap (ratioOptions 5) (Fin 0)).
  - reflexivity.
  - reflexivity.
  - exact I.
Defined.

(** X5.  In ['ratio'] mode, when already one strip reaches the target
    (canvas ratio [c >= r]), the search compares with an initial ratio of 0:
    the resolved strip count is 0 when [c] is more than twice the target,
    and 1 otherwise. *)
Theorem ratio_mode_zero_strips
    (beatmap : Beatmap) (options : Options) (s : num) (r c : Q) :
  strip_mode (strip options) = ModeRatio ->
  strip_ratio (strip options) = Some r ->
  (0 < r <= MAX_RATIO)%Q ->
  targetSizeValid options ->
  resolveStart beatmap options = Ok s ->
  canvasRatio beatmap options s (resolveEnd beatmap options s) 1 =n= Fin c ->
  (r <= c)%Q ->
  exists ctx,
    resolveOptions beatmap options = Ok ctx
    /\ ((2 * r < c)%Q /\ ctx_stripNum ctx = Fin (inject_Z 0)
        \/ (c <= 2 * r)%Q /\ ctx_stripNum ctx = Fin (inject_Z 1)).
Proof.
  intros Hm Hr Hrange Hts Hs Hc Hrc.
  set (e := resolveEnd beatmap options s) in *.
  pose proof (resolveStrip_ratio beatmap options s e r Hm Hr Hrange) as Hstrip.
  destruct (eqv_fin_inv _ _ Hc) as [c' [Ec Hc']].
  unfold canvasRatio in Ec.
  assert (Hk : ratioLoop (computeLayout beatmap options s e) r 1 (Fin 0)
               = if Fin (r - 0)%Q <? Fin (c' - r)%Q then 0%Z else 1%Z).
  { rewrite ratioLoop_break.
    - rewrite Ec. reflexivity.
    - unfold MAX_STRIP_NUM. lia.
    - rewrite Ec. apply ge_fin. lra. }
  rewrite Hk in Hstrip.
  destruct (fitTarget_total options
              (computeLayout beatmap options s e
                 (Fin (inject_Z (if Fin (r - 0)%Q <? Fin (c' - r)%Q then 0%Z else 1%Z))))
              Hts) as [res Hfit].
  destruct (resolveOptions_ok _ _ _ _ _ res Hs Hstrip Hfit)
    as [ctx [Hctx [_ [_ Hcn]]]].
  exists ctx. split; [exact Hctx |]. rewrite Hcn.
  destruct (Fin (r - 0)%Q <? Fin (c' - r)%Q) eqn:E.
  - left. apply lt_fin in E. split; [lra | reflexivity].
  - right. apply lt_fin_false in E. split; [lra | reflexivity].
Qed.

Lemma ratio_mode_zero_strips_witness :
  exists ctx,
    resolveOptions emptyBeatmap (squareOptions ModeRatio (2 # 5)) = Ok ctx
    /\ ((2 * (2 # 5) < 1)%Q /\ ctx_stripNum ctx = Fin (inject_Z 0)
        \/ (1 <= 2 * (2 # 5))%Q /\ ctx_stripNum ctx = Fin (inject_Z 1)).
Proof.
  apply (ratio_mode_zero_strips emptyBeatmap (squareOptions ModeRatio (2 # 5))
           (Fin 0) (2 # 5) 1).
  - reflexivity.
  - reflexivity.
  - unfold MAX_RATIO. lra.
  - exact I.
  - reflexivity.
  - vm_compute. reflexivity.
  - lra.
Defined.

(** X6.  For a positive strip width and time scale, non-negative margins
    and a window that runs forward, the canvas aspect ratio the search
    computes is finite, positive and strictly increasing in the strip
    count, so the counts that reach a target are exactly those from the
    first one on. *)
Theorem canvas_ratio_increasing
    (beatmap : Beatmap) (options : Options) (s e : Q) (j k : Z) :
  (0 < stripWidthQ beatmap options)%Q ->
  (0 < time_scale (time_ options))%Q ->
  (0 <= fst (layout_margin (layout options)))%Q ->
  (0 <= snd (layout_margin (layout options)))%Q ->
  (s < e)%Q ->
  (1 <= j < k)%Z ->
  exists a b,
    canvasRatio beatmap options (Fin s) (Fin e) j = Fin a
    /\ canvasRatio beatmap options (Fin s) (Fin e) k = Fin b
    /\ (0 < a < b)%Q.
Proof.
  intros Hw Hsc Hm0 Hm1 Hse Hjk.
  destruct (canvasRatio_fin beatmap options s e Hw Hsc Hm0 Hm1 Hse j) as [Ej Hj];
    [lia |].
  destruct (canvasRatio_fin beatmap options s e Hw Hsc Hm0 Hm1 Hse k) as [Ek Hk];
    [lia |].
  exists (canvasRatioQ beatmap options s e j), (canvasRatioQ beatmap options s e k).
  repeat split; try assumption.
  now apply canvasRatioQ_increasing.
Qed.

Lemma canvas_ratio_increasing_witness :
  exists a b,
    canvasRatio sampleBeatmap defaultOptions (Fin 0) (Fin 3060) 1 = Fin a
    /\ canvasRatio sampleBeatmap defaultOptions (Fin 0) (Fin 3060) 2 = Fin b
    /\ (0 < a < b)%Q.
Proof.
  apply (canvas_ratio_increasing sampleBeatmap defaultOptions 0 3060 1 2).
  - vm_compute. reflexivity.
  - vm_compute. reflexivity.
  - vm_compute. discriminate.
  - vm_compute. discriminate.
  - lra.
  - lia.
Defined.

(** X7.  Under the same conditions, in ['ratio'] mode with a valid target
    [r], the resolver returns, and its strip count is 51, one past the cap,
    exactly when even 50 strips have a canvas ratio below [r]. *)
Theorem ratio_mode_passes_cap
    (beatmap : Beatmap) (options : Options) (s e r : Q) :
  strip_mode (strip options) = ModeRatio ->
  strip_ratio (strip options) = Some r ->
  (0 < r <= MAX_RATIO)%Q ->
  targetSizeValid options ->
  resolveStart beatmap options = Ok (Fin s) ->
  resolveEnd beatmap options (Fin s) = Fin e ->
  (0 < stripWidthQ beatmap options)%Q ->
  (0 < time_scale (time_ options))%Q ->
  (0 <= fst (layout_margin (layout options)))%Q ->
  (0 <= snd (layout_margin (layout options)))%Q ->
  (s < e)%Q ->
  exists ctx k,
    resolveOptions beatmap options = Ok ctx
    /\ ctx_stripNum ctx = Fin (inject_Z k)
    /\ (k = (MAX_STRIP_NUM + 1)%Z
        <-> (canvasRatioQ beatmap options s e MAX_STRIP_NUM < r)%Q).
Proof.
  intros Hm Hr Hrange Hts Hs He Hw Hsc Hm0 Hm1 Hse.
  pose proof (resolveStrip_ratio beatmap options (Fin s)
                (resolveEnd beatmap options (Fin s)) r Hm Hr Hrange) as Hstrip.
  rewrite He in Hstrip.
  set (L := computeLayout beatmap options (Fin s) (Fin e)) in *.
  set (k := ratioLoop L r 1 (Fin 0)) in *.
  destruct (fitTarget_total options (L (Fin (inject_Z k))) Hts) as [res Hfit].
  assert (Hstrip' : resolveStrip beatmap options (Fin s)
                      (resolveEnd beatmap options (Fin s))
                    = Ok (Fin (inject_Z k), Fin e))
    by (rewrite He; exact Hstrip).
  destruct (resolveOptions_ok _ _ _ _ _ res Hs Hstrip' Hfit)
    as [ctx [Hctx [_ [_ Hcn]]]].
  exists ctx, k. split; [exact Hctx |]. split; [exact Hcn |].
  assert (Hratio : forall i, (1 <= i)%Z ->
            ratioAt L i = Fin (canvasRatioQ beatmap options s e i)).
  { intros i Hi.
    now destruct (canvasRatio_fin beatmap options s e Hw Hsc Hm0 Hm1 Hse i Hi). }
  split.
  - intro Hk.
    destruct (Qlt_le_dec (canvasRatioQ beatmap options s e MAX_STRIP_NUM) r)
      as [Hlt | Hge]; [exact Hlt |].
    assert (Hle : (k <= MAX_STRIP_NUM)%Z).
    { apply (ratioLoop_le_cap L r 50 1 (Fin 0) eq_refl).
      exists MAX_STRIP_NUM. split; [unfold MAX_STRIP_NUM; lia |].
      rewrite Hratio by (unfold MAX_STRIP_NUM; lia). now apply ge_fin. }
    lia.
  - intro Hlt. unfold k.
    apply (ratioLoop_exhausted L r 50 1 (Fin 0) eq_refl).
    intros i Hi. rewrite Hratio by lia. apply ge_fin_false.
    destruct (Z.eq_dec i MAX_STRIP_NUM) as [-> | Hne]; [exact Hlt |].
    assert (Hinc : (canvasRatioQ beatmap options s e i
                    < canvasRatioQ beatmap options s e MAX_STRIP_NUM)%Q)
      by (apply canvasRatioQ_increasing; try assumption; lia).
    lra.
Qed.

Lemma ratio_mode_passes_cap_witness :
  exists ctx k,
    resolveOptions longBeatmap (ratioOptions 5) = Ok ctx
    /\ ctx_stripNum ctx = Fin (inject_Z k)
    /\ (k = (MAX_STRIP_NUM + 1)%Z
        <-> (canvasRatioQ longBeatmap (ratioOptions 5) 0 (600000 + 6 / (1 # 10))
               MAX_STRIP_NUM < 5)%Q).
Proof.
  apply (ratio_mode_passes_cap longBeatmap (ratioOptions 5) 0
           (600000 + 6 / (1 # 10)) 5).
  - reflexivity.
  - reflexivity.
  - unfold MAX_RATIO. lra.
  - exact I.
  - reflexivity.
  - reflexivity.
  - vm_compute. reflexivity.
  - vm_compute. reflexivity.
  - vm_compute. discriminate.
  - vm_compute. discriminate.
  - vm_compute. reflexivity.
Defined.

(* ------------------------------------------------------------------------- *)
(** ** More on the ['time'] mode: how the window end moves *)

(** X8.  In ['time'] mode with a positive strip duration [d], on a finite
    window [s .. e0] (padded end) that runs forward: when the chart needs at
    most 50 strips the end only grows, by less than one strip
    ([e0 <= end < e0 + d]); when it needs more, the count is capped and the
    window is cut short at [s + 50 d], before the padded end. *)
Theorem time_mode_window_growth
    (beatmap : Beatmap) (options : Options) (s e0 d : Q) :
  strip_mode (strip options) = ModeTime ->
  strip_time (strip options) = Some d ->
  (0 < d)%Q ->
  resolveStart beatmap options = Ok (Fin s) ->
  resolveEnd beatmap options (Fin s) =n= Fin e0 ->
  (s < e0)%Q ->
  targetSizeValid options ->
  exists ctx e,
    resolveOptions beatmap options = Ok ctx
    /\ ctx_end ctx = Fin e
    /\ ((Qceiling ((e0 - s) / d) <= MAX_STRIP_NUM)%Z -> (e0 <= e < e0 + d)%Q)
    /\ ((MAX_STRIP_NUM < Qceiling ((e0 - s) / d))%Z ->
        (e == s + inject_Z MAX_STRIP_NUM * d)%Q /\ (e < e0)%Q).
Proof.
  intros Hm Ht Hd Hs He Hse Hts.
  destruct (eqv_fin_inv _ _ He) as [e1 [Ee Hee]].
  pose proof (resolveStrip_time beatmap options s e1 d Hm Ht Hd) as Hstrip.
  cbv zeta in Hstrip. rewrite <- Ee in Hstrip.
  assert (Hc : Qceiling ((e1 - s) / d) = Qceiling ((e0 - s) / d))
    by now rewrite Hee.
  rewrite Hc in Hstrip.
  set (x := ((e0 - s) / d)%Q) in *.
  assert (Hx : (x * d == e0 - s)%Q) by (unfold x; field; lra).
  assert (Hxpos : (0 < x)%Q) by (unfold x; apply Qlt_shift_div_l; lra).
  pose proof (Qle_ceiling x) as Hup.
  pose proof (Qceiling_lt x) as Hlow.
  assert (Hcpos : (0 < Qceiling x)%Z).
  { rewrite Zlt_Qlt. change (inject_Z 0) with 0%Q. lra. }
  set (n := Z.min (Qceiling x) MAX_STRIP_NUM) in *.
  assert (Hn : (0 < n)%Z) by (unfold n, MAX_STRIP_NUM; lia).
  replace (n <=? 0)%Z with false in Hstrip by (symmetry; apply Z.leb_gt; lia).
  destruct (fitTarget_total options
              (computeLayout beatmap options (Fin s)
                 (Fin (s + inject_Z n * d)%Q) (Fin (inject_Z n))) Hts)
    as [res Hfit].
  destruct (resolveOptions_ok _ _ _ _ _ res Hs Hstrip Hfit)
    as [ctx [Hctx [_ [Hce _]]]].
  exists ctx, (s + inject_Z n * d)%Q.
  split; [exact Hctx |]. split; [exact Hce |].
  unfold Z.sub in Hlow. rewrite inject_Z_plus in Hlow.
  change (inject_Z (- (1))) with (- (1))%Q in Hlow.
  split.
  - intro Hle. replace n with (Qceiling x) by (unfold n; lia).
    set (c := inject_Z (Qceiling x)) in *. split; nra.
  - intro Hgt. replace n with MAX_STRIP_NUM by (unfold n; lia).
    split; [reflexivity |].
    assert (Hq : (inject_Z MAX_STRIP_NUM + 1 <= inject_Z (Qceiling x))%Q).
    { change 1%Q with (inject_Z 1). rewrite <- inject_Z_plus, <- Zle_Qle. lia. }
    set (c := inject_Z (Qceiling x)) in *.
    set (m := inject_Z MAX_STRIP_NUM) in *. nra.
Qed.

Lemma time_mode_window_growth_witness :
  exists ctx e,
    resolveOptions sampleBeatmap secondStrips = Ok ctx
    /\ ctx_end ctx = Fin e
    /\ ((Qceiling ((3060 - 0) / 1000) <= MAX_STRIP_NUM)%Z -> (3060 <= e < 3060 + 1000)%Q)
    /\ ((MAX_STRIP_NUM < Qceiling ((3060 - 0) / 1000))%Z ->
        (e == 0 + inject_Z MAX_STRIP_NUM * 1000)%Q /\ (e < 3060)%Q).
Proof.
  apply (time_mode_window_growth sampleBeatmap secondStrips 0 3060 1000).
  - reflexivity.
  - reflexivity.
  - lra.
  - reflexivity.
  - vm_compute. reflexivity.
  - lra.
  - exact I.
Defined.

(* ------------------------------------------------------------------------- *)
(** ** The padding and the note emitter *)

(** X9.  With ['auto'] end outside the ['time'] mode, a positive time scale
    and a non-negative note height, the window end lies at least the
    padding after every note's end, and for a note whose end is not before
    its start every rectangle the emitter returns ends at least half a note
    height below the window's pixel height: the padding keeps the last
    glyph from being cut. *)
Theorem padding_keeps_notes_unclipped
    (beatmap : Beatmap) (options : Options) (ctx : Context)
    (n : Note) (shapes : list Shape) :
  resolveOptions beatmap options = Ok ctx ->
  time_end (time_ options) = Auto ->
  strip_mode (strip options) <> ModeTime ->
  (0 < time_scale (time_ options))%Q ->
  (0 <= note_height (note options))%Q ->
  In n (notes beatmap) ->
  noteForward n ->
  createNote ctx n = Ok shapes ->
  exists s e,
    ctx_start ctx = Fin s /\ ctx_end ctx = Fin e
    /\ (noteEnd n + note_height (note options) / time_scale (time_ options) <= e)%Q
    /\ Forall (fun sh => exists t,
                 shapeTop sh = Fin t
                 /\ (t <= windowHeight options s e - note_height (note options) / 2)%Q)
              shapes.
Proof.
  intros Hres Hauto Hmode Hsc Hh Hin Hfwd Hnote.
  destruct (resolveOptions_inv _ _ _ Hres) as [Hs [Hn [_ [_ [_ [Hbm Hopt]]]]]].
  destruct (resolveStart_finite _ _ _ Hs) as [s Es].
  apply resolveStrip_keeps_end in Hn; [| exact Hmode].
  unfold resolveEnd, baseEnd, padding in Hn. rewrite Hauto, Es in Hn.
  destruct (fold_max_notes (notes beatmap) s) as [m [Em [_ [Hall _]]]].
  rewrite Em in Hn. rewrite div_fin in Hn by lra. cbn [add] in Hn.
  rewrite Forall_forall in Hall. specialize (Hall n Hin).
  set (h := note_height (note options)) in *.
  set (sc := time_scale (time_ options)) in *.
  assert (Hpad : (h / sc * sc == h)%Q) by (field; lra).
  assert (Hpadpos : (0 <= h / sc)%Q) by (apply Qle_shift_div_l; lra).
  exists s, (m + h / sc)%Q.
  split; [exact Es |]. split; [exact Hn |]. split; [lra |].
  unfold noteForward in Hfwd.
  assert (Hbound : ((start n - s) * sc <= (m - s) * sc)%Q) by nra.
  unfold createNote in Hnote. rewrite Hopt, Hbm, Es in Hnote. cbv zeta in Hnote.
  destruct (note_colorSelector (note options) (keys beatmap) n) as [color |];
    [| discriminate].
  cbn [bind] in Hnote. fold h sc in Hnote.
  assert (Hcap : exists t,
            shapeTop (Rect (Fin (inject_Z (column n)) * Fin (note_width (note options)))
                        ((Fin (start n) - Fin s) * Fin sc - Fin h / Fin 2)
                        (Fin (note_width (note options))) (Fin h)
                        (Some (Fin (note_rx (note options)))) color) = Fin t
            /\ (t <= windowHeight options s (m + h / sc) - h / 2)%Q).
  { cbn [shapeTop]. rewrite div_fin by lra. cbn [add sub mul neg].
    eexists. split; [reflexivity |]. unfold windowHeight. fold sc.
    set (p := (h / sc)%Q) in *. nra. }
  unfold noteEnd in *.
  destruct (end_ n) as [en |].
  - destruct (truthy (Fin en)).
    + destruct (_ >? Fin 0); injection Hnote as <-.
      * constructor; [exact Hcap |]. constructor; [| constructor].
        cbn [shapeTop add sub mul neg].
        eexists. split; [reflexivity |]. unfold windowHeight. fold sc.
        assert (Hbody : ((en - s) * sc <= (m - s) * sc)%Q) by nra.
        set (p := (h / sc)%Q) in *.
        assert (Hl : ((start n + - s) * sc + h / 2 + ((en + - start n) * sc + - h)
                      == (en - s) * sc - h / 2)%Q) by field.
        assert (Hr : ((m + p - s) * sc - h / 2
                      == (m - s) * sc + p * sc - h / 2)%Q) by ring.
        rewrite Hl, Hr, Hpad. lra.
      * constructor; [exact Hcap | constructor].
    + injection Hnote as <-. constructor; [exact Hcap | constructor].
  - injection Hnote as <-. constructor; [exact Hcap | constructor].
Qed.

Lemma padding_keeps_notes_unclipped_witness :
  exists ctx shapes,
    resolveOptions sampleBeatmap defaultOptions = Ok ctx
    /\ createNote ctx (mkNote 2 2000 (Some 3000)) = Ok shapes
    /\ exists s e,
         ctx_start ctx = Fin s /\ ctx_end ctx = Fin e
         /\ (noteEnd (mkNote 2 2000 (Some 3000))
             + note_height (note defaultOptions) / time_scale (time_ defaultOptions)
             <= e)%Q
         /\ Forall (fun sh => exists t,
                      shapeTop sh = Fin t
                      /\ (t <= windowHeight defaultOptions s e
                               - note_height (note defaultOptions) / 2)%Q)
                   shapes.
Proof.
  eexists. eexists. split; [reflexivity |]. split; [reflexivity |].
  apply (padding_keeps_notes_unclipped sampleBeatmap defaultOptions _
           (mkNote 2 2000 (Some 3000))).
  - reflexivity.
  - reflexivity.
  - discriminate.
  - vm_compute. reflexivity.
  - vm_compute. discriminate.
  - right. left. reflexivity.
  - unfold noteForward. vm_compute. discriminate.
  - reflexivity.
Defined.

(* ------------------------------------------------------------------------- *)
(** ** More on the bar-line generator: the sort *)

Lemma insertByTime_perm (tp : TimingPoint) (l : list TimingPoint) :
  Permutation (tp :: l) (insertByTime tp l).
Proof.
  induction l as [| x rest IH]; simpl.
  - apply Permutation_refl.
  - destruct (Fin (time tp) <=? Fin (time x)).
    + apply Permutation_refl.
    + eapply Permutation_trans; [apply perm_swap |].
      now apply perm_skip.
Qed.

Lemma sortByTime_perm (l : list TimingPoint) : Permutation l (sortByTime l).
Proof.
  induction l as [| tp rest IH]; simpl.
  - apply Permutation_refl.
  - eapply Permutation_trans; [| apply insertByTime_perm].
    now apply perm_skip.
Qed.

Lemma insertByTime_atTime (t : Q) (tp : TimingPoint) (l : list TimingPoint) :
  atTime t (insertByTime tp l) = atTime t (tp :: l).
Proof.
  unfold atTime. induction l as [| x rest IH]; [reflexivity |].
  cbn [insertByTime].
  destruct (Fin (time tp) <=? Fin (time x)) eqn:E; [reflexivity |].
  apply le_fin_false in E.
  cbn [filter] in *. rewrite IH.
  destruct (Qeq_bool (time x) t) eqn:Ex; destruct (Qeq_bool (time tp) t) eqn:Et;
    try reflexivity.
  apply Qeq_bool_iff in Ex, Et. lra.
Qed.

(** X10.  The sort of the timing points is a stable sort on [time]: its
    result is a permutation of the input, ordered by time, and the points
    that share a time keep their input order. *)
Theorem sortByTime_stable_sort (l : list TimingPoint) :
  Permutation l (sortByTime l)
  /\ StronglySorted timeLe (sortByTime l)
  /\ forall t, atTime t (sortByTime l) = atTime t l.
Proof.
  split; [apply sortByTime_perm |]. split; [apply sortByTime_sorted |].
  intro t. induction l as [| tp rest IH]; [reflexivity |].
  cbn [sortByTime]. rewrite insertByTime_atTime.
  unfold atTime in *. cbn [filter]. now rewrite IH.
Qed.

(** Two lists ordered strictly by time with the same elements are equal. *)
Lemma sorted_permutation_unique (l1 : list TimingPoint) :
  forall l2,
    StronglySorted timeLt l1 -> StronglySorted timeLt l2 ->
    Permutation l1 l2 -> l1 = l2.
Proof.
  induction l1 as [| a l1 IH]; intros l2 H1 H2 Hp.
  - apply Permutation_nil in Hp. now subst.
  - destruct l2 as [| b l2].
    + apply Permutation_sym, Permutation_nil in Hp. discriminate.
    + apply StronglySorted_inv in H1 as [H1 Ha].
      apply StronglySorted_inv in H2 as [H2 Hb].
      rewrite Forall_forall in Ha, Hb.
      assert (Hab : a = b).
      { assert (Hina : In a (b :: l2))
          by (eapply Permutation_in; [exact Hp | now left]).
        assert (Hinb : In b (a :: l1))
          by (eapply Permutation_in; [apply Permutation_sym; exact Hp | now left]).
        destruct Hina as [-> | Hina]; [reflexivity |].
        destruct Hinb as [-> | Hinb]; [reflexivity |].
        specialize (Ha b Hinb). specialize (Hb a Hina).
        unfold timeLt in *. lra. }
      subst b. f_equal. apply IH; try assumption.
      now apply Permutation_cons_inv in Hp.
Qed.

Lemma sortByTime_strict (l : list TimingPoint) :
  distinctTimes l -> StronglySorted timeLt (sortByTime l).
Proof.
  intros [Hnd Hinj].
  assert (Hnd' : NoDup (sortByTime l))
    by (eapply Permutation_NoDup; [apply sortByTime_perm | exact Hnd]).
  assert (Hinj' : forall a b, In a (sortByTime l) -> In b (sortByTime l) ->
                  (time a == time b)%Q -> a = b).
  { intros a b Ha Hb. apply Hinj;
      (eapply Permutation_in; [apply Permutation_sym, sortByTime_perm | assumption]). }
  pose proof (sortByTime_sorted l) as Hs.
  induction Hs as [| a rest Hrest IH Ha]; [constructor |].
  apply NoDup_cons_iff in Hnd' as [Hnotin Hnd'].
  constructor.
  - apply IH; [exact Hnd' |].
    intros x y Hx Hy. apply Hinj'; now right.
  - rewrite Forall_forall in Ha |- *. intros b Hb.
    specialize (Ha b Hb). unfold timeLe, timeLt in *.
    destruct (Qlt_le_dec (time a) (time b)) as [Hlt | Hge]; [exact Hlt |].
    assert (Heq : (time a == time b)%Q) by lra.
    assert (a = b) by (apply Hinj'; [now left | now right | exact Heq]).
    subst b. contradiction.
Qed.

(** X11.  When the timing points have pairwise different times, the bar
    lines do not depend on the order in which the points are listed. *)
Theorem bar_lines_ignore_input_order
    (l1 l2 : list TimingPoint) (fuel : nat) (s e : num) :
  distinctTimes l1 ->
  Permutation l1 l2 ->
  generateBarLinePositions fuel l1 s e = generateBarLinePositions fuel l2 s e.
Proof.
  intros Hd Hp.
  assert (Hd2 : distinctTimes l2).
  { destruct Hd as [Hnd Hinj]. split.
    - eapply Permutation_NoDup; eassumption.
    - intros a b Ha Hb. apply Hinj;
        (eapply Permutation_in; [apply Permutation_sym; exact Hp | assumption]). }
  unfold generateBarLinePositions. f_equal.
  apply sorted_permutation_unique; try now apply sortByTime_strict.
  eapply Permutation_trans; [apply Permutation_sym, sortByTime_perm |].
  eapply Permutation_trans; [exact Hp | apply sortByTime_perm].
Qed.

Lemma bar_lines_ignore_input_order_witness :
  generateBarLinePositions 10
    [mkTimingPoint 3000 100 3; mkTimingPoint 0 120 4] (Fin 500) (Fin 9000)
  = generateBarLinePositions 10
      [mkTimingPoint 0 120 4; mkTimingPoint 3000 100 3] (Fin 500) (Fin 9000).
Proof.
  apply (bar_lines_ignore_input_order
           [mkTimingPoint 3000 100 3; mkTimingPoint 0 120 4]
           [mkTimingPoint 0 120 4; mkTimingPoint 3000 100 3] 10 (Fin 500) (Fin 9000)).
  - split.
    + repeat constructor; simpl; intuition discriminate.
    + intros a b [<- | [<- | []]] [<- | [<- | []]] H;
        try reflexivity; vm_compute in H; discriminate H.
  - apply perm_swap.
Defined.

(* ------------------------------------------------------------------------- *)
(** ** More on the bar-line generator: one regime is a full grid *)

Section BarGrid.

Variables next e s d : Q.
Hypothesis d_pos : (0 < d)%Q.


End BarGrid.



(* ------------------------------------------------------------------------- *)
(** ** Colour policy *)

Lemma lookup_In (layouts : list (Z * list Z)) (k : Z) (layout : list Z) :
  lookup layouts k = Some layout -> In (k, layout) layouts.
Proof.
  induction layouts as [| [k' l'] rest IH]; [discriminate |].
  cbn [lookup]. destruct (k' =? k)%Z eqn:E.
  - apply Z.eqb_eq in E. intro H; injection H as <-. subst. now left.
  - intro H. right. now apply IH.
Qed.

Lemma lookup_None (layouts : list (Z * list Z)) (k : Z) :
  ~ In k (map fst layouts) -> lookup layouts k = None.
Proof.
  induction layouts as [| [k' l'] rest IH]; [reflexivity |].
  cbn [lookup map fst In]. intro H.
  destruct (k' =? k)%Z eqn:E.
  - apply Z.eqb_eq in E. tauto.
  - apply IH. tauto.
Qed.

Lemma lookup_Some (layouts : list (Z * list Z)) (k : Z) :
  In k (map fst layouts) -> exists layout, lookup layouts k = Some layout.
Proof.
  induction layouts as [| [k' l'] rest IH]; [intros [] |].
  cbn [lookup map fst In]. intros [-> | H].
  - rewrite Z.eqb_refl. eauto.
  - destruct (k' =? k)%Z; eauto.
Qed.

(** Every preset layout has one role per column, each role has a colour in
    the preset palette, and the layout reads the same from both ends. *)
Lemma presetKeyLayouts_shape :
  Forall (fun entry : Z * list Z =>
            Z.of_nat (List.length (snd entry)) = fst entry
            /\ Forall (fun role => (0 <= role < 4)%Z) (snd entry)
            /\ rev (snd entry) = snd entry)
         presetKeyLayouts.
Proof.
  unfold presetKeyLayouts.
  repeat (constructor;
          [split; [reflexivity | split; [repeat constructor; lia | reflexivity]] |]).
  constructor.
Qed.

Lemma presetKeyLayouts_entry (k : Z) (layout : list Z) :
  lookup presetKeyLayouts k = Some layout ->
  Z.of_nat (List.length layout) = k
  /\ Forall (fun role => (0 <= role < 4)%Z) layout
  /\ rev layout = layout.
Proof.
  intro H. apply lookup_In in H.
  pose proof presetKeyLayouts_shape as Hall.
  rewrite Forall_forall in Hall. exact (Hall _ H).
Qed.

(** X13.  The default colour selector, for every key count and column: on a
    supported key count (1 to 10, 12, 14, 16, 18) and a column from 0 to
    [keys - 1] it returns a colour of the preset palette (never
    [undefined]); on a supported key count and any other column it throws
    the invalid-column error; on any other key count it throws the
    unsupported-keys error. *)
Theorem default_color_selector_total (k : Z) (n : Note) :
  (In k supportedKeys -> (0 <= column n < k)%Z ->
   exists color, defaultColorSelector k n = Ok (Some color)
                 /\ In color presetColorSchemes)
  /\ (In k supportedKeys -> ~ (0 <= column n < k)%Z ->
      defaultColorSelector k n = Throw (Error_invalidColumn (column n) k))
  /\ (~ In k supportedKeys ->
      defaultColorSelector k n = Throw (Error_unsupportedKeys k)).
Proof.
  unfold defaultColorSelector, createNoteColorSelector, supportedKeys.
  split; [| split].
  - intros Hk Hc.
    destruct (lookup_Some _ _ Hk) as [layout Hl]. rewrite Hl.
    destruct (presetKeyLayouts_entry _ _ Hl) as [Hlen [Hroles _]].
    unfold index at 1.
    replace (column n <? 0)%Z with false by (symmetry; apply Z.ltb_ge; lia).
    destruct (nth_error layout (Z.to_nat (column n))) as [role |] eqn:E.
    + assert (Hr : (0 <= role < 4)%Z).
      { rewrite Forall_forall in Hroles. apply Hroles.
        eapply nth_error_In; exact E. }
      unfold index.
      replace (role <? 0)%Z with false by (symmetry; apply Z.ltb_ge; lia).
      destruct (nth_error presetColorSchemes (Z.to_nat role)) as [color |] eqn:Ec.
      * exists color. split; [reflexivity |]. eapply nth_error_In; exact Ec.
      * apply nth_error_None in Ec. simpl in Ec. lia.
    + apply nth_error_None in E. lia.
  - intros Hk Hc.
    destruct (lookup_Some _ _ Hk) as [layout Hl]. rewrite Hl.
    destruct (presetKeyLayouts_entry _ _ Hl) as [Hlen _].
    unfold index.
    destruct (column n <? 0)%Z eqn:E0; [reflexivity |].
    apply Z.ltb_ge in E0.
    destruct (nth_error layout (Z.to_nat (column n))) as [role |] eqn:E;
      [| reflexivity].
    assert (Hlt : (Z.to_nat (column n) < List.length layout)%nat)
      by (apply nth_error_Some; congruence).
    lia.
  - intro Hk. now rewrite lookup_None.
Qed.

(** X14.  On a supported key count the default colours are mirror
    symmetric: column [c] and column [keys - 1 - c] get the same colour. *)
Theorem default_colors_mirror (k : Z) (n1 n2 : Note) :
  In k supportedKeys ->
  (0 <= column n1 < k)%Z ->
  column n2 = (k - 1 - column n1)%Z ->
  defaultColorSelector k n1 = defaultColorSelector k n2.
Proof.
  intros Hk Hc Hmirror.
  unfold defaultColorSelector, createNoteColorSelector, supportedKeys in *.
  destruct (lookup_Some _ _ Hk) as [layout Hl]. rewrite Hl.
  destruct (presetKeyLayouts_entry _ _ Hl) as [Hlen [_ Hrev]].
  assert (Hidx : index layout (column n1) = index layout (column n2)).
  { unfold index. rewrite Hmirror.
    replace (column n1 <? 0)%Z with false by (symmetry; apply Z.ltb_ge; lia).
    replace (k - 1 - column n1 <? 0)%Z with false by (symmetry; apply Z.ltb_ge; lia).
    rewrite <- Hrev at 1.
    rewrite nth_error_rev.
    replace (Z.to_nat (column n1) <? List.length layout)%nat with true
      by (symmetry; apply Nat.ltb_lt; lia).
    f_equal. lia. }
  rewrite <- Hidx.
  destruct (index layout (column n1)) as [role |]; [reflexivity |].
  exfalso. unfold index in Hidx.
  rewrite Hmirror in Hidx.
  replace (k - 1 - column n1 <? 0)%Z with false in Hidx
    by (symmetry; apply Z.ltb_ge; lia).
  symmetry in Hidx. apply nth_error_None in Hidx. lia.
Qed.

Lemma default_colors_mirror_witness :
  defaultColorSelector 4 (mkNote 0 0 None) = defaultColorSelector 4 (mkNote 3 0 None).
Proof.
  apply (default_colors_mirror 4 (mkNote 0 0 None) (mkNote 3 0 None)).
  - vm_compute. tauto.
  - simpl. lia.
  - reflexivity.
Defined.

(* ------------------------------------------------------------------------- *)
(** ** Option merging *)

Section DeepMerge.

Implicit Types (o target source result : list (string * value)).
Implicit Types (key k : string) (v : value).

Lemma getProp_setProp_same o key v : getProp (setProp o key v) key = v.
Proof.
  induction o as [| [k x] rest IH]; cbn [setProp getProp].
  - now rewrite String.eqb_refl.
  - destruct (String.eqb k key) eqn:E; cbn [getProp]; now rewrite E.
Qed.

Lemma getProp_setProp_other o key k v :
  key <> k -> getProp (setProp o key v) k = getProp o k.
Proof.
  intro Hne. induction o as [| [k' x] rest IH]; cbn [setProp getProp].
  - replace (String.eqb key k) with false
      by (symmetry; now apply String.eqb_neq).
    reflexivity.
  - destruct (String.eqb k' key) eqn:E; cbn [getProp].
    + apply String.eqb_eq in E. subst k'.
      replace (String.eqb key k) with false
        by (symmetry; now apply String.eqb_neq).
      reflexivity.
    + now rewrite IH.
Qed.

Lemma hasProp_setProp o key k v :
  hasProp (setProp o key v) k = hasProp o k || String.eqb key k.
Proof.
  unfold hasProp. induction o as [| [k' x] rest IH]; cbn [setProp existsb fst].
  - now rewrite orb_false_r.
  - destruct (String.eqb k' key) eqn:E; cbn [existsb fst].
    + apply String.eqb_eq in E. subst k'.
      destruct (String.eqb key k); [reflexivity | now rewrite orb_false_r].
    + rewrite IH. now rewrite orb_assoc.
Qed.

Lemma getProp_absent o key : ~ In key (map fst o) -> getProp o key = VUndefined.
Proof.
  induction o as [| [k x] rest IH]; [reflexivity |].
  cbn [map fst In getProp]. intro H.
  destruct (String.eqb k key) eqn:E.
  - apply String.eqb_eq in E. tauto.
  - apply IH. tauto.
Qed.

Lemma hasProp_absent o key : ~ In key (map fst o) -> hasProp o key = false.
Proof.
  unfold hasProp. induction o as [| [k x] rest IH]; [reflexivity |].
  cbn [map fst In existsb]. intro H.
  destruct (String.eqb k key) eqn:E.
  - apply String.eqb_eq in E. tauto.
  - apply IH. tauto.
Qed.

(** The loop of [deepMerge] is a left fold of [mergeStep]. *)
Lemma deepMerge_fold target source :
  deepMerge target source = fold_left (mergeStep target) source target.
Proof.
  unfold deepMerge. cbn [deepMergeInto].
  match goal with
  | |- ?loop source target = _ =>
      enough (H : forall result,
                loop source result = fold_left (mergeStep target) source result)
        by apply H
  end.
  induction source as [| [key sv] rest IH]; intro result; [reflexivity |].
  cbn [fold_left]. rewrite <- IH.
  unfold mergeStep, mergedValue, deepMerge. cbn [fst snd].
  destruct sv; try reflexivity.
  destruct (getProp target key); reflexivity.
Qed.

Lemma fold_mergeStep_get target source key :
  forall result,
    NoDup (map fst source) ->
    getProp (fold_left (mergeStep target) source result) key
    = match getProp source key with
      | VUndefined => getProp result key
      | sourceValue => mergedValue (getProp target key) sourceValue
      end.
Proof.
  induction source as [| [k sv] rest IH]; intros result Hnd; [reflexivity |].
  cbn [map fst] in Hnd. apply NoDup_cons_iff in Hnd as [Hnotin Hnd].
  cbn [fold_left getProp]. rewrite IH by exact Hnd.
  destruct (String.eqb k key) eqn:E.
  - apply String.eqb_eq in E. subst k.
    rewrite (getProp_absent rest key Hnotin).
    unfold mergeStep. cbn [fst snd].
    destruct sv; try reflexivity; apply getProp_setProp_same.
  - apply String.eqb_neq in E.
    assert (Hkeep : getProp (mergeStep target result (k, sv)) key
                    = getProp result key).
    { unfold mergeStep. cbn [fst snd].
      destruct sv; try reflexivity; now apply getProp_setProp_other. }
    now rewrite Hkeep.
Qed.

Lemma fold_mergeStep_has target source key :
  forall result,
    NoDup (map fst source) ->
    hasProp (fold_left (mergeStep target) source result) key
    = hasProp result key
      || match getProp source key with
         | VUndefined => false
         | _ => true
         end.
Proof.
  induction source as [| [k sv] rest IH]; intros result Hnd.
  - cbn. now rewrite orb_false_r.
  - cbn [map fst] in Hnd. apply NoDup_cons_iff in Hnd as [Hnotin Hnd].
    cbn [fold_left getProp]. rewrite IH by exact Hnd.
    destruct (String.eqb k key) eqn:E.
    + apply String.eqb_eq in E. subst k.
      rewrite (getProp_absent rest key Hnotin). rewrite orb_false_r.
      unfold mergeStep. cbn [fst snd].
      destruct sv; rewrite ?hasProp_setProp, ?String.eqb_refl,
                     ?orb_true_r, ?orb_false_r; reflexivity.
    + assert (Hkeep : hasProp (mergeStep target result (k, sv)) key
                      = hasProp result key).
      { unfold mergeStep. cbn [fst snd].
        destruct sv; rewrite ?hasProp_setProp, ?E, ?orb_false_r; reflexivity. }
      now rewrite Hkeep.
Qed.

End DeepMerge.

(** X15.  What [deepMerge] leaves at each key, for a source with pairwise
    different keys: where the source has no value or [undefined], the
    target's value; where both have a plain object, their recursive merge;
    in every other case (numbers, strings, booleans, [null], arrays,
    functions, or an object over a non-object) the source's value as it
    is. *)
Theorem deepMerge_per_key
    (target source : list (string * value)) (key : string) :
  NoDup (map fst source) ->
  getProp (deepMerge target source) key
  = match getProp source key with
    | VUndefined => getProp target key
    | VObj sourceFields =>
        match getProp target key with
        | VObj targetFields => VObj (deepMerge targetFields sourceFields)
        | _ => VObj sourceFields
        end
    | sourceValue => sourceValue
    end.
Proof.
  intro Hnd. rewrite deepMerge_fold, fold_mergeStep_get by exact Hnd.
  unfold mergedValue.
  destruct (getProp source key); try reflexivity.
Qed.

Lemma deepMerge_per_key_witness :
  getProp (deepMerge sampleDefaults sampleOverrides) "note"
  = VObj [("width"%string, VNum (Fin 30)); ("height"%string, VNum (Fin 5))].
Proof.
  apply (deepMerge_per_key sampleDefaults sampleOverrides "note").
  repeat constructor; simpl; intuition discriminate.
Defined.

(** X16.  [deepMerge] never removes a property: for a source with pairwise
    different keys the result's own keys are the target's keys together
    with the source's keys whose value is not [undefined]. *)
Theorem deepMerge_keys
    (target source : list (string * value)) (key : string) :
  NoDup (map fst source) ->
  hasProp (deepMerge target source) key
  = hasProp target key
    || match getProp source key with
       | VUndefined => false
       | _ => true
       end.
Proof.
  intro Hnd. rewrite deepMerge_fold. now apply fold_mergeStep_has.
Qed.

Lemma deepMerge_keys_witness :
  hasProp (deepMerge sampleDefaults sampleOverrides) "start" = false.
Proof.
  apply (deepMerge_keys sampleDefaults sampleOverrides "start").
  repeat constructor; simpl; intuition discriminate.
Defined.

Section DeepPaths.

Implicit Types (target source fields : list (string * value)).
Implicit Types (key : string) (path : list string).

Lemma deepMerge_getProp target source key :
  NoDup (map fst source) ->
  getProp (deepMerge target source) key
  = match getProp source key with
    | VUndefined => getProp target key
    | sourceValue => mergedValue (getProp target key) sourceValue
    end.
Proof.
  intro Hnd. rewrite deepMerge_fold. now apply fold_mergeStep_get.
Qed.

Lemma getPath_undefined path : getPath VUndefined path = VUndefined.
Proof. now destruct path. Qed.

Lemma uniqueKeys_getProp fields key :
  uniqueKeys (VObj fields) -> uniqueKeys (getProp fields key).
Proof.
  cbn [uniqueKeys]. intros [_ Hall].
  induction fields as [| [k x] rest IH]; [exact I |].
  cbn [getProp]. destruct Hall as [Hx Hrest].
  destruct (String.eqb k key); [exact Hx | now apply IH].
Qed.

Lemma uniqueKeys_NoDup fields :
  uniqueKeys (VObj fields) -> NoDup (map fst fields).
Proof. cbn [uniqueKeys]. now intros [H _]. Qed.

Lemma untouched_getPath path :
  forall v, untouched v path -> getPath v path = VUndefined.
Proof.
  induction path as [| key rest IH]; intros v H; [destruct H |].
  cbn [untouched getPath] in *.
  destruct v; try reflexivity.
  destruct (getProp fields key) eqn:E; try contradiction.
  - apply getPath_undefined.
  - now apply IH.
Qed.

Lemma getPath_non_object v key path :
  match v with VObj _ => False | _ => True end ->
  getPath v (key :: path) = VUndefined.
Proof. destruct v; intro H; [reflexivity .. | destruct H]. Qed.

End DeepPaths.

(** X17.  A leaf of the overrides wins at any depth: where following a
    path of keys through the source's nested objects ends on a value
    that is neither [undefined] nor a plain object, the merged object
    holds that same value at the path, whatever the target has there. *)
Theorem deepMerge_source_leaf_wins (path : list string) :
  forall target source : list (string * value),
    uniqueKeys (VObj source) ->
    isLeaf (getPath (VObj source) path) ->
    getPath (VObj (deepMerge target source)) path
    = getPath (VObj source) path.
Proof.
  induction path as [| key rest IH]; intros target source Huniq Hleaf.
  - destruct Hleaf.
  - cbn [getPath] in *.
    rewrite deepMerge_getProp by now apply uniqueKeys_NoDup.
    pose proof (uniqueKeys_getProp source key Huniq) as Hinner.
    destruct (getProp source key) as [| | b | x | s | name | items | sf] eqn:E;
      try reflexivity.
    + rewrite getPath_undefined in Hleaf. destruct Hleaf.
    + unfold mergedValue.
      destruct (getProp target key); try reflexivity.
      now apply IH.
Qed.

Lemma deepMerge_source_leaf_wins_witness :
  getPath (VObj (deepMerge sampleDefaults sampleOverrides)) ["note"; "width"]%string
  = getPath (VObj sampleOverrides) ["note"; "width"]%string.
Proof.
  apply (deepMerge_source_leaf_wins ["note"; "width"]%string
           sampleDefaults sampleOverrides).
  - cbn; repeat split; repeat constructor; simpl; intuition discriminate.
  - exact I.
Defined.

(** X18.  What the overrides do not mention is kept at any depth: where
    following a path through the source's nested objects ends on a key
    that is absent or [undefined], the merged object holds at that path
    what the target holds there. *)
Theorem deepMerge_keeps_untouched (path : list string) :
  forall target source : list (string * value),
    uniqueKeys (VObj source) ->
    untouched (VObj source) path ->
    getPath (VObj (deepMerge target source)) path
    = getPath (VObj target) path.
Proof.
  induction path as [| key rest IH]; intros target source Huniq Hun.
  - destruct Hun.
  - cbn [getPath untouched] in *.
    rewrite deepMerge_getProp by now apply uniqueKeys_NoDup.
    pose proof (uniqueKeys_getProp source key Huniq) as Hinner.
    destruct (getProp source key) as [| | b | x | s | name | items | sf] eqn:E;
      try contradiction; [reflexivity |].
    unfold mergedValue.
    destruct (getProp target key) as [| | b | x | s | name | items | tf] eqn:Et;
      try (rewrite (untouched_getPath rest _ Hun);
           destruct rest; [destruct Hun | reflexivity]).
    now apply IH.
Qed.

Lemma deepMerge_keeps_untouched_witness :
  getPath (VObj (deepMerge sampleDefaults sampleOverrides)) ["note"; "height"]%string
  = getPath (VObj sampleDefaults) ["note"; "height"]%string.
Proof.
  apply (deepMerge_keeps_untouched ["note"; "height"]%string
           sampleDefaults sampleOverrides).
  - cbn; repeat split; repeat constructor; simpl; intuition discriminate.
  - exact I.
Defined.

(* ------------------------------------------------------------------------- *)
(** ** Geometry of the emitted notes and bar lines *)

(** X19.  Geometry of a hold whose end is present and non-zero and whose
    residual height is positive: the emitter returns the cap and the body;
    the cap is centred vertically on the start time, the body begins at the
    cap's far edge and ends half a note height before the end time, and
    the body is centred horizontally on the cap. *)
Theorem hold_body_geometry
    (ctx : Context) (n : Note) (s e : Q) (color : option string) :
  let o := note (ctx_options ctx) in
  let scale := time_scale (time_ (ctx_options ctx)) in
  ctx_start ctx = Fin s ->
  note_colorSelector o (keys (ctx_beatmap ctx)) n = Ok color ->
  end_ n = Some e ->
  ~ (e == 0)%Q ->
  (note_height o < (e - start n) * scale)%Q ->
  exists x noteY lnX lnY lnHeight lnColor,
    createNote ctx n
    = Ok [Rect (Fin x) (Fin noteY) (Fin (note_width o)) (Fin (note_height o))
               (Some (Fin (note_rx o))) color;
          Rect (Fin lnX) (Fin lnY) (Fin (note_bodyWidth o)) (Fin lnHeight)
               None lnColor]
    /\ (noteY + note_height o / 2 == (start n - s) * scale)%Q
    /\ (lnY == noteY + note_height o)%Q
    /\ (lnY + lnHeight == (e - s) * scale - note_height o / 2)%Q
    /\ (lnX + note_bodyWidth o / 2 == x + note_width o / 2)%Q.
Proof.
  intros o scale Hs Hc He Hnz Hh.
  unfold createNote. fold o. rewrite Hc, Hs, He. cbn [bind]. cbv zeta.
  assert (Ht : truthy (Fin e) = true).
  { cbn [truthy]. destruct (Qeq_bool e 0) eqn:E; [| reflexivity].
    apply Qeq_bool_iff in E. contradiction. }
  rewrite Ht.
  rewrite !div_fin by lra.
  cbn [add sub mul neg].
  assert (Hgt : (Fin ((e + - start n) * time_scale (time_ (ctx_options ctx))
                      + - note_height o)%Q >? Fin 0) = true).
  { apply gt_fin. subst scale. unfold Qminus in Hh. lra. }
  rewrite Hgt. cbn [app].
  eexists _, _, _, _, _, _. split; [reflexivity |].
  fold scale. repeat split; field.
Qed.

Lemma hold_body_geometry_witness :
  exists ctx,
    resolveOptions sampleBeatmap defaultOptions = Ok ctx
    /\ exists x noteY lnX lnY lnHeight lnColor,
         createNote ctx (mkNote 1 1000 (Some 2000))
         = Ok [Rect (Fin x) (Fin noteY) (Fin 20) (Fin 6) (Some (Fin 2))
                    (Some "#5EAEFF"%string);
               Rect (Fin lnX) (Fin lnY) (Fin 10) (Fin lnHeight) None lnColor]
         /\ (noteY + 6 / 2 == (1000 - 0) * (1 # 10))%Q
         /\ (lnY == noteY + 6)%Q
         /\ (lnY + lnHeight == (2000 - 0) * (1 # 10) - 6 / 2)%Q
         /\ (lnX + 10 / 2 == x + 20 / 2)%Q.
Proof.
  eexists. split; [reflexivity |].
  refine (hold_body_geometry _ (mkNote 1 1000 (Some 2000)) 0 2000
            (Some "#5EAEFF"%string) _ _ _ _ _).
  - reflexivity.
  - reflexivity.
  - reflexivity.
  - discriminate.
  - reflexivity.
Defined.

(** X20.  A bar line drawn at a note's start time passes through the middle
    of the note's cap, and a note in one of the chart's columns, of
    non-negative width, lies within the horizontal extent of the bar
    line. *)
Theorem bar_line_through_cap
    (ctx : Context) (n : Note) (s : Q) (color : option string) :
  let o := note (ctx_options ctx) in
  ctx_start ctx = Fin s ->
  note_colorSelector o (keys (ctx_beatmap ctx)) n = Ok color ->
  (0 <= column n < keys (ctx_beatmap ctx))%Z ->
  (0 <= note_width o)%Q ->
  exists x noteY x2 y rest,
    createNote ctx n
    = Ok (Rect (Fin x) (Fin noteY) (Fin (note_width o)) (Fin (note_height o))
               (Some (Fin (note_rx o))) color :: rest)
    /\ createBarLine ctx (Fin (start n))
       = [Line (Fin 0) (Fin y) (Fin x2) (Fin y)
               (barline_color (barline (ctx_options ctx)))
               (Fin (barline_strokeWidth (barline (ctx_options ctx))))]
    /\ (y == noteY + note_height o / 2)%Q
    /\ (0 <= x)%Q
    /\ (x + note_width o <= x2)%Q.
Proof.
  intros o Hs Hc [Hc0 Hck] Hw.
  assert (Hq0 : (0 <= inject_Z (column n))%Q)
    by (change 0%Q with (inject_Z 0); now rewrite <- Zle_Qle).
  assert (Hqk : (inject_Z (column n) + 1 <= inject_Z (keys (ctx_beatmap ctx)))%Q).
  { change 1%Q with (inject_Z 1). rewrite <- inject_Z_plus, <- Zle_Qle. lia. }
  assert (Hshape : exists rest,
            createNote ctx n
            = Ok (Rect (Fin (inject_Z (column n) * note_width o))
                       (Fin ((start n - s) * time_scale (time_ (ctx_options ctx))
                             - note_height o / 2))
                       (Fin (note_width o)) (Fin (note_height o))
                       (Some (Fin (note_rx o))) color :: rest)).
  { unfold createNote. fold o. rewrite Hc, Hs. cbn [bind]. cbv zeta.
    rewrite !div_fin by lra. cbn [add sub mul neg].
    destruct (end_ n) as [e |]; [| eexists; reflexivity].
    destruct (truthy (Fin e)); [| eexists; reflexivity].
    destruct (_ >? Fin 0); eexists; reflexivity. }
  destruct Hshape as [rest Hshape].
  eexists _, _, _, _, rest. split; [exact Hshape |].
  unfold createBarLine. rewrite Hs. cbv zeta. cbn [add sub mul neg].
  split; [reflexivity |]. fold o.
  repeat split.
  - field.
  - nra.
  - nra.
Qed.

Lemma bar_line_through_cap_witness :
  exists ctx,
    resolveOptions sampleBeatmap defaultOptions = Ok ctx
    /\ exists x noteY x2 y rest,
         createNote ctx (mkNote 1 1000 None)
         = Ok (Rect (Fin x) (Fin noteY) (Fin 20) (Fin 6) (Some (Fin 2))
                    (Some "#5EAEFF"%string) :: rest)
         /\ createBarLine ctx (Fin 1000)
            = [Line (Fin 0) (Fin y) (Fin x2) (Fin y) "#85F000"%string (Fin 1)]
         /\ (y == noteY + 6 / 2)%Q
         /\ (0 <= x)%Q
         /\ (x + 20 <= x2)%Q.
Proof.
  eexists. split; [reflexivity |].
  refine (bar_line_through_cap _ (mkNote 1 1000 None) 0
            (Some "#5EAEFF"%string) _ _ _ _).
  - reflexivity.
  - reflexivity.
  - cbn. lia.
  - discriminate.
Defined.

(* ------------------------------------------------------------------------- *)
(** ** Axis labels *)

Section IndexArrays.

Lemma In_indices (len i : Z) :
  In i (map Z.of_nat (seq 0 (Z.to_nat len))) <-> (0 <= i < len)%Z.
Proof.
  rewrite in_map_iff. split.
  - intros [k [<- Hk]]. apply in_seq in Hk. lia.
  - intros [H0 Hl]. exists (Z.to_nat i). split; [lia |].
    apply in_seq. lia.
Qed.

Lemma truncate_whole (z : Z) : truncate (inject_Z z) = z.
Proof.
  unfold truncate. destruct (Qle_bool 0 (inject_Z z));
    [apply Qfloor_Z | apply Qceiling_Z].
Qed.

Lemma truncate_nonneg (q : Q) : (0 <= q)%Q -> truncate q = Qfloor q.
Proof.
  intro H. unfold truncate. apply Qle_bool_iff in H. now rewrite H.
Qed.

Lemma Qfloor_ge (z : Z) (q : Q) : (z <= Qfloor q)%Z <-> (inject_Z z <= q)%Q.
Proof.
  split; intro H.
  - apply Qle_trans with (inject_Z (Qfloor q)); [| apply Qfloor_le].
    now rewrite <- Zle_Qle.
  - rewrite <- (Qfloor_Z z). now apply Qfloor_resp_le.
Qed.

Lemma times_whole (len : Z) :
  (0 <= len <= MAX_ARRAY_LENGTH)%Z ->
  times (Fin (inject_Z len)) = Some (map Z.of_nat (seq 0 (Z.to_nat len))).
Proof.
  intros [H0 Hmax]. unfold times, toLength. rewrite truncate_whole.
  unfold MAX_ARRAY_LENGTH in *.
  replace (Z.min (Z.max len 0) (2 ^ 53 - 1)) with len by lia.
  assert (E : (len >? 2 ^ 32 - 1)%Z = false)
    by (rewrite Z.gtb_ltb; apply Z.ltb_ge; lia).
  now rewrite E.
Qed.

Lemma times_below_zero (z : Z) :
  (z <= 0)%Z -> times (Fin (inject_Z z)) = Some [].
Proof.
  intro H. unfold times, toLength. rewrite truncate_whole.
  replace (Z.min (Z.max z 0) (2 ^ 53 - 1)) with 0%Z by lia.
  reflexivity.
Qed.

Lemma strictEq_whole (z : Z) :
  strictEq (Fin (inject_Z z)) (Fin 0) = (z =? 0)%Z.
Proof.
  unfold strictEq, cmp. change 0%Q with (inject_Z 0). rewrite cmp_inject_Z.
  unfold Z.eqb. destruct z; reflexivity.
Qed.

Lemma floor_minutes (i : Z) :
  floor (Fin (inject_Z i) * Fin 1000 / Fin 60000) = Fin (inject_Z (i / 60)).
Proof.
  cbn [mul]. rewrite div_fin by discriminate. cbn [floor]. do 2 f_equal.
  transitivity (Qfloor (i # 60)); [| reflexivity].
  apply Qfloor_comp. unfold inject_Z, Qeq. simpl. lia.
Qed.

Lemma floor_seconds (i : Z) :
  (0 <= i)%Z ->
  floor (rem (Fin (inject_Z i) * Fin 1000) (Fin 60000) / Fin 1000)
  = Fin (inject_Z (i mod 60)).
Proof.
  intro Hi. cbn [mul rem].
  replace (Qeq_bool 60000 0) with false by reflexivity.
  rewrite div_fin by discriminate. cbn [floor]. do 2 f_equal.
  assert (Hq : (0 <= inject_Z i * 1000 / 60000)%Q).
  { apply Qle_shift_div_l; [reflexivity |].
    assert (0 <= inject_Z i)%Q
      by (change 0%Q with (inject_Z 0); now rewrite <- Zle_Qle).
    lra. }
  rewrite (truncate_nonneg _ Hq).
  assert (Hm : Qfloor (inject_Z i * 1000 / 60000) = (i / 60)%Z).
  { transitivity (Qfloor (i # 60)); [| reflexivity].
    apply Qfloor_comp. unfold inject_Z, Qeq. simpl. lia. }
  rewrite Hm.
  rewrite <- (Qfloor_Z (i mod 60)). apply Qfloor_comp.
  rewrite (Z.mod_eq i 60) by lia.
  unfold Z.sub. rewrite inject_Z_plus, inject_Z_opp, inject_Z_mult.
  change (inject_Z 60) with 60%Q. field.
Qed.

End IndexArrays.

(** X21.  Which whole seconds get an axis label: on a finite window whose
    end is below 2^32 seconds, the labelled seconds are exactly the
    [i >= 0] with [start <= 1000 i] and [1000 (i + 1) <= end].  So a whole
    second less than one second before the end has no label, and neither
    has any time below 0. *)
Theorem axis_seconds_window (ctx : Context) (s e : Q) :
  ctx_start ctx = Fin s ->
  ctx_end ctx = Fin e ->
  (e < 1000 * inject_Z (2 ^ 32))%Q ->
  exists l,
    axisSeconds ctx = Some l
    /\ forall i : Z,
         In i l <-> (0 <= i)%Z
                    /\ (s <= inject_Z i * 1000)%Q
                    /\ (inject_Z (i + 1) * 1000 <= e)%Q.
Proof.
  intros Hs He Hbound. unfold axisSeconds. rewrite Hs, He.
  rewrite div_fin by discriminate. cbn [floor].
  set (f := Qfloor (e / 1000)).
  assert (Hf : (f < 2 ^ 32)%Z).
  { apply Z.lt_nge. intro Hge. apply Qfloor_ge in Hge.
    apply (Qmult_le_r _ _ 1000) in Hge; [| reflexivity].
    assert (Hcancel : (e / 1000 * 1000 == e)%Q) by (field; discriminate).
    rewrite Hcancel in Hge. lra. }
  assert (Hiff : forall i, (i + 1 <= f)%Z <-> (inject_Z (i + 1) * 1000 <= e)%Q).
  { intro i. unfold f. rewrite Qfloor_ge. split; intro H.
    - apply (Qmult_le_r _ _ 1000) in H; [| reflexivity].
      assert (Hcancel : (e / 1000 * 1000 == e)%Q) by (field; discriminate).
      now rewrite Hcancel in H.
    - apply Qle_shift_div_l; [reflexivity | exact H]. }
  destruct (Z_le_gt_dec f 0) as [Hneg | Hpos].
  - rewrite (times_below_zero f Hneg). cbn [option_map filter].
    eexists. split; [reflexivity |].
    intro i. split; [intros [] |].
    intros [Hi [_ Hend]]. apply Hiff in Hend. lia.
  - rewrite times_whole by (unfold MAX_ARRAY_LENGTH; lia).
    cbn [option_map]. eexists. split; [reflexivity |].
    intro i. rewrite filter_In, In_indices. cbn [mul]. rewrite ge_fin.
    rewrite <- Hiff. intuition lia.
Qed.

Lemma axis_seconds_window_witness :
  exists ctx,
    resolveOptions sampleBeatmap defaultOptions = Ok ctx
    /\ exists l,
         axisSeconds ctx = Some l
         /\ forall i : Z,
              In i l <-> (0 <= i)%Z
                         /\ (0 <= inject_Z i * 1000)%Q
                         /\ (inject_Z (i + 1) * 1000 <= 3060)%Q.
Proof.
  eexists. split; [reflexivity |].
  refine (axis_seconds_window _ 0 3060 _ _ _).
  - reflexivity.
  - reflexivity.
  - reflexivity.
Defined.

(** X22.  What an axis label shows at the whole second [i >= 0]: when [i]
    is a multiple of 60 the label is the minute count [i / 60] in the
    minute style, otherwise it is the second within the minute, [i mod 60],
    in the second style; the tick and the text share the style's colour. *)
Theorem axis_label_text (ctx : Context) (i : Z) :
  (0 <= i)%Z ->
  let wholeMinute := (i mod 60 =? 0)%Z in
  let style :=
    if wholeMinute then axis_minute (axis (ctx_options ctx))
    else axis_second (axis (ctx_options ctx)) in
  exists x y x2 textX textY transform,
    createAxisLabel ctx (Fin (inject_Z i) * Fin 1000)
    = [Drawn (Line x y x2 y (style_color style) (Fin (style_strokeWidth style)));
       Text textX textY (style_color style) (Fin (style_fontSize style))
            transform
            (Fin (inject_Z (if wholeMinute then i / 60 else i mod 60)))].
Proof.
  intros Hi wholeMinute style. unfold createAxisLabel. cbv zeta.
  rewrite floor_minutes, (floor_seconds i Hi), strictEq_whole.
  fold wholeMinute. subst style.
  destruct wholeMinute; eexists _, _, _, _, _, _; reflexivity.
Qed.

Lemma axis_label_text_witness :
  exists x y x2 textX textY transform,
    createAxisLabel
      {| ctx_beatmap := sampleBeatmap; ctx_options := defaultOptions;
         ctx_start := Fin 0; ctx_end := Fin 200000; ctx_stripNum := Fin 8;
         ctx_stripWidth := Fin 110; ctx_stripHeight := Fin 2500;
         ctx_margin := (Fin 10, Fin 10); ctx_totalWidth := Fin 900;
         ctx_totalHeight := Fin 2520; ctx_finalScale := Fin 1 |}
      (Fin (inject_Z 125) * Fin 1000)
    = [Drawn (Line x y x2 y "#FFFFFF"%string (Fin 1));
       Text textX textY "#FFFFFF"%string (Fin 18) transform (Fin (inject_Z 5))].
Proof.
  refine (axis_label_text _ 125 _). lia.
Defined.

(* ------------------------------------------------------------------------- *)
(** ** Clip paths and strip instances *)

Section StripElements.

Lemma truncate_eq (q : Q) (z : Z) : (q == inject_Z z)%Q -> truncate q = z.
Proof.
  intro H. rewrite <- (truncate_whole z). unfold truncate.
  rewrite (Qfloor_comp _ _ H), (Qceiling_comp _ _ H).
  destruct (Qle_bool 0 q) eqn:E1, (Qle_bool 0 (inject_Z z)) eqn:E2;
    try reflexivity.
  - apply Qle_bool_iff in E1. rewrite H in E1. apply Qle_bool_iff in E1.
    congruence.
  - apply Qle_bool_iff in E2. rewrite <- H in E2. apply Qle_bool_iff in E2.
    congruence.
Qed.

Lemma times_count (q : Q) :
  (0 <= q <= inject_Z MAX_STRIP_NUM)%Q ->
  times (Fin q) = Some (map Z.of_nat (seq 0 (Z.to_nat (Qfloor q)))).
Proof.
  intros [H0 H50]. unfold times, toLength.
  rewrite (truncate_nonneg q H0).
  assert (Hlo : (0 <= Qfloor q)%Z) by now apply Qfloor_ge.
  assert (Hhi : (Qfloor q <= MAX_STRIP_NUM)%Z).
  { rewrite <- (Qfloor_Z MAX_STRIP_NUM). now apply Qfloor_resp_le. }
  unfold MAX_STRIP_NUM, MAX_ARRAY_LENGTH in *.
  replace (Z.min (Z.max (Qfloor q) 0) (2 ^ 53 - 1)) with (Qfloor q) by lia.
  assert (E : (Qfloor q >? 2 ^ 32 - 1)%Z = false)
    by (rewrite Z.gtb_ltb; apply Z.ltb_ge; lia).
  now rewrite E.
Qed.

Lemma In_clipPaths (ctx : Context) (h : Q) (idx : list Z) (j : Z)
    (x0 w0 : num) (y0 h0 : Q) :
  ctx_stripHeight ctx = Fin h ->
  In (ClipPath j (Rect x0 (Fin y0) w0 (Fin h0) None None))
     (flat_map (createClipPath ctx) idx) ->
  In j idx /\ y0 = (inject_Z j * h)%Q /\ h0 = h.
Proof.
  intros Hh Hin. apply in_flat_map in Hin as [j' [Hj' Hin]].
  unfold createClipPath in Hin. rewrite Hh in Hin. cbv zeta in Hin.
  cbn [mul] in Hin. destruct Hin as [Heq | []].
  injection Heq as -> _ -> _ ->. auto.
Qed.

Lemma length_singletons {A B : Type} (f : A -> list B) (l : list A) :
  (forall a, List.length (f a) = 1%nat) ->
  List.length (flat_map f l) = List.length l.
Proof.
  intro Hf. induction l as [| a l IH]; [reflexivity |].
  cbn [flat_map]. rewrite length_app, Hf, IH. reflexivity.
Qed.

Variable beatmap : Beatmap.
Variable options : Options.
Hypothesis sane : saneOptions beatmap options.

(** Under sane options the strip count is a whole number. *)
Lemma resolveStrip_whole (s e0 nq : Q) (e : num) :
  resolveStrip beatmap options (Fin s) (Fin e0) = Ok (Fin nq, e) ->
  exists z : Z, (nq == inject_Z z)%Q.
Proof.
  destruct sane.
  destruct (strip_mode (strip options)) eqn:Em.
  - unfold resolveStrip. rewrite Em.
    destruct (strip_num (strip options)) as [k |] eqn:Ek; [| discriminate].
    destruct (_ || _); [discriminate |].
    intro H; injection H as <- _. exact (sane_num0 k eq_refl).
  - destruct (strip_time (strip options)) as [d |] eqn:Ed.
    + destruct (Qlt_le_dec 0 d) as [Hd | Hd].
      * rewrite (resolveStrip_time beatmap options s e0 d Em Ed Hd). cbv zeta.
        destruct (_ <=? 0)%Z; [discriminate |].
        intro H; injection H as <- _. eexists; reflexivity.
      * unfold resolveStrip. rewrite Em, Ed.
        apply le_fin in Hd. rewrite Hd. discriminate.
    + unfold resolveStrip. rewrite Em, Ed. discriminate.
  - unfold resolveStrip. rewrite Em.
    destruct (strip_ratio (strip options)) as [r |]; [| discriminate].
    destruct (_ <=? _); [discriminate |].
    destruct (_ >? _); [discriminate |].
    intro H; injection H as <- _. eexists; reflexivity.
  - unfold resolveStrip. rewrite Em. discriminate.
Qed.

End StripElements.

(** X23.  The strips show the whole chart once.  For sane option values
    (and, in the ['ratio'] mode, a search that ends on a count within
    1..50) the clip windows tile the chart's height: every position [y]
    with [0 <= y < (end - start) * time.scale] lies in the window of
    exactly one clip path, [i * strip.height <= y < (i + 1) * strip.height],
    and the strip instance that uses this clip path is moved right by
    [i] strip widths and back by [i] strip heights. *)
Theorem strips_tile_chart
    (beatmap : Beatmap) (options : Options) (ctx : Context) :
  resolveOptions beatmap options = Ok ctx ->
  saneOptions beatmap options ->
  (strip_mode (strip options) = ModeRatio ->
   (Fin 1 <=? ctx_stripNum ctx) = true
   /\ (ctx_stripNum ctx <=? Fin (inject_Z MAX_STRIP_NUM)) = true) ->
  exists (h w H : Q) (clips uses : list Element),
    ctx_stripHeight ctx = Fin h
    /\ ctx_stripWidth ctx = Fin w
    /\ chartHeight ctx = Fin H
    /\ clipPaths ctx = Some clips
    /\ strips ctx = Some uses
    /\ forall y : Q,
         (0 <= y < H)%Q ->
         exists i : Z,
           In (ClipPath i (Rect (Fin 0) (Fin (inject_Z i * h)) (Fin w) (Fin h)
                                None None)) clips
           /\ In (Use (Fin (inject_Z i * w)) (Fin (- inject_Z i * h)) i) uses
           /\ (inject_Z i * h <= y < inject_Z i * h + h)%Q
           /\ forall (j : Z) (x0 w0 : num) (y0 h0 : Q),
                In (ClipPath j (Rect x0 (Fin y0) w0 (Fin h0) None None)) clips ->
                (y0 <= y < y0 + h0)%Q -> j = i.
Proof.
  intros Hres Hsane Hmode.
  destruct (resolveOptions_inv _ _ _ Hres) as [Hs [Hn [_ [Hw [Hh [_ Hopt]]]]]].
  destruct (resolveStart_finite _ _ _ Hs) as [s Es]. rewrite Es in *.
  destruct (resolveEnd_after_start beatmap options Hsane s Hs) as [e0 [Ee0 Hse0]].
  rewrite Ee0 in Hn.
  destruct (resolveStrip_sane beatmap options Hsane s e0 _ _ Hse0 Hn Hmode)
    as [nq [eq [En [Ee [[Hn1 Hn50] Hse]]]]].
  rewrite En, Ee in *.
  destruct (resolveStrip_whole beatmap options Hsane s e0 nq _ Hn) as [z Hz].
  assert (Hnz : ~ (nq == 0)%Q) by lra.
  rewrite (computeLayout_fin beatmap options s eq nq Hnz) in Hw, Hh.
  cbn [stripWidth stripHeight] in Hw, Hh.
  pose proof (sane_scale _ _ Hsane) as Hscale.
  set (H := windowHeight options s eq) in *.
  assert (HH : (0 < H)%Q) by (unfold H, windowHeight; nra).
  set (h := (H / nq)%Q) in *.
  assert (Hhpos : (0 < h)%Q) by (apply Qlt_shift_div_l; lra).
  assert (HhH : (h * nq == H)%Q) by (unfold h; field; exact Hnz).
  set (w := stripWidthQ beatmap options) in *.
  assert (Hfloor : Qfloor nq = z).
  { rewrite (Qfloor_comp _ _ Hz). apply Qfloor_Z. }
  assert (Htimes : times (ctx_stripNum ctx)
                   = Some (map Z.of_nat (seq 0 (Z.to_nat z)))).
  { rewrite En, times_count by lra. now rewrite Hfloor. }
  exists h, w, H.
  eexists _, _.
  split; [exact Hh |]. split; [exact Hw |].
  split; [unfold chartHeight; rewrite Es, Ee, Hopt; reflexivity |].
  unfold clipPaths, strips. rewrite Htimes. cbn [option_map].
  split; [reflexivity |]. split; [reflexivity |].
  intros y [Hy0 HyH].
  set (i := Qfloor (y / h)).
  assert (Hcancel : (y / h * h == y)%Q) by (field; lra).
  assert (Hlow : (inject_Z i * h <= y)%Q).
  { apply Qle_trans with (y / h * h)%Q.
    - apply Qmult_le_compat_r; [apply Qfloor_le | lra].
    - rewrite Hcancel. apply Qle_refl. }
  assert (Hhigh : (y < inject_Z i * h + h)%Q).
  { pose proof (Qlt_floor (y / h)) as Hlt. fold i in Hlt.
    rewrite inject_Z_plus in Hlt. change (inject_Z 1) with 1%Q in Hlt.
    apply (Qmult_lt_r _ _ h Hhpos) in Hlt. rewrite Hcancel in Hlt.
    assert (E : ((inject_Z i + 1) * h == inject_Z i * h + h)%Q) by ring.
    now rewrite E in Hlt. }
  assert (Hi0 : (0 <= i)%Z).
  { apply Qfloor_ge. change (inject_Z 0) with 0%Q.
    apply Qle_shift_div_l; lra. }
  assert (Hiz : (i < z)%Z).
  { apply Z.lt_nge. intro Hge. rewrite Zle_Qle in Hge. rewrite <- Hz in Hge.
    apply (Qmult_le_compat_r _ _ h) in Hge; [| lra].
    assert (E : (nq * h == H)%Q) by (rewrite <- HhH; ring).
    rewrite E in Hge. lra. }
  assert (Hidx : In i (map Z.of_nat (seq 0 (Z.to_nat z))))
    by (apply In_indices; lia).
  exists i. split; [| split; [| split; [split; assumption |]]].
  - apply in_flat_map. exists i. split; [exact Hidx |].
    unfold createClipPath. rewrite Hh, Hw. left. reflexivity.
  - apply in_flat_map. exists i. split; [exact Hidx |].
    unfold createStrip. rewrite Hh, Hw. left. reflexivity.
  - intros j x0 w0 y0 h0 Hin [Hj1 Hj2].
    destruct (In_clipPaths ctx h _ j x0 w0 y0 h0 Hh Hin) as [_ [-> ->]].
    assert (H1 : (inject_Z j < inject_Z i + 1)%Q).
    { apply (Qmult_lt_r _ _ h Hhpos).
      assert (E : ((inject_Z i + 1) * h == inject_Z i * h + h)%Q) by ring.
      rewrite E. lra. }
    assert (H2 : (inject_Z i < inject_Z j + 1)%Q).
    { apply (Qmult_lt_r _ _ h Hhpos).
      assert (E : ((inject_Z j + 1) * h == inject_Z j * h + h)%Q) by ring.
      rewrite E. lra. }
    change 1%Q with (inject_Z 1) in H1, H2.
    rewrite <- inject_Z_plus, <- Zlt_Qlt in H1, H2. lia.
Qed.

Lemma defaultOptions_sane (beatmap : Beatmap) :
  (0 <= keys beatmap)%Z -> saneOptions beatmap defaultOptions.
Proof.
  intro Hk.
  assert (Hq : (0 <= inject_Z (keys beatmap))%Q)
    by (change 0%Q with (inject_Z 0); now rewrite <- Zle_Qle).
  constructor; cbn; try lra.
  - discriminate.
  - intros n H. injection H as <-. now exists 8%Z.
Qed.

Lemma strips_tile_chart_witness :
  exists ctx,
    resolveOptions sampleBeatmap defaultOptions = Ok ctx
    /\ exists (h w H : Q) (clips uses : list Element),
         ctx_stripHeight ctx = Fin h
         /\ ctx_stripWidth ctx = Fin w
         /\ chartHeight ctx = Fin H
         /\ clipPaths ctx = Some clips
         /\ strips ctx = Some uses
         /\ forall y : Q,
              (0 <= y < H)%Q ->
              exists i : Z,
                In (ClipPath i (Rect (Fin 0) (Fin (inject_Z i * h)) (Fin w)
                                     (Fin h) None None)) clips
                /\ In (Use (Fin (inject_Z i * w)) (Fin (- inject_Z i * h)) i) uses
                /\ (inject_Z i * h <= y < inject_Z i * h + h)%Q
                /\ forall (j : Z) (x0 w0 : num) (y0 h0 : Q),
                     In (ClipPath j (Rect x0 (Fin y0) w0 (Fin h0) None None))
                        clips ->
                     (y0 <= y < y0 + h0)%Q -> j = i.
Proof.
  eexists. split; [reflexivity |].
  refine (strips_tile_chart sampleBeatmap defaultOptions _ eq_refl _ _).
  - apply defaultOptions_sane. simpl. lia.
  - discriminate.
Defined.

Lemma floor_below_fraction (q : Q) :
  ~ (exists z : Z, (q == inject_Z z)%Q) -> (inject_Z (Qfloor q) < q)%Q.
Proof.
  intro Hfrac.
  destruct (Qle_lt_or_eq _ _ (Qfloor_le q)) as [Hlt | Heq]; [exact Hlt |].
  exfalso. apply Hfrac. eexists. symmetry. exact Heq.
Qed.

(** X24.  A fractional strip count is accepted and loses the end of the
    chart.  In the ['num'] mode a count [n] that is not a whole number
    passes the resolver's range check; the strip height is the chart's
    height over [n], but only [floor n] clip paths are made, so every
    clip window ends strictly before the chart's end (and for [n < 1]
    there is no clip path at all). *)
Theorem fractional_count_loses_chart_end
    (beatmap : Beatmap) (options : Options) (ctx : Context) (n s e : Q) :
  strip_mode (strip options) = ModeNum ->
  strip_num (strip options) = Some n ->
  ~ (exists z : Z, (n == inject_Z z)%Q) ->
  resolveOptions beatmap options = Ok ctx ->
  ctx_start ctx = Fin s ->
  ctx_end ctx = Fin e ->
  (s < e)%Q ->
  (0 < time_scale (time_ options))%Q ->
  exists (H : Q) (clips : list Element),
    chartHeight ctx = Fin H
    /\ clipPaths ctx = Some clips
    /\ List.length clips = Z.to_nat (Qfloor n)
    /\ forall (j : Z) (x0 w0 : num) (y0 h0 : Q),
         In (ClipPath j (Rect x0 (Fin y0) w0 (Fin h0) None None)) clips ->
         (y0 + h0 < H)%Q.
Proof.
  intros Hm Hnum Hfrac Hres Es Ee Hse Hscale.
  destruct (resolveOptions_inv _ _ _ Hres) as [_ [Hn [_ [_ [Hh [_ Hopt]]]]]].
  assert (Hrange : (0 < n <= inject_Z MAX_STRIP_NUM)%Q
                   /\ ctx_stripNum ctx = Fin n).
  { unfold resolveStrip in Hn. rewrite Hm, Hnum in Hn.
    destruct (_ || _) eqn:Eg; [discriminate |].
    injection Hn as Hn _.
    apply orb_false_iff in Eg as [H0 H50].
    apply le_fin_false in H0. apply gt_fin_false in H50. auto. }
  destruct Hrange as [[Hn0 Hn50] En].
  assert (Hnz : ~ (n == 0)%Q) by lra.
  rewrite Es, Ee, En in Hh.
  rewrite (computeLayout_fin beatmap options s e n Hnz) in Hh.
  cbn [stripHeight] in Hh.
  set (H := windowHeight options s e) in *.
  assert (HH : (0 < H)%Q) by (unfold H, windowHeight; nra).
  set (h := (H / n)%Q) in *.
  assert (Hhpos : (0 < h)%Q) by (apply Qlt_shift_div_l; lra).
  assert (HhH : (n * h == H)%Q) by (unfold h; field; exact Hnz).
  exists H. eexists.
  split; [unfold chartHeight; rewrite Es, Ee, Hopt; reflexivity |].
  unfold clipPaths. rewrite En, times_count by lra. cbn [option_map].
  split; [reflexivity |]. split.
  - rewrite length_singletons by reflexivity.
    now rewrite length_map, length_seq.
  - intros j x0 w0 y0 h0 Hin.
    destruct (In_clipPaths ctx h _ j x0 w0 y0 h0 Hh Hin) as [Hj [-> ->]].
    apply In_indices in Hj.
    assert (Hj1 : (inject_Z j + 1 <= inject_Z (Qfloor n))%Q).
    { change 1%Q with (inject_Z 1). rewrite <- inject_Z_plus, <- Zle_Qle. lia. }
    pose proof (floor_below_fraction n Hfrac) as Hlt.
    assert (Hjn : (inject_Z j + 1 < n)%Q) by lra.
    apply (Qmult_lt_r _ _ h Hhpos) in Hjn.
    assert (E : ((inject_Z j + 1) * h == inject_Z j * h + h)%Q) by ring.
    rewrite E, HhH in Hjn. exact Hjn.
Qed.

Lemma fractional_count_loses_chart_end_witness :
  exists ctx,
    resolveOptions sampleBeatmap (numStrips (5 # 2)) = Ok ctx
    /\ exists (H : Q) (clips : list Element),
         chartHeight ctx = Fin H
         /\ clipPaths ctx = Some clips
         /\ List.length clips = Z.to_nat (Qfloor (5 # 2))
         /\ forall (j : Z) (x0 w0 : num) (y0 h0 : Q),
              In (ClipPath j (Rect x0 (Fin y0) w0 (Fin h0) None None)) clips ->
              (y0 + h0 < H)%Q.
Proof.
  eexists. split; [reflexivity |].
  refine (fractional_count_loses_chart_end sampleBeatmap (numStrips (5 # 2)) _
            (5 # 2) 0 3060 eq_refl eq_refl _ eq_refl eq_refl eq_refl _ _).
  - intros [z Hz]. unfold Qeq in Hz. simpl in Hz. lia.
  - reflexivity.
  - reflexivity.
Defined.
